(** * AppLauncher: launch / attach orchestration of the Cordova debugger

    A shallow embedding of the parts of [AppLauncher] (the TypeScript class
    behind the Cordova/Ionic launch and attach requests) that the
    specification makes statements about, together with the small part of
    the JavaScript runtime these parts rest on: UTF-16 strings, the
    backtracking regular expression matcher of ECMAScript, [split],
    [replace], [indexOf], [encodeURIComponent] and one-shot deferreds. *)

From Stdlib Require Import String Ascii NArith List Bool Lia.
From stdpp Require Import base option list gmap.

Open Scope N_scope.
Open Scope list_scope.

(** ** JavaScript strings

    A JavaScript string is a sequence of UTF-16 code units.  A code unit is
    an [N]; string literals of the source are written [js "text"]. *)

Abbreviation jsstring := (list N).

Definition js (s : string) : jsstring :=
  map N_of_ascii (list_ascii_of_string s).

(** The code unit of a one-character literal. *)
Definition cu (s : string) : N :=
  match s with
  | String a _ => N_of_ascii a
  | EmptyString => 0
  end.

Definition TAB : N := 9.
Definition LF : N := 10.
Definition CR : N := 13.
Definition ESC : N := 27.
Definition CSI : N := 155.

Definition str_eqb (a b : jsstring) : bool := bool_decide (a = b).

Module Chars.

Definition only (c : N) : N → bool := N.eqb c.

Definition range (lo hi : string) (c : N) : bool :=
  (cu lo <=? c) && (c <=? cu hi).

Definition one_of (l : list N) (c : N) : bool := existsb (N.eqb c) l.

Definition any_of (ps : list (N → bool)) (c : N) : bool :=
  existsb (fun p => p c) ps.

Definition none_of (ps : list (N → bool)) (c : N) : bool :=
  negb (any_of ps c).

(** ECMAScript LineTerminator: LF, CR, LS, PS. *)
Definition line_terminator : N → bool :=
  one_of [10; 13; 8232; 8233].

(** ECMAScript WhiteSpace (TAB, VT, FF, SP, NBSP, ZWNBSP and the Unicode
    space separators), as far as a single code unit can be one. *)
Definition white_space (c : N) : bool :=
  one_of [9; 11; 12; 32; 160; 5760; 8239; 8287; 12288; 65279] c
  || ((8192 <=? c) && (c <=? 8202)).

(** [\s]: WhiteSpace or LineTerminator. *)
Definition space : N → bool := any_of [white_space; line_terminator].

(** [\d], [\w] and [.] *)
Definition digit : N → bool := range "0" "9".
Definition word : N → bool :=
  any_of [range "a" "z"; range "A" "Z"; range "0" "9"; only (cu "_")].
Definition dot (c : N) : bool := negb (line_terminator c).

(** Case folding of the [i] flag.  Without the [u] flag a code unit is
    canonicalised by its upper-case mapping, except that no code unit
    outside ASCII is ever mapped into ASCII; the patterns of this program
    only hold ASCII characters, so all that is needed is the mapping on
    ASCII: a pattern letter accepts exactly its two cases. *)
Definition upper (c : N) : N :=
  if range "a" "z" c then c - 32 else c.
Definition lower (c : N) : N :=
  if range "A" "Z" c then c + 32 else c.
Definition is_i (p : N) (c : N) : bool := upper p =? upper c.

End Chars.

(** ** Regular expressions

    The syntax tree of the regular expression literals of the source, and
    the backtracking matcher of ECMAScript (ES 2015, 21.2.2) over it, in
    continuation-passing style as in the standard. *)
Module Regex.

Inductive re : Type :=
| Eps
| Chr (p : N → bool)                      (* a literal, a class, [.], [\s] *)
| Seq (a b : re)
| Alt (a b : re)                          (* a|b, the left one first *)
| Rep (lo : nat) (hi : option nat) (a : re)   (* greedy a{lo,hi} *)
| Grp (n : nat) (a : re)                  (* capturing group number n *)
| Ahead (a : re)                          (* (?=a) *)
| Bol (multiline : bool)                  (* ^ *)
| Eol (multiline : bool).                 (* $ *)

(** A matcher state: the code unit before the current position (none at
    index 0), the input from the current position on, and the captures
    made so far (the latest first). *)
Record pos : Type := Pos {
  before : option N;
  rest : jsstring;
  caps : list (nat * jsstring)
}.

Definition consumed (x y : pos) : jsstring :=
  take (length (rest x) - length (rest y)) (rest x).

(** The greedy repetition [a{lo,hi}] of a matcher [step] (RepeatMatcher of
    the standard): [n] is the number of iterations still allowed, [lo]
    the number still required.  An iteration that is not required and
    consumes nothing is refused (step 2.b). *)
Definition repeat (step : pos → (pos → option pos) → option pos)
    (k : pos → option pos) : nat → nat → pos → option pos :=
  fix rep (n lo : nat) (x : pos) {struct n} : option pos :=
    match n with
    | O => k x
    | S n' =>
        let d := fun y : pos =>
          if Nat.eqb lo 0 && Nat.eqb (length (rest y)) (length (rest x))
          then None
          else rep n' (Nat.pred lo) y in
        match lo with
        | S _ => step x d
        | O => match step x d with
               | Some z => Some z
               | None => k x
               end
        end
    end.

(** [run r x k]: match [r] at [x], then continue with [k]; [None] is the
    standard's failure.  An unbounded repetition makes at most [lo] plus
    the number of remaining code units iterations, as an iteration beyond
    the required ones has to consume something: that is the bound used
    for [hi = None]. *)
Fixpoint run (r : re) (x : pos) (k : pos → option pos) : option pos :=
  match r with
  | Eps => k x
  | Chr p =>
      match rest x with
      | c :: t => if p c then k (Pos (Some c) t (caps x)) else None
      | [] => None
      end
  | Seq a b => run a x (fun y => run b y k)
  | Alt a b =>
      match run a x k with
      | Some z => Some z
      | None => run b x k
      end
  | Rep lo hi a =>
      repeat (run a) k
        (match hi with
         | Some h => h
         | None => (lo + length (rest x))%nat
         end) lo x
  | Grp n a =>
      run a x (fun y => k (Pos (before y) (rest y) ((n, consumed x y) :: caps y)))
  | Ahead a =>
      match run a x Some with
      | Some y => k (Pos (before x) (rest x) (caps y))
      | None => None
      end
  | Bol ml =>
      match before x with
      | None => k x
      | Some c => if ml && Chars.line_terminator c then k x else None
      end
  | Eol ml =>
      match rest x with
      | [] => k x
      | c :: _ => if ml && Chars.line_terminator c then k x else None
      end
  end.

(** A match at exactly the given position. *)
Definition match_at (r : re) (b : option N) (s : jsstring) : option pos :=
  run r (Pos b s []) Some.

(** The result of a successful [exec]: the index of the match, the
    matched text, the captures, and the input after the match. *)
Record result : Type := Result {
  index : nat;
  matched : jsstring;
  groups : list (nat * jsstring);
  after : jsstring
}.

Definition result_at (i : nat) (s : jsstring) (e : pos) : result :=
  Result i (take (length s - length (rest e)) s) (caps e) (rest e).

(** Capture [n] of a result: [None] is JavaScript's [undefined]. *)
Definition group (n : nat) (m : result) : option jsstring :=
  snd <$> List.find (fun g => Nat.eqb (fst g) n) (groups m).

(** The leftmost match from the position [(b, s)] on, which has index [i]. *)
Fixpoint search (r : re) (b : option N) (s : jsstring) (i : nat) : option result :=
  match match_at r b s with
  | Some e => Some (result_at i s e)
  | None =>
      match s with
      | [] => None
      | c :: t => search r (Some c) t (S i)
      end
  end.

(** [r.exec(s)] with [lastIndex = 0], and [r.test(s)]. *)
Definition exec (r : re) (s : jsstring) : option result := search r None s 0.
Definition test (r : re) (s : jsstring) : bool := bool_decide (is_Some (exec r s)).

(** [s.replace(r, repl)] for [r] without the [g] flag and [repl] without
    [$] patterns: the leftmost match is replaced. *)
Definition replace (r : re) (repl : jsstring) (s : jsstring) : jsstring :=
  match exec r s with
  | Some m => take (index m) s ++ repl ++ after m
  | None => s
  end.

(** All matches of a [g] regular expression, left to right, as
    [s.match(r)] and the [while (m = r.exec(s))] loop visit them.  [skip]
    counts the code units of the current match still to be passed; after
    an empty match the search goes on one code unit further. *)
Fixpoint scan (r : re) (b : option N) (s : jsstring) (i skip : nat) : list result :=
  match s with
  | [] =>
      match skip, match_at r b [] with
      | O, Some e => [result_at i [] e]
      | _, _ => []
      end
  | c :: t =>
      match skip with
      | S n => scan r (Some c) t (S i) n
      | O =>
          match match_at r b s with
          | Some e =>
              result_at i s e :: scan r (Some c) t (S i) (Nat.pred (length s - length (rest e)))
          | None => scan r (Some c) t (S i) 0
          end
      end
  end.

Definition match_all (r : re) (s : jsstring) : list result := scan r None s 0 0.

(** [s.replace(r, repl)] for [r] with the [g] flag: every match of
    [match_all] is replaced. *)
Fixpoint gsub (r : re) (repl : jsstring) (b : option N) (s : jsstring) (skip : nat) : jsstring :=
  match s with
  | [] =>
      match skip, match_at r b [] with
      | O, Some _ => repl
      | _, _ => []
      end
  | c :: t =>
      match skip with
      | S n => gsub r repl (Some c) t n
      | O =>
          match match_at r b s with
          | Some e =>
              repl ++
              match (length s - length (rest e))%nat with
              | O => c :: gsub r repl (Some c) t 0
              | S n => gsub r repl (Some c) t n
              end
          | None => c :: gsub r repl (Some c) t 0
          end
      end
  end.

Definition replace_all (r : re) (repl : jsstring) (s : jsstring) : jsstring :=
  gsub r repl None s 0.

(** [s.split(r)] (ES 2015, 21.1.3.17 and 21.2.5.11) for [r] without
    capturing groups: [cur] is the piece being collected, reversed; a
    match that would end where the piece begins is passed over. *)
Fixpoint split_go (r : re) (b : option N) (s : jsstring) (skip : nat) (cur : jsstring)
  : list jsstring :=
  match s with
  | [] => [rev cur]
  | c :: t =>
      match skip with
      | S n => split_go r (Some c) t n cur
      | O =>
          match match_at r b s with
          | Some e =>
              match (length s - length (rest e))%nat, cur with
              | O, [] => split_go r (Some c) t 0 [c]
              | O, _ => rev cur :: split_go r (Some c) t 0 [c]
              | S n, _ => rev cur :: split_go r (Some c) t n []
              end
          | None => split_go r (Some c) t 0 (c :: cur)
          end
      end
  end.

Definition split (r : re) (s : jsstring) : list jsstring :=
  match s with
  | [] => match match_at r None [] with Some _ => [] | None => [ [] ] end
  | _ => split_go r None s 0 []
  end.

(** *** What a match can consume

    The words of a pattern: what a match of it may have consumed, leaving
    aside the conditions that assertions put on the context.  A
    repetition [a{lo,hi}] is well formed when [lo] does not exceed [hi]
    (the parser refuses the others). *)
Inductive words : re → jsstring → Prop :=
| words_eps : words Eps []
| words_chr p c : p c = true → words (Chr p) [c]
| words_seq a b u v : words a u → words b v → words (Seq a b) (u ++ v)
| words_alt_l a b u : words a u → words (Alt a b) u
| words_alt_r a b u : words b u → words (Alt a b) u
| words_rep_nil hi a : words (Rep 0 hi a) []
| words_rep_cons lo hi hi' a u v :
    words a u → words (Rep (Nat.pred lo) hi' a) v → words (Rep lo hi a) (u ++ v)
| words_grp n a u : words a u → words (Grp n a) u
| words_ahead a : words (Ahead a) []
| words_bol ml : words (Bol ml) []
| words_eol ml : words (Eol ml) [].

Fixpoint well_formed (r : re) : bool :=
  match r with
  | Seq a b | Alt a b => well_formed a && well_formed b
  | Rep lo hi a =>
      match hi with Some h => (lo <=? h)%nat | None => true end && well_formed a
  | Grp _ a | Ahead a => well_formed a
  | _ => true
  end.

(** The least number of code units a match consumes. *)
Fixpoint min_len (r : re) : nat :=
  match r with
  | Chr _ => 1
  | Seq a b => min_len a + min_len b
  | Alt a b => Nat.min (min_len a) (min_len b)
  | Rep lo _ a => lo * min_len a
  | Grp _ a => min_len a
  | _ => 0
  end.

(** Every code unit that the pattern can consume satisfies [q]. *)
Fixpoint consumes_only (q : N → Prop) (r : re) : Prop :=
  match r with
  | Chr p => ∀ c, p c = true → q c
  | Seq a b | Alt a b => consumes_only q a ∧ consumes_only q b
  | Rep _ _ a | Grp _ a => consumes_only q a
  | _ => True
  end.

(** What a matcher promises: a success passes through the continuation,
    after a word of the pattern has been consumed; and a matcher calls its
    continuation only at its own position or after it. *)
Definition sound_for (a : re) (step : pos → (pos → option pos) → option pos) : Prop :=
  ∀ x k z, step x k = Some z →
    ∃ y w, rest x = w ++ rest y ∧ words a w ∧ k y = Some z.

Definition local (step : pos → (pos → option pos) → option pos) : Prop :=
  ∀ x k1 k2, (∀ y, (length (rest y) ≤ length (rest x))%nat → k1 y = k2 y) →
    step x k1 = step x k2.

(** What the greedy star of one character class comes to on a run of
    characters of the class: the continuation is tried after the whole
    run first, then one character earlier, and so on back to the start. *)
Fixpoint greedy (k : pos → option pos) (b : option N) (s : jsstring)
    (c : list (nat * jsstring)) : option pos :=
  match s with
  | [] => k (Pos b [] c)
  | a :: t =>
      match greedy k (Some a) t c with
      | Some z => Some z
      | None => k (Pos b s c)
      end
  end.

(** The code unit before the position that follows [u], when [b] is the
    one before [u]. *)
Fixpoint before_after (b : option N) (u : jsstring) : option N :=
  match u with
  | [] => b
  | a :: u' => before_after (Some a) u'
  end.

(** Capture [n] is set in a list of captures; and the pattern sets it on
    every way through it. *)
Definition captured (n : nat) (l : list (nat * jsstring)) : Prop :=
  is_Some (List.find (fun g => Nat.eqb (fst g) n) l).

Fixpoint binds (n : nat) (r : re) : bool :=
  match r with
  | Seq a b => binds n a || binds n b
  | Alt a b => binds n a && binds n b
  | Grp m a => Nat.eqb m n || binds n a
  | _ => false
  end.

(** *** Building blocks for the literals of the source *)

Fixpoint cat (l : list re) : re :=
  match l with
  | [] => Eps
  | [a] => a
  | a :: l' => Seq a (cat l')
  end.

Fixpoint alt (l : list re) : re :=
  match l with
  | [] => Eps
  | [a] => a
  | a :: l' => Alt a (alt l')
  end.

(** A run of literal characters, without and with the [i] flag. *)
Definition lit (s : string) : re := cat (map (fun c => Chr (Chars.only c)) (js s)).
Definition liti (s : string) : re := cat (map (fun c => Chr (Chars.is_i c)) (js s)).
(** The pattern built from a string none of whose characters is a syntax
    character: each character stands for itself. *)
Definition lits (s : jsstring) : re := cat (map (fun c => Chr (Chars.only c)) s).

Definition star : re → re := Rep 0 None.
Definition plus : re → re := Rep 1 None.
Definition opt : re → re := Rep 0 (Some 1%nat).
Definition dot : re := Chr Chars.dot.

(** *** Notions for the patterns that are sequences of characters *)

(** The string begins with characters that the classes [ps] accept, one
    after the other. *)
Fixpoint prefix_by (ps : list (N → bool)) (s : jsstring) : bool :=
  match ps, s with
  | [], _ => true
  | p :: ps', c :: t => p c && prefix_by ps' t
  | _ :: _, [] => false
  end.

(** [P] holds of the string from some position on (the end included). *)
Fixpoint anywhere (P : jsstring → bool) (s : jsstring) : bool :=
  P s || match s with
         | [] => false
         | _ :: t => anywhere P t
         end.

(** A pattern whose matches stay matches when the input grows at its end:
    it has no [$] and no look-ahead. *)
Fixpoint extensible (r : re) : bool :=
  match r with
  | Seq a b | Alt a b => extensible a && extensible b
  | Rep _ _ a | Grp _ a => extensible a
  | Ahead _ | Eol _ => false
  | _ => true
  end.

(** What is left of a string after its longest prefix of characters of the
    class [p]. *)
Fixpoint after_run (p : N → bool) (s : jsstring) : jsstring :=
  match s with
  | c :: t => if p c then after_run p t else s
  | [] => []
  end.

(** The matcher state [y] in the input that goes on with [t]. *)
Definition extend (t : jsstring) (y : pos) : pos :=
  Pos (before y) (rest y ++ t) (caps y).

End Regex.

(** ** The rest of the runtime: values, strings, arrays, errors, deferreds *)
Module JS.

(** [undefined] or a string; [String_] is the conversion a template
    literal or [+] applies. *)
Definition String_ (v : option jsstring) : jsstring :=
  match v with
  | Some s => s
  | None => js "undefined"
  end.

(** Truthiness of a string-or-undefined value. *)
Definition truthy (v : option jsstring) : bool :=
  match v with
  | Some (_ :: _) => true
  | _ => false
  end.

(** [s.toLowerCase()].  On ASCII the mapping is that of the letters A to
    Z.  The Unicode tables are no part of the model: outside ASCII the one
    code unit that they map onto an ASCII letter, the Kelvin sign U+212A,
    is mapped (onto k), and every other one is left as it is.  So the
    result is the one of JavaScript for a string whose code units outside
    ASCII have no lower case of their own, in particular for every ASCII
    string; and for every string the result is an ASCII word exactly when
    the one of JavaScript is, and then it is the same word. *)
Definition KELVIN : N := 8490.
Definition lower_unit (c : N) : N :=
  if c =? KELVIN then cu "k" else Chars.lower c.
Definition toLowerCase (s : jsstring) : jsstring := map lower_unit s.

(** A word without the letter k and without the Kelvin sign. *)
Definition no_k (w : jsstring) : bool :=
  forallb (fun c => negb (c =? cu "k") && negb (c =? KELVIN)) w.

(** [s.indexOf(sub)]: [None] is [-1]. *)
Fixpoint indexOf_from (sub s : jsstring) (i : nat) : option nat :=
  if bool_decide (take (length sub) s = sub) then Some i
  else match s with
       | [] => None
       | _ :: t => indexOf_from sub t (S i)
       end.

Definition indexOf (sub s : jsstring) : option nat := indexOf_from sub s 0.

(** [s.indexOf(sub) === 0] and [s.indexOf(sub) !== -1] *)
Definition indexOf_is_0 (sub s : jsstring) : bool :=
  bool_decide (indexOf sub s = Some 0%nat).
Definition includes (sub s : jsstring) : bool :=
  bool_decide (is_Some (indexOf sub s)).

(** [a.indexOf(x)] on an array of strings, with strict equality. *)
Fixpoint array_indexOf_from (x : jsstring) (a : list jsstring) (i : nat) : option nat :=
  match a with
  | [] => None
  | y :: a' => if str_eqb y x then Some i else array_indexOf_from x a' (S i)
  end.

Definition array_indexOf (x : jsstring) (a : list jsstring) : option nat :=
  array_indexOf_from x a 0.

Definition array_includes (x : jsstring) (a : list jsstring) : bool :=
  bool_decide (is_Some (array_indexOf x a)).

(** [a[i]] where [i] is the result of an [indexOf]: [a[-1]] and an index
    past the end are [undefined]. *)
Definition at_index (a : list jsstring) (i : option nat) : option jsstring :=
  i ≫= (a !!.).

(** [s.split(sep)] and [s.replace(sub, repl)] for a non-empty string
    [sep] or [sub]: the separator is matched literally; [replace]
    replaces the first occurrence. *)
Definition split (sep : jsstring) (s : jsstring) : list jsstring :=
  Regex.split (Regex.lits sep) s.

Definition replace (sub repl : jsstring) (s : jsstring) : jsstring :=
  Regex.replace (Regex.lits sub) repl s.

(** [a.join(sep)] *)
Fixpoint join (sep : jsstring) (a : list jsstring) : jsstring :=
  match a with
  | [] => []
  | [x] => x
  | x :: a' => x ++ sep ++ join sep a'
  end.

(** [s.trim()]: WhiteSpace and LineTerminator are removed at both ends. *)
Fixpoint trim_start (s : jsstring) : jsstring :=
  match s with
  | c :: t => if Chars.space c then trim_start t else s
  | [] => []
  end.

Definition trim (s : jsstring) : jsstring :=
  rev (trim_start (rev (trim_start s))).

(** [s.substr(1)] *)
Definition substr1 (s : jsstring) : jsstring := drop 1 s.

(** Errors: [new Error(message)], an error of the system with a [code]
    (such as ENOENT), and the errors the runtime itself throws. *)
Inductive error : Type :=
| Error (message : jsstring)
| SystemError (code : jsstring) (message : jsstring)
| TypeError
| SyntaxError
| URIError.

(** The outcome of a computation that may throw, or of a settled promise. *)
Inductive outcome (A : Type) : Type :=
| Ok (v : A)
| Err (e : error).
Arguments Ok {A} v.
Arguments Err {A} e.

(** A one-shot deferred ([Q.defer()], [new Promise]): the first [resolve]
    or [reject] settles it, every later one does nothing. *)
Inductive deferred (A : Type) : Type :=
| Pending
| Resolved (v : A)
| Rejected (e : error).
Arguments Pending {A}.
Arguments Resolved {A} v.
Arguments Rejected {A} e.

Definition resolve {A} (v : A) (d : deferred A) : deferred A :=
  match d with
  | Pending => Resolved v
  | _ => d
  end.

Definition reject {A} (e : error) (d : deferred A) : deferred A :=
  match d with
  | Pending => Rejected e
  | _ => d
  end.

(** *** [encodeURIComponent] (ES 2015, 18.2.6.1.1 Encode) *)

Definition uriUnescaped : N → bool :=
  Chars.any_of [Chars.range "a" "z"; Chars.range "A" "Z"; Chars.range "0" "9";
                Chars.one_of (js "-_.!~*'()")].

Definition hex_digit (n : N) : N :=
  if n <? 10 then 48 + n else 55 + n.

Definition percent (octet : N) : jsstring :=
  [cu "%"; hex_digit (octet / 16); hex_digit (octet mod 16)].

(** The UTF-8 octets of a code point. *)
Definition utf8 (v : N) : list N :=
  if v <? 128 then [v]
  else if v <? 2048 then [192 + v / 64; 128 + v mod 64]
  else if v <? 65536 then [224 + v / 4096; 128 + (v / 64) mod 64; 128 + v mod 64]
  else [240 + v / 262144; 128 + (v / 4096) mod 64; 128 + (v / 64) mod 64; 128 + v mod 64].

Definition is_lead_surrogate (c : N) : bool := (55296 <=? c) && (c <=? 56319).
Definition is_trail_surrogate (c : N) : bool := (56320 <=? c) && (c <=? 57343).

(** [pending] is a lead surrogate waiting for its trail surrogate. *)
Fixpoint encode (s : jsstring) (pending : option N) : outcome jsstring :=
  match s, pending with
  | [], None => Ok []
  | [], Some _ => Err URIError
  | c :: t, Some hi =>
      if is_trail_surrogate c then
        match encode t None with
        | Ok r => Ok (flat_map percent (utf8 ((hi - 55296) * 1024 + (c - 56320) + 65536)) ++ r)
        | Err e => Err e
        end
      else Err URIError
  | c :: t, None =>
      if uriUnescaped c then
        match encode t None with
        | Ok r => Ok (c :: r)
        | Err e => Err e
        end
      else if is_trail_surrogate c then Err URIError
      else if is_lead_surrogate c then encode t (Some c)
      else
        match encode t None with
        | Ok r => Ok (flat_map percent (utf8 c) ++ r)
        | Err e => Err e
        end
  end.

Definition encodeURIComponent (s : jsstring) : outcome jsstring := encode s None.

(** *** Numbers and strings *)

(** [n.toString()] for a number that is a non-negative integer (below
    10^21, where the exponent notation begins): its decimal digits.
    [fuel] bounds the number of digits. *)
Fixpoint decimal_go (fuel : nat) (n : N) (acc : jsstring) : jsstring :=
  match fuel with
  | O => acc
  | S f =>
      if n <? 10 then (48 + n) :: acc
      else decimal_go f (n / 10) ((48 + n mod 10) :: acc)
  end.

Definition decimal (n : N) : jsstring := decimal_go (S (N.to_nat (N.log2 n))) n [].

(** The Number value of a non-negative integer (ES 2015, 6.1.6): the
    integer itself below 2^53; above, the nearest number with 53
    significant bits, the even one of two that are equally near; [None]
    is [Infinity], which 2^1024 and more are rounded to. *)
Definition to_double (n : N) : option N :=
  if n <? 2 ^ 53 then Some n
  else
    let e := N.size n - 53 in
    let q := N.shiftr n e in
    let r := n mod 2 ^ e in
    let half := 2 ^ (e - 1) in
    let q := if (half <? r) || ((r =? half) && N.odd q) then q + 1 else q in
    let v := N.shiftl q e in
    if v <? 2 ^ 1024 then Some v else None.

(** The result of [parseInt]: [NaN], an infinity, or an integer with its
    sign (so that [-0] is told from [0]). *)
Inductive Parsed : Type :=
| NaN
| Infinity (negative : bool)
| Int (negative : bool) (magnitude : N).

(** The value of the longest prefix of decimal digits, after the digits
    that gave [v]. *)
Fixpoint read_digits (s : jsstring) (v : N) : N :=
  match s with
  | c :: t => if Chars.digit c then read_digits t (v * 10 + (c - 48)) else v
  | [] => v
  end.

(** [parseInt(string, 10)] (ES 2015, 18.2.5): the string conversion of the
    argument, without leading white space; a sign; the digits up to the
    first code unit that is none; the result is the Number value of the
    integer that the digits denote.  (Beyond the 20th significant digit
    the standard lets an implementation read a digit as 0; the rounding
    here is that of the digits as they are, as V8 does it.) *)
Definition parseInt10 (string_ : option jsstring) : Parsed :=
  let inputString := trim_start (String_ string_) in
  let '(negative, digits) :=
    match inputString with
    | c :: t =>
        if c =? cu "-" then (true, t)
        else if c =? cu "+" then (false, t)
        else (false, inputString)
    | [] => (false, [])
    end in
  match digits with
  | c :: _ =>
      if Chars.digit c then
        match to_double (read_digits digits 0) with
        | Some magnitude => Int negative magnitude
        | None => Infinity negative
        end
      else NaN
  | [] => NaN
  end.

End JS.

Import Regex JS.

(** ** [AppLauncher] *)
Module AppLauncher.

Definition DQUOTE : N := 34.

(** *** Static members *)

Definition NO_LIVERELOAD_WARNING : jsstring :=
  js "Warning: Ionic live reload is currently only supported for Ionic 1 projects. Continuing deployment without Ionic live reload...".
Definition SIMULATE_TARGETS : list jsstring :=
  [js "default"; js "chrome"; js "chromium"; js "edge"; js "firefox"; js "ie"; js "opera"; js "safari"].

(** *** Request arguments

    The fields of [ICordovaLaunchRequestArgs] and
    [ICordovaAttachRequestArgs] that the functions below read or write; a
    field that is absent holds [None]. *)
Record RequestArgs : Type := {
  platform : option jsstring;
  target : option jsstring;
  port : option N;
  cwd : option jsstring;
  attachTimeout : option N;
  timeout : option N;
  runArguments : option (list jsstring);
  ionicLiveReload : bool;
  cordovaExecutable : option jsstring;
  url : option jsstring
}.

Definition set_port (v : option N) (a : RequestArgs) : RequestArgs :=
  {| platform := platform a; target := target a; port := v; cwd := cwd a;
     attachTimeout := attachTimeout a; timeout := timeout a;
     runArguments := runArguments a; ionicLiveReload := ionicLiveReload a;
     cordovaExecutable := cordovaExecutable a; url := url a |}.

Definition set_target (v : option jsstring) (a : RequestArgs) : RequestArgs :=
  {| platform := platform a; target := v; port := port a; cwd := cwd a;
     attachTimeout := attachTimeout a; timeout := timeout a;
     runArguments := runArguments a; ionicLiveReload := ionicLiveReload a;
     cordovaExecutable := cordovaExecutable a; url := url a |}.

Definition set_cwd (v : option jsstring) (a : RequestArgs) : RequestArgs :=
  {| platform := platform a; target := target a; port := port a; cwd := v;
     attachTimeout := attachTimeout a; timeout := timeout a;
     runArguments := runArguments a; ionicLiveReload := ionicLiveReload a;
     cordovaExecutable := cordovaExecutable a; url := url a |}.

Definition set_timeout (v : option N) (a : RequestArgs) : RequestArgs :=
  {| platform := platform a; target := target a; port := port a; cwd := cwd a;
     attachTimeout := attachTimeout a; timeout := v;
     runArguments := runArguments a; ionicLiveReload := ionicLiveReload a;
     cordovaExecutable := cordovaExecutable a; url := url a |}.

(** [x || d] on a number and on a string *)
Definition or_num (x : option N) (d : N) : N :=
  match x with
  | Some n => if n =? 0 then d else n
  | None => d
  end.

Definition or_str (x : option jsstring) (d : jsstring) : jsstring :=
  match x with
  | Some (c :: t) => c :: t
  | _ => d
  end.

(** [a && a.length > 0] on an optional array *)
Definition non_empty (a : option (list jsstring)) : bool :=
  match a with
  | Some (_ :: _) => true
  | _ => false
  end.

(** *** [runAdbCommand]

    [process.env] maps names to strings; reading a name that is not set
    gives [undefined], and an assignment stores the string conversion of
    the assigned value (Node.js, [process.env]).  [delimiter] and
    [path_join] are [path.delimiter] and [path.join] of the platform,
    [execCommand] is the command runner of debugger/extension, which
    sees the environment at the time of the call. *)
Definition env_assign (name : jsstring) (v : option jsstring)
    (env : gmap (list N) (list N)) : gmap (list N) (list N) :=
  <[name := String_ v]> env.

Record AdbRun : Type := {
  env_during : gmap (list N) (list N);
  adb_result : outcome jsstring;
  env_after : gmap (list N) (list N)
}.

Definition runAdbCommand
    (delimiter : jsstring) (path_join : jsstring → jsstring → jsstring)
    (execCommand : gmap (list N) (list N) → jsstring → list jsstring → outcome jsstring)
    (args : list jsstring) (env : gmap (list N) (list N)) : AdbRun :=
  let originalPath := env !! js "PATH" in
  let env1 :=
    if truthy (env !! js "ANDROID_HOME") then
      env_assign (js "PATH")
        (Some (String_ (env !! js "PATH") ++ delimiter ++
               path_join (String_ (env !! js "ANDROID_HOME")) (js "platform-tools")))
        env
    else env in
  {| env_during := env1;
     adb_result := execCommand env1 (js "adb") args;
     env_after := env_assign (js "PATH") originalPath env1 |}.

(** *** [launch]: the strategy chosen for a platform and a target *)

Definition isSimulateTarget (target : jsstring) : bool :=
  array_includes target SIMULATE_TARGETS.

Inductive Strategy : Type :=
| LaunchSimulate
| LaunchAndroid
| LaunchIos
| LaunchServe.

(** The first statements of [launch]: the defaults of [port] and
    [target], the project root (which [getCordovaProjectRoot] may not
    find) and the timeout. *)
Definition launch_normalize (getCordovaProjectRoot : option jsstring → option jsstring)
    (launchArgs : RequestArgs) : outcome RequestArgs :=
  let a1 := set_port (Some (or_num (port launchArgs) 9222)) launchArgs in
  let a2 :=
    if truthy (target a1) then a1
    else set_target
           (Some (if bool_decide (platform a1 = Some (js "browser"))
                  then js "chrome" else js "emulator")) a1 in
  let a3 := set_cwd (getCordovaProjectRoot (cwd a2)) a2 in
  match cwd a3 with
  | None =>
      Err (Error (js "Current working directory doesn't contain a Cordova project. Please open a Cordova project as a workspace root and try again."))
  | Some _ => Ok (set_timeout (attachTimeout a3) a3)
  end.

(** The [switch] of [launch] over the lower-cased platform. *)
Definition launch_strategy (launchArgs : RequestArgs) : outcome Strategy :=
  let platform := toLowerCase <$> platform launchArgs in
  let simulate := isSimulateTarget (String_ (target launchArgs)) in
  if bool_decide (platform = Some (js "android")) then
    Ok (if simulate then LaunchSimulate else LaunchAndroid)
  else if bool_decide (platform = Some (js "ios")) then
    Ok (if simulate then LaunchSimulate else LaunchIos)
  else if bool_decide (platform = Some (js "windows")) then
    if simulate then Ok LaunchSimulate
    else Err (Error (js "Debugging " ++ String_ platform ++ js " platform is not supported."))
  else if bool_decide (platform = Some (js "serve")) then Ok LaunchServe
  else if bool_decide (platform ∈ map (Some ∘ js)
            ["amazon_fireos"; "blackberry10"; "firefoxos"; "ubuntu"; "wp8"; "browser"]%string)
  then Ok LaunchSimulate
  else Err (Error (js "Unknown Platform: " ++ String_ platform)).

(** *** [launchAndroid]

    What [launchAndroid] goes on to do with the arguments it has built:
    it hands them to [startIonicDevServer] or runs the Cordova command. *)
Inductive LaunchAction : Type :=
| StartIonicDevServer (cliArgs : list jsstring)
| CordovaRunCommand (command : jsstring) (args : list jsstring).

Section LaunchAndroid.
Context {IProjectType : Type}.
(** [CordovaProjectHelper.isIonicAngularProjectByProjectType] and
    [CordovaProjectHelper.getCliCommand] *)
Variable isIonicAngularProjectByProjectType : IProjectType → bool.
Variable getCliCommand : option jsstring → jsstring.

(** The result holds the action and the lines written to the logger;
    a request without [target] makes [toLowerCase] throw. *)
Definition launchAndroid (launchArgs : RequestArgs) (projectType : IProjectType)
    (runArguments_ : option (list jsstring)) : outcome (LaunchAction * list jsstring) :=
  match target launchArgs with
  | None => Err TypeError
  | Some target_ =>
      let workingDirectory := cwd launchArgs in
      let isDevice := bool_decide (toLowerCase target_ = js "device") in
      let args := [js "run"; js "android"] in
      let '(args, logged) :=
        if non_empty (runArguments launchArgs) then
          (args ++ default [] (runArguments launchArgs), [])
        else if non_empty runArguments_ then
          (args ++ default [] runArguments_, [])
        else
          let args := args ++ [if isDevice then js "--device" else js "--emulator"; js "--verbose"] in
          let args :=
            if bool_decide (array_indexOf (toLowerCase target_) [js "device"; js "emulator"] = None)
            then args ++ [js "--target=" ++ target_]
            else args in
          if ionicLiveReload launchArgs then
            if isIonicAngularProjectByProjectType projectType
            then (args ++ [js "--livereload"], [])
            else (args, [NO_LIVERELOAD_WARNING])
          else (args, []) in
      if array_includes (js "--livereload") args then
        Ok (StartIonicDevServer args, logged)
      else
        let command :=
          if truthy (cordovaExecutable launchArgs)
          then String_ (cordovaExecutable launchArgs)
          else getCliCommand workingDirectory in
        Ok (CordovaRunCommand command args, logged)
  end.
End LaunchAndroid.

(** *** [attach]

    [attach] builds the promise it returns around a chain of Q promises.
    The collaborators of the chain are given by their outcomes:
    [createServer] of the CDP proxy, [determineProjectTypes] of the
    telemetry helper, and the two endpoint resolvers [attachAndroid] and
    [attachIos] of this class. *)
Inductive AttachCall : Type :=
| NewCordovaCDPProxy
| SetApplicationTargetPort (port : option N)
| CreateServer
| DetermineProjectTypes
| Log (message : jsstring)
| AttachAndroid
| AttachIos.

Record AttachRun : Type := {
  (** the calls made, in order *)
  calls : list AttachCall;
  (** what the chain inside [TelemetryHelper.generate] settles with *)
  chain : outcome RequestArgs;
  (** the promise that [attach] returns *)
  promise : deferred RequestArgs
}.

Section Attach.
Variable getCordovaProjectRoot : option jsstring → option jsstring.
Variable createServer : outcome unit.
Variable determineProjectTypes : outcome unit.
Variable attachAndroid : RequestArgs → outcome RequestArgs.
Variable attachIos : RequestArgs → outcome RequestArgs.

(** The assignments at the head of the callback. *)
Definition attach_normalize (attachArgs : RequestArgs) : RequestArgs :=
  let a1 := set_port (Some (or_num (port attachArgs) 9222)) attachArgs in
  let a2 := set_target (Some (or_str (target a1) (js "emulator"))) a1 in
  let a3 := set_cwd (getCordovaProjectRoot (cwd a2)) a2 in
  set_timeout (attachTimeout a3) a3.

Definition attach_chain (attachArgs : RequestArgs) : list AttachCall * outcome RequestArgs :=
  let attachArgs := attach_normalize attachArgs in
  let platform := toLowerCase <$> platform attachArgs in
  let target := toLowerCase <$> target attachArgs in
  let calls := [NewCordovaCDPProxy; SetApplicationTargetPort (port attachArgs); CreateServer] in
  match createServer with
  | Err e => (calls, Err e)
  | Ok _ =>
      let calls := calls ++ [DetermineProjectTypes] in
      match determineProjectTypes with
      | Err e => (calls, Err e)
      | Ok _ =>
          if bool_decide (target = Some (js "device")) || bool_decide (target = Some (js "emulator")) then
            let calls := calls ++ [Log (js "Attaching to " ++ String_ platform)] in
            if bool_decide (platform = Some (js "android")) then
              (calls ++ [AttachAndroid], attachAndroid attachArgs)
            else if bool_decide (platform = Some (js "ios")) then
              (calls ++ [AttachIos], attachIos attachArgs)
            else (calls, Err (Error (js "Unknown Platform: " ++ String_ platform)))
          else (calls, Ok attachArgs)
      end
  end.

(** The chain ends in [.catch((err) => { reject(err); })] and
    [.done(() => resolve, reject)]: a rejection of the chain rejects the
    returned promise; on fulfilment the callback [() => resolve] is
    called, which returns the function [resolve] and does not call
    it. *)
Definition attach (attachArgs : RequestArgs) : AttachRun :=
  let '(calls, chain) := attach_chain attachArgs in
  {| calls := calls;
     chain := chain;
     promise :=
       match chain with
       | Err e => reject e Pending
       | Ok _ => Pending
       end |}.
End Attach.

(** *** [attachAndroid]: the target device *)

Definition deviceFilter (line : jsstring) : bool :=
  test (cat [plus (Chr Chars.word); Chr (Chars.only TAB); lit "device"]) line
  && negb (test (lit "emulator") line).

Definition emulatorFilter (line : jsstring) : bool :=
  test (lit "device") line && test (lit "emulator") line.

(** The filter that the target selects.  [RegExpCreate] is the
    constructor that [line.match(attachArgs.target)] applies to a target
    that is neither "device" nor "emulator"; it throws a SyntaxError
    ([None]) on a string that is not a pattern. *)
Definition targetFilter (RegExpCreate : jsstring → option re)
    (target_ : jsstring) : option (jsstring → bool) :=
  if bool_decide (toLowerCase target_ = js "device") then Some deviceFilter
  else if bool_decide (toLowerCase target_ = js "emulator") then Some emulatorFilter
  else (fun r line => test r line) <$> RegExpCreate target_.

(** The line without its first TAB "device" and without its first CR. *)
Definition cleanDeviceLine (line : jsstring) : jsstring :=
  JS.replace [CR] [] (Regex.replace (cat [Chr (Chars.only TAB); lit "device"]) [] line).

(** The callback on the output of [adb devices]: the first line that
    passes the filter, cleaned; an [undefined] or empty result is the
    error. *)
Definition selectTargetDevice (RegExpCreate : jsstring → option re)
    (target_ : jsstring) (devicesOutput : jsstring) : outcome jsstring :=
  match targetFilter RegExpCreate target_ with
  | None => Err SyntaxError
  | Some targetFilter =>
      let result :=
        head (map cleanDeviceLine
                  (filter (fun line => targetFilter line = true) (JS.split [LF] devicesOutput))) in
      if truthy result then Ok (String_ result)
      else Err (Error (js "Unable to find target " ++ target_))
  end.

(** The rejection handler of the same [then]. *)
Definition adbDevicesFailed (err : error) : error :=
  match err with
  | SystemError code _ =>
      if str_eqb code (js "ENOENT")
      then Error (js "Unable to find adb. Please ensure it is in your PATH and re-open Visual Studio Code")
      else err
  | _ => err
  end.

Definition adbDevicesResult (RegExpCreate : jsstring → option re)
    (target_ : jsstring) (devices : outcome jsstring) : outcome jsstring :=
  match devices with
  | Ok devicesOutput => selectTargetDevice RegExpCreate target_ devicesOutput
  | Err err => Err (adbDevicesFailed err)
  end.

(** *** [attachAndroid]: the abstract socket in /proc/net/unix *)

Definition fieldSplitter : re := plus (Chr (Chars.any_of [Chars.space; Chars.only CR])).

(** What one pass through the body of the [for] loop does. *)
Inductive Verdict : Type :=
| Continue
| Return (abstractName : jsstring)
| Throw (e : error).

Definition socketRow (flagsIdx stIdx pathIdx : option nat)
    (pid appPackageName : option jsstring) (line : jsstring) : Verdict :=
  let fields := Regex.split fieldSplitter line in
  if (length fields <? 8)%nat then Continue
  else if negb (bool_decide (at_index fields flagsIdx = Some (js "00010000")))
          || negb (bool_decide (at_index fields stIdx = Some (js "01")))
  then Continue
  else
    match at_index fields pathIdx with
    | None => Throw TypeError
    | Some pathField =>
        if (length pathField <? 1)%nat || negb (bool_decide (head pathField = Some (cu "@")))
        then Continue
        else if bool_decide (indexOf (js "_devtools_remote") pathField = None) then Continue
        else if str_eqb pathField (js "@webview_devtools_remote_" ++ String_ pid)
        then Return (substr1 pathField)
        else if str_eqb pathField (js "@" ++ String_ appPackageName ++ js "_devtools_remote")
        then Return (substr1 pathField)
        else Continue
    end.

(** The loop: the first row that returns or throws decides; [Ok None] is
    the [undefined] the function returns when the loop runs out. *)
Fixpoint socketLoop (flagsIdx stIdx pathIdx : option nat)
    (pid appPackageName : option jsstring) (lines : list jsstring) : outcome (option jsstring) :=
  match lines with
  | [] => Ok None
  | line :: lines' =>
      match socketRow flagsIdx stIdx pathIdx pid appPackageName line with
      | Continue => socketLoop flagsIdx stIdx pathIdx pid appPackageName lines'
      | Return name => Ok (Some name)
      | Throw e => Err e
      end
  end.

(** The callback on the output of [cat /proc/net/unix]. *)
Definition findAbstractName (pid appPackageName : option jsstring)
    (getSocketsResult : jsstring) : outcome (option jsstring) :=
  match JS.split [LF] getSocketsResult with
  | [] => Err TypeError
  | header :: lines =>
      let keys := Regex.split fieldSplitter header in
      socketLoop (array_indexOf (js "Flags") keys) (array_indexOf (js "St") keys)
                 (array_indexOf (js "Path") keys) pid appPackageName lines
  end.

(** *** [checkIfTargetIsiOSSimulator]

    [listOutput] is the outcome of the command [emulate ios --list]: its
    standard output, or the error it fails with. *)
Definition invalidTargetMessage : jsstring :=
  js "Invalid target. Please, check target parameter value in your debug configuration and make sure it's a valid iPhone device identifier. Proceed to https://aka.ms/AA3xq86 for more information.".

(** The callback that cleans up a line of the list: the first match of the
    pattern (the longest run of characters that a comma follows), without
    its first tab, or [null] ([None]). *)
Definition emulatorOfLine (value : jsstring) : option jsstring :=
  match match_all (cat [Grp 1 (star dot); Ahead (lit ",")]) value with
  | [] => None
  | m :: _ => Some (Regex.replace (Chr (Chars.only TAB)) [] (matched m))
  end.

(** The identifiers read from the list. *)
Definition listedEmulators (stdout : jsstring) : list (option jsstring) :=
  let stdout := Regex.replace (lit "Available iOS Simulators:") [] stdout in
  map emulatorOfLine (JS.split [LF] stdout).

Definition checkIfTargetIsiOSSimulator (target_ : jsstring)
    (listOutput : outcome jsstring) : outcome unit :=
  if str_eqb target_ (js "emulator") then Err (Error invalidTargetMessage)
  else
    match listOutput with
    | Err e => Err e
    | Ok stdout =>
        if bool_decide (Some target_ ∈ listedEmulators stdout)
        then Err (Error invalidTargetMessage)
        else Ok tt
    end.

(** The target that [attachIos] and the simulator branch of [launchIos]
    pass to the check. *)
Definition iosTarget (target_ : jsstring) : jsstring :=
  if str_eqb (toLowerCase target_) (js "emulator") then js "emulator" else target_.

(** *** [retryAsync] *)

(** What a run of the retry does, in order: a call of the probe, or a
    wait of so many milliseconds. *)
Inductive RetryEvent : Type :=
| Probe
| Wait (ms : N).

(** Modelled from the spec: the loop of [retryAsync] of
    utils/extensionHelper, which is not among the sources; it is the
    RetryRunner of section 4.1.  [attempts] calls are left, the next one is
    call number [i], and [wait] is the wait that follows it. *)
Fixpoint retry_loop {T : Type} (probe : nat → outcome T) (accept : T → bool)
    (attempts i : nat) (wait delayMs : N) (failureMessage : jsstring)
    : outcome T * list RetryEvent :=
  match attempts with
  | O => (Err (Error failureMessage), [])
  | S n =>
      let again :=
        match n with
        | O => (Err (Error failureMessage), [Probe])
        | S _ =>
            let '(r, events) := retry_loop probe accept n (S i) delayMs delayMs failureMessage in
            (r, Probe :: Wait wait :: events)
        end in
      match probe i with
      | Ok v => if accept v then (Ok v, [Probe]) else again
      | Err _ => again
      end
  end.

(** Modelled from the spec: [retryAsync] of utils/extensionHelper, which is
    not among the sources; it is the RetryRunner of section 4.1.  It calls
    the probe; when the probe rejects or its result is not accepted it
    waits ([initialDelayMs] the first time, [delayMs] afterwards) and calls
    it again, up to [maxAttempts] calls in all, and then fails with the
    failure message.  [probe i] is the outcome of call number [i]. *)
Definition retryAsync {T : Type} (probe : nat → outcome T) (accept : T → bool)
    (maxAttempts : nat) (initialDelayMs delayMs : N) (failureMessage : jsstring)
    : outcome T * list RetryEvent :=
  retry_loop probe accept maxAttempts 0 initialDelayMs delayMs failureMessage.

(** *** [attachIos]: [findWebViews]

    An entry of the list that the inspector port answers with: the spec
    gives it the string fields [url] and [deviceId].  [JSON_parse] is
    [JSON.parse] for such a list; it throws on anything else. *)
Record Webview : Type := {
  wv_url : jsstring;
  wv_deviceId : jsstring
}.

Record FoundWebViews : Type := {
  relevantViews : list Webview;
  targetPort : N
}.

Definition webviewFallbackWarning : jsstring :=
  js "Unable to find target app webview, trying to fallback to the only running webview".

(** The filter callback; without dev server URLs it encodes the package
    path, which throws on a lone surrogate. *)
Definition isTargetWebview (ionicDevServerUrls : option (list jsstring))
    (packagePath : jsstring) (entry : Webview) : outcome bool :=
  match ionicDevServerUrls with
  | Some urls => Ok (existsb (fun url_ => indexOf_is_0 url_ (wv_url entry)) urls)
  | None =>
      match encodeURIComponent packagePath with
      | Ok encoded => Ok (includes encoded (wv_url entry))
      | Err e => Err e
      end
  end.

Fixpoint filterWebviews (ionicDevServerUrls : option (list jsstring))
    (packagePath : jsstring) (webviewsList : list Webview) : outcome (list Webview) :=
  match webviewsList with
  | [] => Ok []
  | entry :: l =>
      match isTargetWebview ionicDevServerUrls packagePath entry with
      | Err e => Err e
      | Ok keep =>
          match filterWebviews ionicDevServerUrls packagePath l with
          | Err e => Err e
          | Ok found => Ok (if keep then entry :: found else found)
          end
      end
  end.

(** One call of the probe that [findWebViews] retries: the outcome and
    the lines written to the logger.  Whatever is thrown inside the [try]
    is replaced by the error "Unable to find target app". *)
Definition findWebViewsProbe (JSON_parse : jsstring → outcome (list Webview))
    (ionicDevServerUrls : option (list jsstring)) (packagePath : jsstring) (targetPort_ : N)
    (response : outcome jsstring) : outcome FoundWebViews * list jsstring :=
  match response with
  | Err e => (Err e, [])
  | Ok response =>
      let notFound := (Err (Error (js "Unable to find target app")), []) in
      match JSON_parse response with
      | Err _ => notFound
      | Ok webviewsList =>
          match filterWebviews ionicDevServerUrls packagePath webviewsList with
          | Err _ => notFound
          | Ok foundWebViews =>
              if Nat.eqb (length foundWebViews) 0 && Nat.eqb (length webviewsList) 1 then
                (Ok {| relevantViews := webviewsList; targetPort := targetPort_ |},
                 [webviewFallbackWarning])
              else if Nat.eqb (length foundWebViews) 0 then notFound
              else (Ok {| relevantViews := foundWebViews; targetPort := targetPort_ |}, [])
          end
      end
  end.

(** [findWebViews]: the probe under
    [retryAsync(func, condition, 5, 1, attachArgs.attachDelay, "Unable to find webview")];
    [responses i] is what the GET of call number [i] gives. *)
Definition findWebViews (JSON_parse : jsstring → outcome (list Webview))
    (ionicDevServerUrls : option (list jsstring)) (attachDelay : N)
    (packagePath : jsstring) (targetPort_ : N) (responses : nat → outcome jsstring)
    : outcome FoundWebViews * list RetryEvent :=
  retryAsync
    (fun i => fst (findWebViewsProbe JSON_parse ionicDevServerUrls packagePath targetPort_ (responses i)))
    (fun result => (0 <? length (relevantViews result))%nat)
    5 1 attachDelay (js "Unable to find webview").

(** *** [startIonicDevServer]: the readiness detector

    The patterns of the function.  [EOL] is [os.EOL]; [isIonic4] is the
    result of [CordovaProjectHelper.isIonicCliVersionGte(cwd, "4.0.0")];
    [cliArgs] is the argument list the process was started with. *)

Definition errorRegex : re := cat [liti "error:"; star dot].

Definition ansiRegex : re :=
  cat [ Chr (Chars.one_of [ESC; CSI]);
        star (Chr (Chars.one_of (js "[()#;?")));
        opt (cat [ Rep 1 (Some 4%nat) (Chr (Chars.range "0" "9"));
                   star (cat [ Chr (Chars.only (cu ";"));
                               Rep 0 (Some 4%nat) (Chr (Chars.range "0" "9")) ]) ]);
        Chr (Chars.any_of [ Chars.range "0" "9"; Chars.range "A" "O";
                            Chars.one_of (js "RZc"); Chars.range "f" "n";
                            Chars.one_of (js "qry=><") ]) ].

Definition SERVER_URL_RE : re :=
  cat [ Grp 1 (alt [liti "dev server running"; liti "Running dev server"; liti "Local"]);
        liti ":";
        star dot;
        Grp 2 (cat [liti "http://"; dot; star (Chr (Chars.none_of [Chars.space]))]) ].

Definition externalUrlsRegex : re :=
  cat [liti "External:"; Chr Chars.space; Grp 1 (star dot); Eol true].

Definition multipleInterfacesRegex : re := lit "Multiple network interfaces detected".

Definition addressRegex : re :=
  Grp 1 (cat [plus (Chr Chars.digit); lit ") "; star dot]).

Definition iosDeviceAppReadyRegex : re :=
  alt [ liti "created bundle at path";
        cat [ liti "(lldb)"; plus (Chr (Chars.none_of [Chars.word])); liti "run";
              opt (Chr (Chars.only CR)); Chr (Chars.only LF); liti "success" ] ].
Definition iosSimulatorAppReadyRegex : re := liti "build succeeded".
Definition appReadyRegex : re := alt [liti "launch success"; liti "run successful"].

Definition getServerErrorMessage (EOL : jsstring) (isIonic4 : bool)
    (channel : jsstring) : option jsstring :=
  if isIonic4 && test (lit "utils-network error while checking") channel then None
  else
    match exec errorRegex channel with
    | Some errorMatch => Some (js "Error in the Ionic live reload server:" ++ EOL ++ matched errorMatch)
    | None => None
    end.

Definition getRegexToResolveAppDefer (cliArgs : list jsstring) : re :=
  let isIosDevice := array_includes (js "ios") cliArgs && array_includes (js "--device") cliArgs in
  let isIosSimulator := array_includes (js "ios") cliArgs && array_includes (js "emulate") cliArgs in
  if isIosDevice then iosDeviceAppReadyRegex
  else if isIosSimulator then iosSimulatorAppReadyRegex
  else appReadyRegex.

Definition isServe (cliArgs : list jsstring) : bool :=
  bool_decide (head cliArgs = Some (js "serve")).

(** The variables that the handlers share, and the lines sent to the
    logger.  [serverDeferred] is a [Q.defer<void>()]: it is resolved with
    [undefined] ([None]). *)
Record ServerSession : Type := {
  serverOut : jsstring;
  serverErr : jsstring;
  serverReady : bool;
  appReady : bool;
  serverDeferred : deferred (option jsstring);
  appDeferred : deferred (list jsstring);
  logged : list jsstring
}.

Definition newSession : ServerSession :=
  {| serverOut := []; serverErr := []; serverReady := false; appReady := false;
     serverDeferred := Pending; appDeferred := Pending; logged := [] |}.

(** How a handler ends: it returns, or an exception leaves it. *)
Inductive Completion : Type :=
| Normal
| Thrown (e : error).

(** A capture that takes part in every match of its pattern. *)
Definition capture (n : nat) (m : result) : jsstring := default [] (group n m).

(** The URLs that [appDeferred] is resolved with. *)
Definition serverUrls (localServerMatchResult : result) (out : jsstring) : list jsstring :=
  capture 2 localServerMatchResult ::
  match exec externalUrlsRegex out with
  | Some externalUrls => map trim (JS.split (js ", ") (capture 1 externalUrls))
  | None => []
  end.

Definition multipleInterfacesAdvice : jsstring :=
  js "Your machine has multiple network addresses. Please specify which one your device or emulator will use to communicate with the dev server by adding a "
  ++ [DQUOTE] ++ js "devServerAddress" ++ [DQUOTE] ++ js ": " ++ [DQUOTE] ++ js "ADDRESS" ++ [DQUOTE]
  ++ js " property to .vscode/launch.json." ++ [LF]
  ++ js "To get the list of addresses run " ++ [DQUOTE] ++ js "ionic cordova run PLATFORM --livereload" ++ [DQUOTE]
  ++ js " (where PLATFORM is platform name to run) and wait until prompt with this list is appeared.".

(** The candidate addresses: every match of [addressRegex] in the output. *)
Definition candidateAddresses (out : jsstring) : list jsstring :=
  map (capture 1) (match_all addressRegex out).

Definition multipleInterfacesMessage (EOL : jsstring) (out : jsstring) : jsstring :=
  let errorMessage := multipleInterfacesAdvice in
  let addresses := candidateAddresses out in
  if (0 <? length addresses)%nat
  then errorMessage ++ join (EOL ++ js " ") (js " Available addresses:" :: addresses)
  else errorMessage.

(** [serverOut += data.toString(); this.logger.log(data.toString())] *)
Definition appendOutput (s : ServerSession) (data : jsstring) : ServerSession :=
  {| serverOut := serverOut s ++ data; serverErr := serverErr s;
     serverReady := serverReady s; appReady := appReady s;
     serverDeferred := serverDeferred s; appDeferred := appDeferred s;
     logged := logged s ++ [data] |}.

(** [if (!serverReady && localServerMatchResult)
       { serverReady = true; serverDeferred.resolve(void 0); }] *)
Definition announceServer (localServerMatchResult : option result)
    (s : ServerSession) : ServerSession :=
  if negb (serverReady s) && bool_decide (is_Some localServerMatchResult) then
    {| serverOut := serverOut s; serverErr := serverErr s;
       serverReady := true; appReady := appReady s;
       serverDeferred := resolve None (serverDeferred s); appDeferred := appDeferred s;
       logged := logged s |}
  else s.

(** [if (serverReady && !appReady) { ... if (isServe || regex.test(serverOut))
       { appReady = true; ... appDeferred.resolve(serverUrls); } }]:
    with [appReady] already set, [localServerMatchResult[2]] throws when
    there is no match. *)
Definition announceApp (cliArgs : list jsstring) (localServerMatchResult : option result)
    (s : ServerSession) : ServerSession * Completion :=
  if serverReady s && negb (appReady s)
     && (isServe cliArgs || test (getRegexToResolveAppDefer cliArgs) (serverOut s))
  then
    ({| serverOut := serverOut s; serverErr := serverErr s;
        serverReady := serverReady s; appReady := true;
        serverDeferred := serverDeferred s;
        appDeferred :=
          match localServerMatchResult with
          | Some m => resolve (serverUrls m (serverOut s)) (appDeferred s)
          | None => appDeferred s
          end;
        logged := logged s |},
     match localServerMatchResult with
     | Some _ => Normal
     | None => Thrown TypeError
     end)
  else (s, Normal).

(** [if (/Multiple network interfaces detected/.test(serverOut))
       { ... serverDeferred.reject(new Error(errorMessage)); }] *)
Definition rejectOnMultipleInterfaces (EOL : jsstring) (s : ServerSession) : ServerSession :=
  if test multipleInterfacesRegex (serverOut s) then
    {| serverOut := serverOut s; serverErr := serverErr s;
       serverReady := serverReady s; appReady := appReady s;
       serverDeferred :=
         reject (Error (multipleInterfacesMessage EOL (serverOut s))) (serverDeferred s);
       appDeferred := appDeferred s;
       logged := logged s |}
  else s.

(** [let errorMsg = getServerErrorMessage(channel);
     if (errorMsg) { appDeferred.reject(new Error(errorMsg)); }] *)
Definition rejectOnError (EOL : jsstring) (isIonic4 : bool) (channel : jsstring)
    (s : ServerSession) : ServerSession :=
  match getServerErrorMessage EOL isIonic4 channel with
  | Some errorMsg =>
      {| serverOut := serverOut s; serverErr := serverErr s;
         serverReady := serverReady s; appReady := appReady s;
         serverDeferred := serverDeferred s;
         appDeferred := reject (Error errorMsg) (appDeferred s);
         logged := logged s |}
  | None => s
  end.

(** The listener of standard output: its statements in their order; an
    exception ends it. *)
Definition serverOutputHandler (EOL : jsstring) (isIonic4 : bool) (cliArgs : list jsstring)
    (s : ServerSession) (data : jsstring) : ServerSession * Completion :=
  let s := appendOutput s data in
  let localServerMatchResult := exec SERVER_URL_RE (serverOut s) in
  let s := announceServer localServerMatchResult s in
  match announceApp cliArgs localServerMatchResult s with
  | (s, Thrown e) => (s, Thrown e)
  | (s, Normal) =>
      let s := rejectOnMultipleInterfaces EOL s in
      (rejectOnError EOL isIonic4 (serverOut s) s, Normal)
  end.

Definition serverErrorOutputHandler (EOL : jsstring) (isIonic4 : bool)
    (s : ServerSession) (data : jsstring) : ServerSession :=
  let s :=
    {| serverOut := serverOut s; serverErr := serverErr s ++ data;
       serverReady := serverReady s; appReady := appReady s;
       serverDeferred := serverDeferred s; appDeferred := appDeferred s;
       logged := logged s |} in
  rejectOnError EOL isIonic4 (serverErr s) s.

(** The data events of the child process and their listeners. *)
Inductive ProcessEvent : Type :=
| Stdout (data : jsstring)
| Stderr (data : jsstring).

Definition onEvent (EOL : jsstring) (isIonic4 : bool) (cliArgs : list jsstring)
    (s : ServerSession) (ev : ProcessEvent) : ServerSession :=
  match ev with
  | Stdout data => fst (serverOutputHandler EOL isIonic4 cliArgs s data)
  | Stderr data =>
      if isIonic4 then
        match serverOutputHandler EOL isIonic4 cliArgs s data with
        | (s', Normal) => serverErrorOutputHandler EOL isIonic4 s' data
        | (s', Thrown _) => s'
        end
      else serverErrorOutputHandler EOL isIonic4 s data
  end.

Definition onEvents (EOL : jsstring) (isIonic4 : bool) (cliArgs : list jsstring)
    (s : ServerSession) (evs : list ProcessEvent) : ServerSession :=
  fold_left (onEvent EOL isIonic4 cliArgs) evs s.

(** The session after the standard output chunks [chunks]. *)
Definition onStdout (EOL : jsstring) (isIonic4 : bool) (cliArgs : list jsstring)
    (chunks : list jsstring) : ServerSession :=
  onEvents EOL isIonic4 cliArgs newSession (map Stdout chunks).

(** The global replacement of [ansiRegex] by the empty string. *)
Definition stripAnsi (url_ : jsstring) : jsstring := replace_all ansiRegex [] url_.

(** *** [startIonicDevServer]: the promise it returns

    [p.timeout(ms, message)] of Q: a promise that follows [p], unless the
    [ms] milliseconds pass while [p] is pending; then it is rejected with
    an error of that message, whose [code] is ETIMEDOUT, and what becomes
    of [p] later changes nothing.  The clock is no part of the model:
    [expired] says whether the time of the wait has run out while [p] was
    pending. *)
Definition Q_timeout {A : Type} (expired : bool) (message : jsstring) (p : deferred A)
    : deferred A :=
  if expired then Rejected (SystemError (js "ETIMEDOUT") message) else p.

(** [launchArgs.devServerTimeout || 30000] and
    [launchArgs.devServerTimeout || 120000], in milliseconds, and the
    messages of the two waits. *)
Definition serverReadyTimeout (devServerTimeout : option N) : N :=
  or_num devServerTimeout 30000.
Definition appReadyTimeout (devServerTimeout : option N) : N :=
  or_num devServerTimeout 120000.

Definition serverReadyTimedOut (devServerTimeout : option N) : jsstring :=
  js "Starting the Ionic dev server timed out ("
  ++ decimal (serverReadyTimeout devServerTimeout) ++ js " ms)".
Definition appReadyTimedOut (devServerTimeout : option N) : jsstring :=
  js "Building and deploying the app timed out ("
  ++ decimal (appReadyTimeout devServerTimeout) ++ js " ms)".

(** The promise that [startIonicDevServer] returns:
    [serverDeferred.promise.timeout(serverReadyTimeout, ...)], then
    [appDeferred.promise.timeout(appReadyTimeout, ...)], whose time begins
    when the first wait is over, then the URLs without their escape
    sequences.  [serverReadyExpired] and [appReadyExpired] say whether the
    time of the first and of the second wait has run out. *)
Definition ionicDevServerUrls (devServerTimeout : option N)
    (serverReadyExpired appReadyExpired : bool) (s : ServerSession)
    : deferred (list jsstring) :=
  match Q_timeout serverReadyExpired (serverReadyTimedOut devServerTimeout)
          (serverDeferred s) with
  | Pending => Pending
  | Rejected e => Rejected e
  | Resolved _ =>
      match Q_timeout appReadyExpired (appReadyTimedOut devServerTimeout)
              (appDeferred s) with
      | Pending => Pending
      | Rejected e => Rejected e
      | Resolved [] =>
          Rejected (Error (js "Unable to determine the Ionic dev server address, please try re-launching the debugger"))
      | Resolved urls => Resolved (map stripAnsi urls)
      end
  end.

(** *** [getTargetType]: the target type for the telemetry *)

Inductive TargetType : Type :=
| Emulator
| Device
| Chrome.

Definition getTargetType (target_ : jsstring) : TargetType :=
  if test (liti "emulator") target_ then Emulator
  else if test (liti "chrom") target_ then Chrome
  else Device.

(** *** [launchAndroid]: the verdict on the run command

    The handlers that [launchAndroid] puts on the promise of
    [cordovaRunCommand]: [output] holds the standard output and the
    standard error of the command; a command that fails is passed on.  The
    result is the line sent to the logger. *)
Definition androidRunVerdict (output : jsstring * jsstring) : outcome jsstring :=
  let runOutput := fst output in
  let stderr := snd output in
  let errorMatch :=
    test (Grp 1 (cat [lit "ERROR"; star dot])) runOutput
    || test (cat [liti "error:"; star dot]) stderr in
  if errorMatch then Err (Error (js "Error running android"))
  else Ok (js "App successfully launched").

Definition cordovaResult (run : outcome (jsstring * jsstring)) : outcome jsstring :=
  match run with
  | Ok output => androidRunVerdict output
  | Err e => Err e
  end.

(** *** [attachAndroid]: the process id of the app *)

Definition pidofNotFoundError : jsstring := js "/system/bin/sh: pidof: not found".

Definition PS_FIELDS_SPLITTER_RE : re :=
  cat [ plus (Chr Chars.space);
        opt (cat [Chr (Chars.one_of (js "RSIDZTW<NL")); plus (Chr Chars.space)]) ].

(** The handler on the output of [pidof]. *)
Definition pidOfOutput (pid : jsstring) : outcome jsstring :=
  if truthy (Some pid)
     && test (cat [Bol false; plus (Chr Chars.digit); Eol false]) (trim pid)
  then Ok (trim pid)
  else Err (Error pidofNotFoundError).

(** [err.message !== AppLauncher.pidofNotFoundError], negated; the errors
    that the runtime itself throws have messages of their own. *)
Definition isPidofNotFound (err : error) : bool :=
  match err with
  | Error m | SystemError _ m => str_eqb m pidofNotFoundError
  | _ => false
  end.

(** The fields of a line of [ps]. *)
Definition psFields (line : jsstring) : list jsstring :=
  List.filter (fun field => truthy (Some field))
              (Regex.split PS_FIELDS_SPLITTER_RE (trim line)).

(** The loop over the lines of [ps]: [None] is the [undefined] that the
    function returns when the loop runs out, or that [fields[pidIdx]]
    is. *)
Fixpoint psLoop (nameIdx pidIdx : option nat) (appPackageName : option jsstring)
    (lines : list jsstring) : option jsstring :=
  match lines with
  | [] => None
  | line :: lines' =>
      let fields := psFields line in
      if match nameIdx with
         | Some n => (length fields <? n)%nat
         | None => false
         end
      then psLoop nameIdx pidIdx appPackageName lines'
      else if bool_decide (at_index fields nameIdx = appPackageName)
      then at_index fields pidIdx
      else psLoop nameIdx pidIdx appPackageName lines'
  end.

(** The handler on the output of [ps]. *)
Definition pidFromPs (appPackageName : option jsstring) (psResult : jsstring)
    : outcome (option jsstring) :=
  match JS.split [LF] psResult with
  | [] => Err TypeError
  | header :: lines =>
      let keys := Regex.split PS_FIELDS_SPLITTER_RE header in
      Ok (psLoop (array_indexOf (js "NAME") keys) (array_indexOf (js "PID") keys)
                 appPackageName lines)
  end.

(** The first two links of [findAbstractNameFunction]: [pidof] is the
    outcome of the command [pidof], [ps] the outcome of the command [ps],
    which is run only when the first one ends with the error
    [pidofNotFoundError]; every other error is dropped, and the process
    id is [undefined]. *)
Definition findPid (appPackageName : option jsstring) (pidof ps : outcome jsstring)
    : outcome (option jsstring) :=
  match match pidof with
        | Ok pid => pidOfOutput pid
        | Err e => Err e
        end with
  | Ok pid => Ok (Some pid)
  | Err err =>
      if negb (isPidofNotFound err) then Ok None
      else
        match ps with
        | Ok psResult => pidFromPs appPackageName psResult
        | Err e => Err e
        end
  end.

(** *** [launchIos]

    What [launchIos] goes on to do with the arguments it has built:
    [startIonicDevServer], the Cordova command followed by the debug proxy
    on the given port, or the Cordova command alone. *)
Inductive IosAction : Type :=
| IosDevServer (cliArgs : list jsstring)
| IosRunOnDevice (command : jsstring) (args : list jsstring) (iosDebugProxyPort : N)
| IosEmulate (command : jsstring) (args : list jsstring).

(** How [launchIos] ends: with a promise rejected with a string, with an
    error, thrown or a rejection, or with an action. *)
Inductive IosLaunch : Type :=
| IosRejected (reason : jsstring)
| IosFailed (e : error)
| IosStarted (action : IosAction).

Definition BUILD_FLAG : jsstring := js "--buildFlag=-UseModernBuildSystem=0".

Section LaunchIos.
Context {IProjectType : Type}.
Variable isIonicAngularProjectByProjectType : IProjectType → bool.
Variable getCliCommand : option jsstring → jsstring.
(** [os.platform()], and the outcome of the command [emulate ios --list]
    that the check of the target runs *)
Variable os_platform : jsstring.
Variable listOutput : outcome jsstring.

(** The field [iosDebugProxyPort] of the request is given beside it.  The
    result holds the lines written to the logger. *)
Definition launchIos (launchArgs : RequestArgs) (iosDebugProxyPort : option N)
    (projectType : IProjectType) (runArguments_ : option (list jsstring))
    : IosLaunch * list jsstring :=
  if negb (str_eqb os_platform (js "darwin")) then
    (IosRejected (js "Unable to launch iOS on non-mac machines"), [])
  else
    let workingDirectory := cwd launchArgs in
    let logged := [js "Launching app (This may take a while)..."] in
    let iosDebugProxyPort := or_num iosDebugProxyPort 9221 in
    let command :=
      if truthy (cordovaExecutable launchArgs)
      then String_ (cordovaExecutable launchArgs)
      else getCliCommand workingDirectory in
    match target launchArgs with
    | None => (IosFailed TypeError, logged)
    | Some target_ =>
        if str_eqb (toLowerCase target_) (js "device") then
          let args := [js "run"; js "ios"; js "--device"; BUILD_FLAG] in
          let '(args, logged) :=
            if non_empty (runArguments launchArgs) then
              (args ++ default [] (runArguments launchArgs), logged)
            else if non_empty runArguments_ then
              (args ++ default [] runArguments_, logged)
            else if ionicLiveReload launchArgs then
              if isIonicAngularProjectByProjectType projectType
              then (args ++ [js "--livereload"; js "--external"], logged)
              else (args, logged ++ [NO_LIVERELOAD_WARNING])
            else (args, logged) in
          if array_includes (js "--livereload") args then
            (IosStarted (IosDevServer args), logged)
          else
            (IosStarted (IosRunOnDevice command args iosDebugProxyPort),
             logged ++ [js "Installing and launching app on device"])
        else
          let target_ := iosTarget target_ in
          match checkIfTargetIsiOSSimulator target_ listOutput with
          | Err e => (IosFailed e, logged)
          | Ok _ =>
              let args :=
                if isIonicAngularProjectByProjectType projectType
                then [js "emulate"; js "ios"; js "--"; BUILD_FLAG]
                else [js "emulate"; js "ios"; BUILD_FLAG] in
              let '(args, logged) :=
                if non_empty (runArguments launchArgs) then
                  (args ++ default [] (runArguments launchArgs), logged)
                else if non_empty runArguments_ then
                  (args ++ default [] runArguments_, logged)
                else
                  let args :=
                    if str_eqb target_ (js "emulator")
                    then args ++ [js "--target=" ++ target_]
                    else args in
                  if ionicLiveReload launchArgs then
                    if isIonicAngularProjectByProjectType projectType
                    then (args ++ [js "--livereload"], logged)
                    else (args, logged ++ [NO_LIVERELOAD_WARNING])
                  else (args, logged) in
              if array_includes (js "--livereload") args then
                (IosStarted (IosDevServer args), logged)
              else (IosStarted (IosEmulate command args), logged)
          end
    end.

(** *** [launchServe]: the arguments of [ionic serve]

    The result is the argument list that [startIonicDevServer] is called
    with, or the rejection, and the lines written to the logger. *)
Definition serveOnlyForIonic : jsstring :=
  js "Serving to the browser is currently only supported for Ionic projects".

Definition launchServe (launchArgs : RequestArgs) (projectType : IProjectType)
    (runArguments_ : option (list jsstring)) : outcome (list jsstring) * list jsstring :=
  if negb (isIonicAngularProjectByProjectType projectType) then
    (Err (Error serveOnlyForIonic), [serveOnlyForIonic])
  else
    let args := [js "serve"] in
    let args :=
      if match runArguments launchArgs with
         | Some l => (-1 <? Z.of_nat (length l))%Z
         | None => false
         end
      then args ++ default [] (runArguments launchArgs)
      else if non_empty runArguments_ then args ++ default [] runArguments_
      else
        let args := args ++ [js "--nobrowser"] in
        if negb (ionicLiveReload launchArgs) then args ++ [js "--nolivereload"] else args in
    (Ok args, []).
End LaunchIos.

(** *** [launch]

    What [launch] goes on to do once the platform is known. *)
Inductive LaunchStep : Type :=
| BySimulate
| ByAndroid (action : LaunchAction)
| ByIos (action : IosAction)
| ByServe (cliArgs : list jsstring).

(** What a promise is rejected with: an error, or a string. *)
Inductive Rejection : Type :=
| RejectError (e : error)
| RejectString (reason : jsstring).

(** The state of the promise that [launch] returns. *)
Inductive LaunchPromise : Type :=
| LaunchPending
| LaunchFulfilled
| LaunchRejected (r : Rejection).

Definition set_cordovaExecutable (v : option jsstring) (a : RequestArgs) : RequestArgs :=
  {| platform := platform a; target := target a; port := port a; cwd := cwd a;
     attachTimeout := attachTimeout a; timeout := timeout a;
     runArguments := runArguments a; ionicLiveReload := ionicLiveReload a;
     cordovaExecutable := v; url := url a |}.

Section Launch.
Context {IProjectType : Type}.
Variable getCordovaProjectRoot : option jsstring → option jsstring.
Variable isIonicAngularProjectByProjectType : IProjectType → bool.
Variable getCliCommand : option jsstring → jsstring.
Variable os_platform : jsstring.
Variable listOutput : outcome jsstring.
(** What [Q.all] of [determineProjectTypes], [getRunArguments] and
    [getCordovaExecutable] settles with, and what the step that [launch]
    goes on with ends with. *)
Variable projectFacts : outcome (IProjectType * option (list jsstring) * option jsstring).
Variable stepOutcome : LaunchStep → outcome unit.

(** The chain inside [TelemetryHelper.generate] up to the launcher of the
    platform. *)
Definition launch_chain (launchArgs : RequestArgs) (iosDebugProxyPort : option N)
    : Rejection + LaunchStep :=
  match launch_normalize getCordovaProjectRoot launchArgs with
  | Err e => inl (RejectError e)
  | Ok launchArgs =>
      match projectFacts with
      | Err e => inl (RejectError e)
      | Ok (projectType, runArguments_, cordovaExecutable_) =>
          let launchArgs :=
            set_cordovaExecutable
              (if truthy (cordovaExecutable launchArgs)
               then cordovaExecutable launchArgs else cordovaExecutable_)
              launchArgs in
          match launch_strategy launchArgs with
          | Err e => inl (RejectError e)
          | Ok LaunchSimulate => inr BySimulate
          | Ok LaunchAndroid =>
              match launchAndroid isIonicAngularProjectByProjectType getCliCommand
                      launchArgs projectType runArguments_ with
              | Ok (action, _) => inr (ByAndroid action)
              | Err e => inl (RejectError e)
              end
          | Ok LaunchIos =>
              match fst (launchIos isIonicAngularProjectByProjectType getCliCommand
                           os_platform listOutput
                           launchArgs iosDebugProxyPort projectType runArguments_) with
              | IosRejected reason => inl (RejectString reason)
              | IosFailed e => inl (RejectError e)
              | IosStarted action => inr (ByIos action)
              end
          | Ok LaunchServe =>
              match fst (launchServe isIonicAngularProjectByProjectType
                           launchArgs projectType runArguments_) with
              | Ok cliArgs => inr (ByServe cliArgs)
              | Err e => inl (RejectError e)
              end
          end
      end
  end.

(** [new Promise((resolve, reject) => chain.catch(err => { ...; reject(err); }))]:
    the executor hands [reject] to the handler of a failure and makes no
    use of [resolve]. *)
Definition launch (launchArgs : RequestArgs) (iosDebugProxyPort : option N)
    : LaunchPromise :=
  match launch_chain launchArgs iosDebugProxyPort with
  | inl r => LaunchRejected r
  | inr step =>
      match stepOutcome step with
      | Err e => LaunchRejected (RejectError e)
      | Ok _ => LaunchPending
      end
  end.
End Launch.

(** *** [attachIos]: the bundle and the port of the proxy *)

(** [getBundleIdentifier] for a target that is not a device: [entries] is
    what reading the directory platforms/ios/build/emulator gives. *)
Definition getBundleIdentifier (entries : outcome (list jsstring)) : outcome jsstring :=
  match entries with
  | Err e => Err e
  | Ok entries =>
      match List.filter (fun entry => test (cat [lit ".app"; Eol false]) entry) entries with
      | entry :: _ => Ok entry
      | [] => Err (Error (js "Unable to find .app file"))
      end
  end.

Record ProxyPort : Type := {
  pp_packagePath : jsstring;
  pp_targetPort : Parsed
}.

Definition noIosTarget : jsstring :=
  js "Unable to find iOS target device/simulator. Please check that "
  ++ [DQUOTE] ++ js "Settings > Safari > Advanced > Web Inspector = ON" ++ [DQUOTE]
  ++ js " or try specifying a different " ++ [DQUOTE] ++ js "port" ++ [DQUOTE]
  ++ js " parameter in launch.json".

(** [getSimulatorProxyPort]: [response] is what the GET on the port of the
    proxy gives.  With no device of the wanted kind [device.url] throws;
    whatever is thrown inside the [try] is replaced. *)
Definition getSimulatorProxyPort (JSON_parse : jsstring → outcome (list Webview))
    (target_ : jsstring) (packagePath : jsstring) (response : outcome jsstring)
    : outcome ProxyPort :=
  match response with
  | Err e => Err e
  | Ok response =>
      match JSON_parse response with
      | Err _ => Err (Error noIosTarget)
      | Ok endpointsList =>
          let devices :=
            List.filter
              (fun entry =>
                 if str_eqb (toLowerCase target_) (js "device")
                 then negb (str_eqb (wv_deviceId entry) (js "SIMULATOR"))
                 else str_eqb (wv_deviceId entry) (js "SIMULATOR"))
              endpointsList in
          match devices with
          | [] => Err (Error noIosTarget)
          | device :: _ =>
              Ok {| pp_packagePath := packagePath;
                    pp_targetPort := parseInt10 (JS.split (js ":") (wv_url device) !! 1%nat) |}
          end
      end
  end.

(** *** [startIonicDevServer]: the address and the port of the dev server

    The first statements of the function.  [devServerPort] is the field
    of the request when the request has it: a number, or a value of
    another type.  The numbers are those of the runtime, with the test
    [0 <= n && n <= 65535] and [toString]. *)
Inductive PortValue (Number : Type) : Type :=
| IsNumber (n : Number)
| NotNumber.
Arguments IsNumber {Number} n.
Arguments NotNumber {Number}.

Definition invalidDevServerPort : jsstring :=
  js "The value for " ++ [DQUOTE] ++ js "devServerPort" ++ [DQUOTE]
  ++ js " must be a number between 0 and 65535".

Section DevServerArgs.
Context {Number : Type}.
Variable in_port_range : Number → bool.
Variable Number_toString : Number → jsstring.

Definition devServerArgs (runArguments_ : option (list jsstring))
    (devServerAddress : option jsstring) (devServerPort : option (PortValue Number))
    (cliArgs : list jsstring) : outcome (list jsstring) :=
  if negb (non_empty runArguments_) then
    let cliArgs :=
      if truthy devServerAddress
      then cliArgs ++ [js "--address"; String_ devServerAddress]
      else cliArgs in
    match devServerPort with
    | None => Ok cliArgs
    | Some (IsNumber n) =>
        if in_port_range n then Ok (cliArgs ++ [js "--port"; Number_toString n])
        else Err (Error invalidDevServerPort)
    | Some NotNumber => Err (Error invalidDevServerPort)
    end
  else Ok cliArgs.
End DevServerArgs.

(** *** [startIonicDevServer]: the end of the process

    The listeners of the events "error" and "exit" of the child
    process. *)
Definition ionicNotFound : jsstring :=
  js "Ionic not found, please run 'npm install " ++ [8211] ++ js "g ionic' to install it globally".

Definition onProcessError (err : error) (s : ServerSession) : ServerSession :=
  {| serverOut := serverOut s; serverErr := serverErr s;
     serverReady := serverReady s; appReady := appReady s;
     serverDeferred :=
       reject (match err with
               | SystemError code _ =>
                   if str_eqb code (js "ENOENT") then Error ionicNotFound else err
               | _ => err
               end) (serverDeferred s);
     appDeferred := appDeferred s;
     logged := logged s |}.

Definition invalidAddressAdvice : jsstring :=
  js "Invalid address: please provide a valid IP address or hostname for the "
  ++ [DQUOTE] ++ js "devServerAddress" ++ [DQUOTE] ++ js " property in launch.json".

Definition exitMessage (EOL : jsstring) (isIonic4 : bool) (serverErr_ : jsstring) : jsstring :=
  let exitMessage := js "The Ionic live reload server exited unexpectedly" in
  match getServerErrorMessage EOL isIonic4 serverErr_ with
  | Some errorMsg =>
      if negb (bool_decide (indexOf (js "getaddrinfo ENOTFOUND") errorMsg = None))
         || negb (bool_decide (indexOf (js "listen EADDRNOTAVAIL") errorMsg = None))
      then exitMessage ++ EOL ++ invalidAddressAdvice
      else exitMessage ++ EOL ++ errorMsg
  | None => exitMessage
  end.

Definition isPending {A} (d : deferred A) : bool :=
  match d with
  | Pending => true
  | _ => false
  end.

(** The shared variables after the listener of "exit".  When both
    promises are settled the listener logs the message and ends with an
    exception, and the variables are left as they are. *)
Definition onExit (EOL : jsstring) (isIonic4 : bool) (s : ServerSession) : ServerSession :=
  let exitMessage := exitMessage EOL isIonic4 (serverErr s) in
  if negb (isPending (serverDeferred s)) && negb (isPending (appDeferred s)) then
    {| serverOut := serverOut s; serverErr := serverErr s;
       serverReady := serverReady s; appReady := appReady s;
       serverDeferred := serverDeferred s; appDeferred := appDeferred s;
       logged := logged s ++ [exitMessage] |}
  else
    {| serverOut := serverOut s; serverErr := serverErr s;
       serverReady := serverReady s; appReady := appReady s;
       serverDeferred := reject (Error exitMessage) (serverDeferred s);
       appDeferred := reject (Error exitMessage) (appDeferred s);
       logged := logged s |}.

(** The events of the child process: data on a channel, an error, the
    exit. *)
Inductive ChildEvent : Type :=
| Data (ev : ProcessEvent)
| ProcessError (err : error)
| Exit.

Definition onChildEvent (EOL : jsstring) (isIonic4 : bool) (cliArgs : list jsstring)
    (s : ServerSession) (ev : ChildEvent) : ServerSession :=
  match ev with
  | Data ev => onEvent EOL isIonic4 cliArgs s ev
  | ProcessError err => onProcessError err s
  | Exit => onExit EOL isIonic4 s
  end.

Definition onChildEvents (EOL : jsstring) (isIonic4 : bool) (cliArgs : list jsstring)
    (s : ServerSession) (evs : list ChildEvent) : ServerSession :=
  fold_left (onChildEvent EOL isIonic4 cliArgs) evs s.

End AppLauncher.

(** ** Notions used in the statements *)
Module Notions.
Import AppLauncher.

(** The two code units that begin an escape sequence. *)
Definition introducer (c : N) : bool := Chars.one_of [ESC; CSI] c.

(** Every ESC or CSI of [s] begins an escape sequence, that is a match
    of [ansiRegex]. *)
Definition sequences_complete (s : jsstring) : Prop :=
  ∀ i c, s !! i = Some c → introducer c = true →
    is_Some (match_at ansiRegex None (drop i s)).

(** The pattern after its first character class. *)
Definition tail_of (r : re) : re :=
  match r with
  | Seq _ b => b
  | _ => Eps
  end.

(** A dev server URL as Ionic 2 prints it, in colour. *)
Definition coloured_url : jsstring :=
  [ESC] ++ js "[32m" ++ js "http://localhost:8100" ++ [ESC] ++ js "[39m".

(** The standard output after each chunk of [chunks], when it was [out]
    before them. *)
Fixpoint outputs (out : jsstring) (chunks : list jsstring) : list jsstring :=
  match chunks with
  | [] => []
  | c :: l => (out ++ c) :: outputs (out ++ c) l
  end.

(** The session after further standard output chunks. *)
Definition feed (EOL : jsstring) (isIonic4 : bool) (cliArgs : list jsstring)
    (s : ServerSession) (chunks : list jsstring) : ServerSession :=
  onEvents EOL isIonic4 cliArgs s (map Stdout chunks).

(** An output that announces no server URL, asks for no network interface
    and reports no error. *)
Definition silent (EOL : jsstring) (isIonic4 : bool) (out : jsstring) : Prop :=
  exec SERVER_URL_RE out = None
  ∧ test multipleInterfacesRegex out = false
  ∧ getServerErrorMessage EOL isIonic4 out = None.

(** An output in which the app is not ready yet and no error is reported. *)
Definition deploying (EOL : jsstring) (isIonic4 : bool) (cliArgs : list jsstring)
    (out : jsstring) : Prop :=
  test (getRegexToResolveAppDefer cliArgs) out = false
  ∧ getServerErrorMessage EOL isIonic4 out = None.

Definition is_resolved {A} (d : deferred A) : Prop := ∃ v, d = Resolved v.

(** What every session keeps: [serverDeferred] is settled once
    [serverReady] is set, and [appDeferred] is resolved only after
    [serverReady] is set. *)
Definition ordered (s : ServerSession) : Prop :=
  (serverReady s = true → serverDeferred s ≠ Pending)
  ∧ (is_resolved (appDeferred s) → serverReady s = true).

(** The two phases of a session before the app is ready: nothing announced
    yet, and the server announced. *)
Definition waiting (s : ServerSession) : Prop :=
  serverReady s = false ∧ appReady s = false
  ∧ serverDeferred s = Pending ∧ appDeferred s = Pending.

Definition serving (s : ServerSession) : Prop :=
  serverReady s = true ∧ appReady s = false
  ∧ serverDeferred s = Resolved None ∧ appDeferred s = Pending.

(** The example of the spec: the arguments of a live reload launch on an
    Android device, the announcement of the dev server and the report of
    the launch. *)
Definition androidLiveReloadArgs : list jsstring :=
  [js "run"; js "android"; js "--device"; js "--verbose"; js "--livereload"].
Definition announcement : jsstring := js "Running dev server: http://localhost:8100" ++ [LF].
Definition launched : jsstring := js "launch success".

(** The output of [adb devices] with an emulator and two devices attached,
    and the table of /proc/net/unix on a device, which [adb shell] sends
    with CR LF line ends. *)
Definition adbDevices : jsstring :=
  js "List of devices attached" ++ [LF]
  ++ js "emulator-5554" ++ [TAB] ++ js "device" ++ [LF]
  ++ js "0A1B2C3D" ++ [TAB] ++ js "device" ++ [LF]
  ++ js "FA6930301234" ++ [TAB] ++ js "device" ++ [LF] ++ [LF].

Definition procNetUnix : jsstring :=
  js "Num       RefCount Protocol Flags    Type St Inode Path" ++ [CR; LF]
  ++ js "0000000000000000: 00000002 00000000 00000000 0001 01  5106 @webview_devtools_remote_1234" ++ [CR; LF]
  ++ js "0000000000000000: 00000002 00000000 00010000 0001 01  5107 /dev/socket/zygote" ++ [CR; LF]
  ++ js "0000000000000000: 00000003 00000000 00000000 0001 03  5109" ++ [CR; LF]
  ++ js "0000000000000000: 00000002 00000000 00010000 0001 01  5108 @webview_devtools_remote_1234" ++ [CR; LF].

(** The rows of the example: a devtools socket that accepts nothing, and
    one that accepts connections. *)
Definition closedRow : jsstring :=
  js "0000000000000000: 00000002 00000000 00000000 0001 01  5106 @webview_devtools_remote_1234".
Definition listeningRow : jsstring :=
  js "0000000000000000: 00000002 00000000 00010000 0001 01  5108 @webview_devtools_remote_1234".

(** The list that [emulate ios --list] prints. *)
Definition iosSimulators : jsstring :=
  js "Available iOS Simulators:" ++ [LF]
  ++ [TAB] ++ js "iPhone-5s, 12.2" ++ [LF]
  ++ [TAB] ++ js "iPhone-8, 12.2" ++ [LF]
  ++ [TAB] ++ js "iPad-Air, 12.2" ++ [LF].

(** A live reload launch on an Android device, without run arguments. *)
Definition liveReloadRequest : RequestArgs :=
  {| platform := Some (js "android"); target := Some (js "device"); port := None;
     cwd := Some (js "/home/user/app"); attachTimeout := None; timeout := None;
     runArguments := None; ionicLiveReload := true; cordovaExecutable := None;
     url := None |}.

(** An attach request for a target that is neither a device nor an
    emulator. *)
Definition chromeAttachRequest : RequestArgs :=
  {| platform := Some (js "android"); target := Some (js "chrome"); port := None;
     cwd := Some (js "/home/user/app"); attachTimeout := Some 10000; timeout := None;
     runArguments := None; ionicLiveReload := false; cordovaExecutable := None;
     url := None |}.

(** An environment in which ANDROID_HOME is set and PATH is not, and the
    path functions of a POSIX platform for it. *)
Definition envWithoutPath : gmap (list N) (list N) :=
  {[ js "ANDROID_HOME" := js "/opt/android-sdk" ]}.
Definition posix_join (a b : jsstring) : jsstring := a ++ js "/" ++ b.

(** The example of the spec: the dev server URL known from the live
    reload, and the two webviews the inspector reports. *)
Definition devServerUrls : list jsstring := [js "http://10.0.0.5:8100"].
Definition appWebview : Webview :=
  {| wv_url := js "http://10.0.0.5:8100/app"; wv_deviceId := js "SIMULATOR" |}.
Definition otherWebview : Webview :=
  {| wv_url := js "http://example.com"; wv_deviceId := js "SIMULATOR" |}.

(** [u] is a prefix of [s]. *)
Definition is_prefix (u s : jsstring) : bool := bool_decide (take (length u) s = u).

(** The number of word characters of a string. *)
Definition word_count (s : jsstring) : nat := length (List.filter Chars.word s).

(** Whether [word] is the address or the text of the port that
    [startIonicDevServer] appends to the command line. *)
Definition appended {Number : Type} (Number_toString : Number → jsstring)
    (devServerAddress : option jsstring) (devServerPort : option (PortValue Number))
    (word : jsstring) : bool :=
  truthy devServerAddress && str_eqb (String_ devServerAddress) word
  || match devServerPort with
     | Some (IsNumber n) => str_eqb (Number_toString n) word
     | _ => false
     end.

(** A string of ASCII characters: on these [toLowerCase] is that of
    JavaScript code unit by code unit. *)
Definition is_ascii (s : jsstring) : Prop := Forall (fun c => c < 128) s.

(** A line of a table as [ps] prints it: a first cell, and then cells
    with the blanks that precede each of them. *)
Definition table_line (first : jsstring) (rest : list (jsstring * jsstring)) : jsstring :=
  first ++ concat (map (fun p => fst p ++ snd p) rest).

Definition unspaced (s : jsstring) : Prop := Forall (fun c => Chars.space c = false) s.
Definition all_space (s : jsstring) : Prop := Forall (fun c => Chars.space c = true) s.
Definition table_cell (cell : jsstring) : Prop := cell ≠ [] ∧ unspaced cell.
Definition blank_run (blanks : jsstring) : Prop := blanks ≠ [] ∧ all_space blanks.

(** The cells of a line that is split as it stands: blanks before each
    cell after the first, no white space in a cell, and no empty cell but,
    at most, the last (a line that ends in blanks). *)
Fixpoint spaced (rest : list (jsstring * jsstring)) : Prop :=
  match rest with
  | [] => True
  | (blanks, cell) :: rest' =>
      blank_run blanks ∧ unspaced cell ∧ (cell = [] → rest' = []) ∧ spaced rest'
  end.

(** A status letter of [ps]: a cell that is one of the letters which the
    splitter of the fields passes over. *)
Definition status_letter : N → bool := Chars.one_of (js "RSIDZTW<NL").

Definition is_status (cell : jsstring) : bool :=
  match cell with
  | [c] => status_letter c
  | _ => false
  end.

(** The cells after the first that the splitter keeps: a status letter
    that another cell follows is passed over, with the blanks on both
    sides of it, and the cell that follows is kept whatever it is. *)
Fixpoint kept (cells : list jsstring) : list jsstring :=
  match cells with
  | [] => []
  | cell :: cells' =>
      if is_status cell then
        match cells' with
        | [] => [cell]
        | next :: cells'' => next :: kept cells''
        end
      else cell :: kept cells'
  end.

(** A call of the probe after which [retryAsync] goes on: the probe has
    rejected, or its result is not accepted. *)
Definition refused {T : Type} (accept : T → bool) (r : outcome T) : Prop :=
  match r with
  | Ok v => accept v = false
  | Err _ => True
  end.

(** [n] calls of the probe, with the waits between them. *)
Fixpoint schedule (n : nat) (wait delayMs : N) : list RetryEvent :=
  match n with
  | O => []
  | S O => [Probe]
  | S n' => Probe :: Wait wait :: schedule n' delayMs delayMs
  end.

(** An Ionic prompt for the network interface, with two candidates. *)
Definition interfacePrompt : jsstring :=
  js "Multiple network interfaces detected" ++ [LF]
  ++ js "1) 10.0.0.5 (eth0)" ++ [LF] ++ js "2) 192.168.1.7 (wlan0)" ++ [LF].

(** A launch request with the given platform, target, run arguments and
    live reload flag, for a project in /home/user/app. *)
Definition request (platform_ target_ : option jsstring)
    (runArguments_ : option (list jsstring)) (ionicLiveReload_ : bool) : RequestArgs :=
  {| platform := platform_; target := target_; port := None;
     cwd := Some (js "/home/user/app"); attachTimeout := None; timeout := None;
     runArguments := runArguments_; ionicLiveReload := ionicLiveReload_;
     cordovaExecutable := None; url := None |}.

(** What [launchAndroid] does with its arguments once they are built. *)
Definition androidAction (command : jsstring) (args : list jsstring) : LaunchAction :=
  if array_includes (js "--livereload") args then StartIonicDevServer args
  else CordovaRunCommand command args.

(** The command of a launch: the executable of the request, or the one of
    the project. *)
Definition commandOf (getCliCommand : option jsstring → jsstring)
    (launchArgs : RequestArgs) : jsstring :=
  if truthy (cordovaExecutable launchArgs)
  then String_ (cordovaExecutable launchArgs)
  else getCliCommand (cwd launchArgs).

(** The session [s'] is [s] at a later moment: a promise that was settled
    has kept its state, a flag that was set is still set, and the outputs
    and the log have only grown. *)
Definition follows (s s' : ServerSession) : Prop :=
  (serverDeferred s ≠ Pending → serverDeferred s' = serverDeferred s)
  ∧ (appDeferred s ≠ Pending → appDeferred s' = appDeferred s)
  ∧ (serverReady s = true → serverReady s' = true)
  ∧ (appReady s = true → appReady s' = true)
  ∧ (∃ t, serverOut s' = serverOut s ++ t)
  ∧ (∃ t, serverErr s' = serverErr s ++ t)
  ∧ (∃ l, logged s' = logged s ++ l).

(** Once [serverReady] is set, the output holds an announcement. *)
Definition announced (s : ServerSession) : Prop :=
  serverReady s = true → is_Some (exec SERVER_URL_RE (serverOut s)).

(** The URLs that [appDeferred] holds were read from the output as it
    stood at some moment. *)
Definition read_from_output (s : ServerSession) : Prop :=
  ∀ urls, appDeferred s = Resolved urls →
    ∃ m out t, serverOut s = out ++ t ∧ exec SERVER_URL_RE out = Some m
               ∧ urls = serverUrls m out.

(** The words with which Ionic 4 reports that a port is taken. *)
Definition portProbeNotice : jsstring := js "utils-network error while checking".

(** Both channels hold the notice. *)
Definition masked (s : ServerSession) : Prop :=
  includes portProbeNotice (serverOut s) = true
  ∧ includes portProbeNotice (serverErr s) = true.

(** From [s] to [s'] nothing has happened to [appDeferred], or it was
    pending and has been resolved. *)
Definition at_most_resolved (s s' : ServerSession) : Prop :=
  appDeferred s' = appDeferred s
  ∨ (appDeferred s = Pending ∧ is_resolved (appDeferred s')).

(** The entries of the proxy that [getSimulatorProxyPort] keeps for a
    target: for "device" the ones that are no simulator, else the
    simulators. *)
Definition wantedDevice (target_ : jsstring) (entry : Webview) : bool :=
  if str_eqb (toLowerCase target_) (js "device")
  then negb (str_eqb (wv_deviceId entry) (js "SIMULATOR"))
  else str_eqb (wv_deviceId entry) (js "SIMULATOR").

(** What the proxy of the example reports: a device and a simulator. *)
Definition proxyDevices : list Webview :=
  [ {| wv_url := js "localhost:9223"; wv_deviceId := js "4ea8dd11e8c4fbc1a2deadbeef" |};
    {| wv_url := js "localhost:9224"; wv_deviceId := js "SIMULATOR" |} ].

(** What the dev server of Ionic 1 prints when it is up. *)
Definition ionic1Banner : jsstring :=
  js "[OK] Development server running!" ++ [LF]
  ++ js "     Local: http://localhost:8100" ++ [LF]
  ++ js "     External: http://10.0.75.1:8100, http://172.28.124.161:8100" ++ [LF].

(** A string of one or more decimal digits. *)
Definition is_number (s : jsstring) : bool :=
  match s with
  | [] => false
  | _ => forallb Chars.digit s
  end.

(** The output of [ps] on a device: the header, and two processes with
    their status letter. *)
Definition psOutput : jsstring :=
  js "USER     PID   PPID  VSIZE  RSS     WCHAN    PC         NAME" ++ [CR; LF]
  ++ js "root      1     0     1000   500   ffffffff 00000000 S /init" ++ [CR; LF]
  ++ js "u0_a83    1234  200   1500000 80000 ffffffff 00000000 S com.example.app" ++ [CR; LF].

(** A port notice of Ionic 4 on the standard error, and an error line. *)
Definition portNotice : jsstring :=
  js "[WARN] utils-network error while checking 0.0.0.0:8100" ++ [LF].
Definition errorLine : jsstring := js "Error: listen EADDRINUSE 0.0.0.0:8100" ++ [LF].

End Notions.

(** * Properties *)

(** ** The matcher *)
Module RegexFacts.
Import Regex.

Lemma repeat_sound a step hi k :
  sound_for a step →
  ∀ n lo x z, (lo ≤ n)%nat → repeat step k n lo x = Some z →
    ∃ y w, rest x = w ++ rest y ∧ words (Rep lo hi a) w ∧ k y = Some z.
Proof.
  intros Hstep n. induction n as [|n IH]; intros lo x z Hlo H; simpl in H.
  - assert (lo = 0%nat) as -> by lia.
    exists x, []. split; [done|]. split; [constructor|done].
  - destruct lo as [|lo].
    + destruct (step x _) as [z'|] eqn:Hs.
      * injection H as ->.
        apply Hstep in Hs as (y & w & Hxy & Hw & Hd).
        simpl in Hd. destruct (Nat.eqb _ _); [discriminate|].
        apply IH in Hd as (y' & w' & Hyy & Hw' & Hk); [|lia].
        exists y', (w ++ w'). rewrite Hxy, Hyy, app_assoc. split; [done|].
        split; [|done]. by eapply words_rep_cons.
      * exists x, []. split; [done|]. split; [constructor|done].
    + apply Hstep in H as (y & w & Hxy & Hw & Hd).
      simpl in Hd.
      apply IH in Hd as (y' & w' & Hyy & Hw' & Hk); [|lia].
      exists y', (w ++ w'). rewrite Hxy, Hyy, app_assoc. split; [done|].
      split; [|done]. by eapply words_rep_cons.
Qed.

Lemma run_sound r : well_formed r = true → sound_for r (run r).
Proof.
  induction r as [|p|a IHa b IHb|a IHa b IHb|lo hi a IHa|n a IHa|a IHa|ml|ml];
    intros Hwf x k z H; simpl in *.
  - exists x, []. split; [done|]. split; [constructor|done].
  - destruct (rest x) as [|c t] eqn:Hx; [discriminate|].
    destruct (p c) eqn:Hp; [|discriminate].
    exists (Pos (Some c) t (caps x)), [c]. split; [done|]. split; [by constructor|done].
  - apply andb_true_iff in Hwf as [Ha Hb].
    apply (IHa Ha) in H as (y & u & Hxy & Hu & H).
    apply (IHb Hb) in H as (y' & v & Hyy & Hv & H).
    exists y', (u ++ v). rewrite Hxy, Hyy, app_assoc. split; [done|].
    split; [by constructor|done].
  - apply andb_true_iff in Hwf as [Ha Hb].
    destruct (run a x k) as [z'|] eqn:Hra.
    + injection H as ->. apply (IHa Ha) in Hra as (y & u & ? & ? & ?).
      exists y, u. split; [done|]. split; [by apply words_alt_l|done].
    + apply (IHb Hb) in H as (y & u & ? & ? & ?).
      exists y, u. split; [done|]. split; [by apply words_alt_r|done].
  - apply andb_true_iff in Hwf as [Hb Ha].
    eapply repeat_sound; [by apply IHa| |exact H].
    destruct hi as [h|]; [by apply Nat.leb_le|lia].
  - apply (IHa Hwf) in H as (y & u & ? & ? & ?).
    eexists _, u. split; [|split; [by constructor|eassumption]]. done.
  - destruct (run a x Some) as [y|]; [|discriminate].
    eexists _, []. split; [|split; [constructor|eassumption]]. done.
  - exists x, []. split; [done|]. split; [constructor|].
    destruct (before x); [|done]. by destruct (_ && _).
  - exists x, []. split; [done|]. split; [constructor|].
    destruct (rest x); [done|]. by destruct (_ && _).
Qed.

(** A match at a position consumes a word of the pattern. *)
Lemma match_at_words r b s e :
  well_formed r = true → match_at r b s = Some e →
  ∃ w, s = w ++ rest e ∧ words r w.
Proof.
  intros Hwf H. apply (run_sound r Hwf) in H as (y & w & Hs & Hw & Hk).
  injection Hk as <-. by exists w.
Qed.

Lemma words_min_len r w : words r w → (min_len r ≤ length w)%nat.
Proof.
  induction 1; simpl in *; rewrite ?length_app; try lia.
  destruct lo; simpl in *; lia.
Qed.

Lemma words_consumes_only q r w : consumes_only q r → words r w → Forall q w.
Proof.
  intros Hq Hw. induction Hw; simpl in *; try by constructor.
  - constructor; [by apply Hq|constructor].
  - destruct Hq. apply Forall_app; auto.
  - destruct Hq; auto.
  - destruct Hq; auto.
  - apply Forall_app; auto.
  - auto.
Qed.

(** A success passes through the continuation. *)
Lemma run_passes r x k z :
  well_formed r = true → run r x k = Some z → ∃ y, k y = Some z.
Proof. intros Hwf H. apply (run_sound r Hwf) in H as (y & _ & _ & _ & H). eauto. Qed.

(** *** The bound of the unbounded repetition

    A matcher only calls its continuation at positions at or after its
    own; so the result of [a{lo,n}] no longer depends on [n] once [n]
    reaches [lo] plus the number of code units left: the bound that [run]
    uses for [a{lo,}] loses nothing. *)
Lemma repeat_local step k1 k2 : local step →
  ∀ n lo x, (∀ y, (length (rest y) ≤ length (rest x))%nat → k1 y = k2 y) →
    repeat step k1 n lo x = repeat step k2 n lo x.
Proof.
  intros Hstep n. induction n as [|n IH]; intros lo x Hk; simpl.
  - apply Hk. lia.
  - assert (step x (fun y => if Nat.eqb lo 0 && Nat.eqb (length (rest y)) (length (rest x))
                            then None else repeat step k1 n (Nat.pred lo) y)
            = step x (fun y => if Nat.eqb lo 0 && Nat.eqb (length (rest y)) (length (rest x))
                              then None else repeat step k2 n (Nat.pred lo) y)) as Heq.
    { apply Hstep. intros y Hy. destruct (_ && _); [done|].
      apply IH. intros y' Hy'. apply Hk. lia. }
    unfold repeat in Heq |- *. rewrite Heq. rewrite (Hk x) by lia. done.
Qed.

Lemma run_local r : local (run r).
Proof.
  induction r as [|p|a IHa b IHb|a IHa b IHb|lo hi a IHa|n a IHa|a IHa|ml|ml];
    intros x k1 k2 Hk; simpl.
  - apply Hk. lia.
  - destruct (rest x) as [|c t] eqn:Hx; [done|]. destruct (p c); [|done].
    apply Hk. simpl. lia.
  - apply IHa. intros y Hy. apply IHb. intros y' Hy'. apply Hk. lia.
  - rewrite (IHa x k1 k2 Hk), (IHb x k1 k2 Hk). done.
  - by apply repeat_local.
  - apply IHa. intros y Hy. apply Hk. simpl. lia.
  - destruct (run a x Some); [|done]. apply Hk. simpl. lia.
  - rewrite (Hk x) by lia. done.
  - rewrite (Hk x) by lia. done.
Qed.

Lemma repeat_beyond_bound a step k :
  sound_for a step → local step →
  ∀ n lo x, (lo + length (rest x) ≤ n)%nat →
    repeat step k (S n) lo x = repeat step k n lo x.
Proof.
  intros Hsound Hlocal n. induction n as [|n IH]; intros lo x Hn.
  - assert (lo = 0%nat) as -> by lia. simpl.
    destruct (step x _) as [z|] eqn:Hs; [|done].
    apply Hsound in Hs as (y & w & Hxy & _ & Hd). simpl in Hd.
    assert (length (rest y) = length (rest x)) as Heq.
    { assert (length (rest x) = length w + length (rest y))%nat
        by (rewrite Hxy at 1; apply length_app).
      lia. }
    by rewrite Heq, Nat.eqb_refl in Hd.
  - change (repeat step k (S (S n)) lo x) with
      (let d := fun y : pos =>
         if Nat.eqb lo 0 && Nat.eqb (length (rest y)) (length (rest x))
         then None else repeat step k (S n) (Nat.pred lo) y in
       match lo with
       | S _ => step x d
       | O => match step x d with Some z => Some z | None => k x end
       end).
    change (repeat step k (S n) lo x) with
      (let d := fun y : pos =>
         if Nat.eqb lo 0 && Nat.eqb (length (rest y)) (length (rest x))
         then None else repeat step k n (Nat.pred lo) y in
       match lo with
       | S _ => step x d
       | O => match step x d with Some z => Some z | None => k x end
       end).
    cbv zeta.
    assert (step x (fun y => if Nat.eqb lo 0 && Nat.eqb (length (rest y)) (length (rest x))
                            then None else repeat step k (S n) (Nat.pred lo) y)
            = step x (fun y => if Nat.eqb lo 0 && Nat.eqb (length (rest y)) (length (rest x))
                              then None else repeat step k n (Nat.pred lo) y)) as ->.
    { apply Hlocal. intros y Hy.
      destruct (Nat.eqb lo 0 && _) eqn:Hc; [done|]. apply IH.
      destruct lo as [|lo]; simpl in *; [|lia].
      apply Nat.eqb_neq in Hc. lia. }
    done.
Qed.

(** [a{lo,}] is [a{lo,n}] for every [n] from the bound on. *)
Lemma unbounded_repetition a lo n x k :
  well_formed a = true → (lo + length (rest x) ≤ n)%nat →
  run (Rep lo (Some n) a) x k = run (Rep lo None a) x k.
Proof.
  intros Hwf Hn. simpl.
  induction Hn as [|n Hn IH]; [done|].
  rewrite <- IH. apply (repeat_beyond_bound a); [by apply run_sound|apply run_local|done].
Qed.

(** *** The matcher at work: greedy repetition, backtracking, the
    leftmost match, assertions, [split] and the global [replace] *)

Example greedy_backtracks :
  matched <$> exec (cat [star dot; lit "b"]) (js "abcbd") = Some (js "abcb").
Proof. reflexivity. Qed.

Example bounded_repetition_gives_back :
  matched <$> exec (cat [Rep 1 (Some 4%nat) (Chr Chars.digit); Chr Chars.digit]) (js "x12y")
  = Some (js "12").
Proof. reflexivity. Qed.

Example alternatives_in_order :
  matched <$> exec (alt [lit "ab"; lit "abc"]) (js "xabc") = Some (js "ab").
Proof. reflexivity. Qed.

Example lookahead_consumes_nothing :
  matched <$> exec (cat [Grp 1 (star dot); Ahead (lit ",")]) (js "a, b, c") = Some (js "a, b").
Proof. reflexivity. Qed.

Example end_of_line :
  matched <$> exec (cat [lit "a"; star dot; Eol true]) (js "xab" ++ [LF] ++ js "c")
  = Some (js "ab")
  ∧ exec (cat [lit "a"; star dot; Eol false]) (js "xab" ++ [LF] ++ js "c") = None.
Proof. split; reflexivity. Qed.

Example split_on_blanks :
  Regex.split (plus (Chr Chars.space)) (js " a  b ") = [[]; js "a"; js "b"; []]
  ∧ Regex.split (lit ",") [] = [[]]
  ∧ Regex.split (lit ",") (js "a,,b") = [js "a"; []; js "b"].
Proof. repeat split; reflexivity. Qed.

Example replace_first_and_all :
  Regex.replace (lit "ab") (js "-") (js "xabab") = js "x-ab"
  ∧ replace_all (lit "ab") (js "-") (js "xabab") = js "x--".
Proof. split; reflexivity. Qed.

(** *** The star of a character class *)

Lemma repeat_chr_greedy p k : ∀ n s b c,
  (length s ≤ n)%nat → Forall (fun a => p a = true) s →
  repeat (run (Chr p)) k n 0 (Pos b s c) = greedy k b s c.
Proof.
  induction n as [|n IH]; intros s b c Hn Hs.
  - destruct s; [done|simpl in Hn; lia].
  - destruct s as [|a t]; [done|].
    apply Forall_cons in Hs as [Ha Hs].
    cbn [repeat run rest caps Nat.eqb andb]. rewrite Ha.
    replace (Nat.eqb (length t) (length (a :: t))) with false
      by (symmetry; apply Nat.eqb_neq; simpl; lia).
    cbn [greedy]. unfold repeat in IH. rewrite IH by (simpl in Hn; done || lia). done.
Qed.

(** Where the continuation fails after every character, it is reached
    in front of the run only. *)
Lemma greedy_none k c : ∀ s b,
  (∀ i a, s !! i = Some a → k (Pos (Some a) (drop (S i) s) c) = None) →
  greedy k b s c = k (Pos b s c).
Proof.
  induction s as [|a t IH]; intros b H; [done|]. cbn [greedy].
  rewrite IH.
  - pose proof (H 0%nat a eq_refl) as H0. change (drop 1 (a :: t)) with t in H0.
    by rewrite H0.
  - intros i a' Hi. exact (H (S i) a' Hi).
Qed.

(** Where the continuation succeeds after [u] and nowhere later, that is
    where the run ends. *)
Lemma greedy_reaches k c w z :
  (∀ b, greedy k b w c = k (Pos b w c)) →
  ∀ u b, k (Pos (before_after b u) w c) = Some z → greedy k b (u ++ w) c = Some z.
Proof.
  intros Hw u. induction u as [|a u IH]; intros b Hk; simpl in *.
  - by rewrite Hw.
  - by rewrite (IH (Some a) Hk).
Qed.

(** *** Captures *)

Lemma captured_cons n m c l : captured n l → captured n ((m, c) :: l).
Proof. unfold captured. simpl. by destruct (Nat.eqb m n). Qed.

Lemma repeat_keeps n step k :
  (∀ x k z, step x k = Some z →
     ∃ y, k y = Some z ∧ (captured n (caps x) → captured n (caps y))) →
  ∀ i lo x z, repeat step k i lo x = Some z →
    ∃ y, k y = Some z ∧ (captured n (caps x) → captured n (caps y)).
Proof.
  intros Hstep i. induction i as [|i IH]; intros lo x z H; simpl in H; [by eauto|].
  assert (∀ z, step x (fun y => if Nat.eqb lo 0 && Nat.eqb (length (rest y)) (length (rest x))
                           then None else repeat step k i (Nat.pred lo) y) = Some z →
          ∃ y, k y = Some z ∧ (captured n (caps x) → captured n (caps y))) as Hiter.
  { intros z' Hs. apply Hstep in Hs as (y & Hd & Hy). simpl in Hd.
    destruct (_ && _); [done|]. apply IH in Hd as (y' & Hk & Hy'). eauto. }
  destruct lo; [|by apply Hiter].
  destruct (step x _) as [z'|] eqn:Hs; [|by eauto].
  injection H as <-. by apply Hiter.
Qed.

(** A capture that is set stays set. *)
Lemma run_keeps n r : ∀ x k z, run r x k = Some z →
  ∃ y, k y = Some z ∧ (captured n (caps x) → captured n (caps y)).
Proof.
  induction r as [|p|a IHa b IHb|a IHa b IHb|lo hi a IHa|m a IHa|a IHa|ml|ml];
    intros x k z H; simpl in H.
  - eauto.
  - destruct (rest x) as [|c t]; [done|]. destruct (p c); [|done]. eauto.
  - apply IHa in H as (y & H & Hy). apply IHb in H as (y' & H & Hy'). eauto.
  - destruct (run a x k) as [z'|] eqn:Ha;
      [injection H as <-; exact (IHa x k z' Ha)|exact (IHb x k z H)].
  - by eapply repeat_keeps.
  - apply IHa in H as (y & H & Hy). eexists. split; [exact H|].
    intros Hx. by apply captured_cons, Hy.
  - destruct (run a x Some) as [y0|] eqn:Ha; [|done].
    apply IHa in Ha as (y & [= ->] & Hy). eauto.
  - destruct (before x) as [c|]; [|by eauto]. destruct (_ && _); [by eauto|done].
  - destruct (rest x) as [|c t]; [by eauto|]. destruct (_ && _); [by eauto|done].
Qed.

(** A capture that the pattern binds is set after a match. *)
Lemma run_binds n r : binds n r = true → ∀ x k z, run r x k = Some z →
  ∃ y, k y = Some z ∧ captured n (caps y).
Proof.
  induction r as [|p|a IHa b IHb|a IHa b IHb|lo hi a IHa|m a IHa|a IHa|ml|ml];
    intros Hb x k z H; simpl in Hb, H; try done.
  - apply orb_true_iff in Hb as [Hb|Hb].
    + apply (IHa Hb) in H as (y & H & Hy).
      apply (run_keeps n) in H as (y' & H & Hy'). eauto.
    + apply (run_keeps n) in H as (y & H & _). by apply (IHb Hb) in H.
  - apply andb_true_iff in Hb as [Hb1 Hb2].
    destruct (run a x k) as [z'|] eqn:Ha;
      [injection H as <-; exact (IHa Hb1 x k z' Ha)|exact (IHb Hb2 x k z H)].
  - apply orb_true_iff in Hb as [Hb|Hb].
    + apply Nat.eqb_eq in Hb as ->.
      apply (run_keeps n) in H as (y & H & _). eexists. split; [exact H|].
      unfold captured. simpl. by rewrite Nat.eqb_refl.
    + apply (IHa Hb) in H as (y & H & Hy). eexists. split; [exact H|].
      by apply captured_cons.
Qed.

Lemma search_match_at r : ∀ s b i m, search r b s i = Some m →
  ∃ b' s' i' e, match_at r b' s' = Some e ∧ m = result_at i' s' e.
Proof.
  induction s as [|c t IH]; intros b i m H; simpl in H.
  - destruct (match_at r b []) as [e|] eqn:He; [|done]. injection H as <-. eauto 6.
  - destruct (match_at r b (c :: t)) as [e|] eqn:He; [injection H as <-; eauto 6|].
    by apply IH in H.
Qed.

Lemma scan_match_at r : ∀ s b i skip m, m ∈ scan r b s i skip →
  ∃ b' s' i' e, match_at r b' s' = Some e ∧ m = result_at i' s' e.
Proof.
  induction s as [|c t IH]; intros b i skip m H; simpl in H.
  - destruct skip; [|by apply elem_of_nil in H].
    destruct (match_at r b []) as [e|] eqn:He; [|by apply elem_of_nil in H].
    apply list_elem_of_singleton in H as ->. eauto 6.
  - destruct skip; [|by apply IH in H].
    destruct (match_at r b (c :: t)) as [e|] eqn:He; [|by apply IH in H].
    apply elem_of_cons in H as [->|H]; [eauto 6|by apply IH in H].
Qed.

(** After [exec] a capture that the pattern binds is not [undefined]. *)
Lemma exec_binds n r s m :
  binds n r = true → exec r s = Some m → is_Some (group n m).
Proof.
  intros Hb H. apply search_match_at in H as (b' & s' & i' & e & He & ->).
  apply (run_binds n r Hb) in He as (y & [= ->] & Hy).
  unfold group, result_at. simpl. destruct Hy as [g ->]. eauto.
Qed.

(** The capture of a pattern that is one group is the matched text. *)
Lemma match_at_group n a b s e i :
  match_at (Grp n a) b s = Some e →
  group n (result_at i s e) = Some (matched (result_at i s e)).
Proof.
  unfold match_at. simpl. intros H.
  apply (run_keeps n) in H as (y & [= <-] & _).
  unfold group, result_at, consumed. simpl. by rewrite Nat.eqb_refl.
Qed.

(** The leftmost match splits the input into what precedes it, the word
    it consumed and what follows. *)
Lemma search_words r : well_formed r = true →
  ∀ s b i m, search r b s i = Some m →
    ∃ pre, s = pre ++ matched m ++ after m ∧ words r (matched m)
           ∧ index m = (i + length pre)%nat.
Proof.
  intros Hwf s. induction s as [|c t IH]; intros b i m H; simpl in H.
  - destruct (match_at r b []) as [e|] eqn:He; [|discriminate].
    injection H as <-. apply match_at_words in He as (w & Hs & Hw); [|done].
    exists []. simpl. symmetry in Hs. apply app_eq_nil in Hs as [-> ->].
    split; [done|]. split; [done|lia].
  - destruct (match_at r b (c :: t)) as [e|] eqn:He.
    + injection H as <-. apply match_at_words in He as (w & Hs & Hw); [|done].
      assert (take (length (c :: t) - length (rest e)) (c :: t) = w) as Ht.
      { rewrite Hs, length_app, Nat.add_sub. apply take_app_length. }
      exists []. unfold result_at. cbn [matched after index app]. rewrite Ht.
      split; [done|]. split; [done|simpl; lia].
    + apply IH in H as (pre & Hs & Hw & Hi).
      exists (c :: pre). simpl. rewrite <- Hs. split; [done|]. split; [done|lia].
Qed.

Lemma exec_words r s m : well_formed r = true → exec r s = Some m →
  ∃ pre, s = pre ++ matched m ++ after m ∧ words r (matched m) ∧ index m = length pre.
Proof. intros Hwf H. by apply search_words in H. Qed.

Lemma test_exec r s : test r s = true → ∃ m, exec r s = Some m.
Proof. unfold test. intros H. by apply bool_decide_eq_true_1 in H as [m ->]; eauto. Qed.

(** The first match replaced by nothing. *)
Lemma replace_words r s : well_formed r = true →
  Regex.replace r [] s = s
  ∨ ∃ pre w post, s = pre ++ w ++ post ∧ words r w ∧ Regex.replace r [] s = pre ++ post.
Proof.
  intros Hwf. unfold Regex.replace. destruct (exec r s) as [m|] eqn:Hm; [|by left].
  right. apply exec_words in Hm as (pre & Hs & Hw & Hi); [|done].
  exists pre, (matched m), (after m). split; [done|]. split; [done|].
  rewrite Hi. rewrite Hs at 1. by rewrite take_app_length.
Qed.

(** A pattern of literal characters consumes exactly them. *)
Lemma words_lits s : ∀ w, words (lits s) w → w = s.
Proof.
  unfold lits. induction s as [|c [|c' s'] IH]; intros w H.
  - by inversion H.
  - simpl in H. inversion H as [|p d Hd| | | | | | | | |]; subst.
    apply N.eqb_eq in Hd. by subst.
  - change (words (Seq (Chr (Chars.only c))
                       (cat (map (fun c => Chr (Chars.only c)) (c' :: s')))) w) in H.
    inversion H as [| |a b u v Hu Hv| | | | | | | |]; subst.
    inversion Hu as [|p d Hd| | | | | | | | |]; subst.
    apply N.eqb_eq in Hd. subst. simpl. f_equal. by apply IH.
Qed.

(** *** Sequences of characters *)

Lemma run_chars ps : ∀ b s c k,
  run (cat (map Chr ps)) (Pos b s c) k
  = if prefix_by ps s
    then k (Pos (before_after b (take (length ps) s)) (drop (length ps) s) c)
    else None.
Proof.
  induction ps as [|p ps IH]; intros b s c k; [done|].
  destruct ps as [|q ps].
  - destruct s as [|a t]; [done|]. cbn [map cat run rest caps prefix_by].
    rewrite andb_true_r. destruct (p a); [|done]. simpl. by rewrite drop_0.
  - change (cat (map Chr (p :: q :: ps))) with (Seq (Chr p) (cat (map Chr (q :: ps)))).
    destruct s as [|a t]; [done|]. cbn [run rest caps].
    change (prefix_by (p :: q :: ps) (a :: t)) with (p a && prefix_by (q :: ps) t).
    destruct (p a); [|done]. rewrite IH. done.
Qed.

Lemma prefix_by_only sub : ∀ s,
  prefix_by (map Chars.only sub) s = bool_decide (take (length sub) s = sub).
Proof.
  induction sub as [|c sub IH]; intros s; simpl.
  - done.
  - destruct s as [|a t]; [done|]. simpl. rewrite IH. unfold Chars.only.
    destruct (N.eqb_spec c a) as [->|Hne]; simpl.
    + destruct (bool_decide (take _ t = sub)) eqn:Hd.
      * apply bool_decide_eq_true_1 in Hd. rewrite Hd. by rewrite bool_decide_eq_true_2.
      * apply bool_decide_eq_false_1 in Hd. rewrite bool_decide_eq_false_2; [done|].
        by intros [= ?].
    + rewrite bool_decide_eq_false_2; [done|]. by intros [= ?].
Qed.

Lemma is_i_lower p c : Chars.is_i p c = (Chars.lower p =? Chars.lower c).
Proof.
  unfold Chars.is_i, Chars.upper, Chars.lower, Chars.range.
  change (cu "a") with 97. change (cu "z") with 122.
  change (cu "A") with 65. change (cu "Z") with 90.
  destruct (N.leb_spec 97 p), (N.leb_spec p 122), (N.leb_spec 97 c), (N.leb_spec c 122),
           (N.leb_spec 65 p), (N.leb_spec p 90), (N.leb_spec 65 c), (N.leb_spec c 90);
    cbn [andb];
    match goal with
    | |- (?a =? ?b) = (?a' =? ?b') =>
        destruct (N.eqb_spec a b), (N.eqb_spec a' b'); try done; exfalso; lia
    end.
Qed.

Lemma prefix_by_is_i sub : ∀ s,
  prefix_by (map Chars.is_i sub) s
  = prefix_by (map Chars.only (map Chars.lower sub)) (map Chars.lower s).
Proof.
  induction sub as [|c sub IH]; intros s; [done|].
  destruct s as [|a t]; [done|]. simpl. by rewrite IH, is_i_lower.
Qed.

(** *** Searching *)

Lemma search_anywhere r P :
  (∀ b s, P s = bool_decide (is_Some (match_at r b s))) →
  ∀ s b i, bool_decide (is_Some (search r b s i)) = anywhere P s.
Proof.
  intros HP s. induction s as [|c t IH]; intros b i; simpl; rewrite (HP b).
  - by destruct (match_at r b []).
  - destruct (match_at r b (c :: t)); simpl; [done|]. apply IH.
Qed.

Lemma test_anywhere r P :
  (∀ b s, P s = bool_decide (is_Some (match_at r b s))) →
  ∀ s, test r s = anywhere P s.
Proof. intros HP s. by apply search_anywhere. Qed.

Lemma includes_anywhere sub s :
  includes sub s = anywhere (fun u => bool_decide (take (length sub) u = sub)) s.
Proof.
  unfold includes, indexOf. generalize 0%nat.
  induction s as [|c t IH]; intros i; simpl.
  - by destruct (bool_decide (take _ [] = sub)).
  - destruct (bool_decide (take _ (c :: t) = sub)); simpl; [done|]. apply IH.
Qed.

Lemma anywhere_ext P Q s : (∀ u, P u = Q u) → anywhere P s = anywhere Q s.
Proof. intros H. induction s as [|c t IH]; simpl; by rewrite H, ?IH. Qed.

Lemma anywhere_map (f : N → N) P s :
  anywhere (fun u => P (map f u)) s = anywhere P (map f s).
Proof. induction s as [|c t IH]; simpl; by rewrite ?IH. Qed.

(** [toLowerCase] and the folding of the letters A to Z differ on the
    Kelvin sign only; a word without the letter k is found by both or by
    none. *)
Lemma no_k_cons c w : no_k (c :: w) = true → c ≠ cu "k" ∧ c ≠ KELVIN ∧ no_k w = true.
Proof.
  unfold no_k. cbn [forallb]. intros H. apply andb_true_iff in H as [H Hw].
  apply andb_true_iff in H as [H1 H2].
  apply negb_true_iff, N.eqb_neq in H1. apply negb_true_iff, N.eqb_neq in H2. done.
Qed.

Lemma toLowerCase_no_k w : no_k (toLowerCase w) = true → toLowerCase w = map Chars.lower w.
Proof.
  induction w as [|c w IH]; [done|]. cbn [toLowerCase map]. intros H.
  apply no_k_cons in H as (Hk & _ & Hw). fold (toLowerCase w). rewrite (IH Hw).
  f_equal. unfold lower_unit in *. by destruct (c =? KELVIN).
Qed.

Lemma prefix_lower_unit w : no_k w = true → ∀ u,
  bool_decide (take (length w) (map lower_unit u) = w)
  = bool_decide (take (length w) (map Chars.lower u) = w).
Proof.
  induction w as [|c w IH]; intros Hw u; [done|].
  apply no_k_cons in Hw as (Hk & Hkelvin & Hw).
  destruct u as [|a u]; [done|]. cbn [length take map].
  assert (lower_unit a = c ↔ Chars.lower a = c) as Ha.
  { unfold lower_unit. destruct (N.eqb_spec a KELVIN) as [->|_]; [|done].
    split; [by intros <-|]. intros <-. destruct Hkelvin. by vm_compute. }
  assert (take (length w) (map lower_unit u) = w
          ↔ take (length w) (map Chars.lower u) = w) as Hu.
  { by rewrite <- (bool_decide_eq_true (take (length w) (map lower_unit u) = w)),
         (IH Hw u), bool_decide_eq_true. }
  apply bool_decide_ext. split; intros [= H1 H2].
  - f_equal; [by apply Ha|by apply Hu].
  - f_equal; [by apply Ha|by apply Hu].
Qed.

Lemma prefix_by_liti p u :
  no_k (toLowerCase (js p)) = true →
  prefix_by (map Chars.is_i (js p)) u
  = bool_decide (take (length (js p)) (toLowerCase u) = toLowerCase (js p)).
Proof.
  intros Hk. rewrite prefix_by_is_i, prefix_by_only.
  rewrite <- (toLowerCase_no_k _ Hk). unfold toLowerCase at 3.
  rewrite <- (length_map lower_unit (js p)). fold (toLowerCase (js p)).
  by rewrite prefix_lower_unit.
Qed.

Lemma includes_toLowerCase p s :
  no_k (toLowerCase (js p)) = true →
  includes (toLowerCase (js p)) (toLowerCase s)
  = anywhere (fun u => bool_decide (take (length (map Chars.lower (js p)))
                                         (map Chars.lower u)
                                    = map Chars.lower (js p))) s.
Proof.
  intros Hk. rewrite includes_anywhere. unfold toLowerCase at 3.
  rewrite <- (anywhere_map lower_unit
                (fun u => bool_decide (take (length (toLowerCase (js p))) u
                                       = toLowerCase (js p)))).
  apply anywhere_ext. intros u. rewrite prefix_lower_unit by done.
  by rewrite (toLowerCase_no_k _ Hk).
Qed.

(** A total continuation after a star never fails. *)
Lemma repeat_total step k : (∀ y, is_Some (k y)) → ∀ n x, is_Some (repeat step k n 0 x).
Proof.
  intros Hk n x. destruct n as [|n]; simpl; [done|].
  destruct (step x _); [eauto|done].
Qed.

(** The test of a character sequence, with or without [.*] and a group
    around it, is a search for the sequence. *)
Lemma match_at_chars ps b s :
  bool_decide (is_Some (match_at (cat (map Chr ps)) b s)) = prefix_by ps s.
Proof.
  unfold match_at. rewrite run_chars. destruct (prefix_by ps s).
  - by rewrite bool_decide_eq_true_2 by eauto.
  - rewrite bool_decide_eq_false_2; [done|]. by intros [? ?].
Qed.

Lemma match_at_chars_star ps a b s :
  bool_decide (is_Some (match_at (Seq (cat (map Chr ps)) (star a)) b s)) = prefix_by ps s.
Proof.
  unfold match_at. cbn [run]. rewrite run_chars. destruct (prefix_by ps s).
  - apply bool_decide_eq_true_2. cbn [run star]. by apply repeat_total.
  - rewrite bool_decide_eq_false_2; [done|]. by intros [? ?].
Qed.

Lemma match_at_grp_chars_star n ps a b s :
  bool_decide (is_Some (match_at (Grp n (Seq (cat (map Chr ps)) (star a))) b s))
  = prefix_by ps s.
Proof.
  unfold match_at. cbn [run]. rewrite run_chars. destruct (prefix_by ps s).
  - apply bool_decide_eq_true_2. cbn [run star]. by apply repeat_total.
  - rewrite bool_decide_eq_false_2; [done|]. by intros [? ?].
Qed.

Lemma test_lits sub s : test (lits sub) s = includes sub s.
Proof.
  rewrite includes_anywhere. unfold lits.
  rewrite <- (map_map Chars.only Chr).
  apply test_anywhere. intros b u. by rewrite match_at_chars, prefix_by_only.
Qed.

Lemma test_lit p s : test (lit p) s = includes (js p) s.
Proof. apply test_lits. Qed.

Lemma test_liti p s :
  no_k (toLowerCase (js p)) = true →
  test (liti p) s = includes (toLowerCase (js p)) (toLowerCase s).
Proof.
  intros Hk. rewrite includes_toLowerCase by done. unfold liti.
  rewrite <- (map_map Chars.is_i Chr).
  apply test_anywhere. intros b u.
  by rewrite match_at_chars, prefix_by_is_i, prefix_by_only.
Qed.

Lemma test_grp_lits_star n sub a s :
  test (Grp n (Seq (lits sub) (star a))) s = includes sub s.
Proof.
  rewrite includes_anywhere. unfold lits. rewrite <- (map_map Chars.only Chr).
  apply test_anywhere. intros b u. by rewrite match_at_grp_chars_star, prefix_by_only.
Qed.

Lemma test_liti_star p a s :
  no_k (toLowerCase (js p)) = true →
  test (Seq (liti p) (star a)) s = includes (toLowerCase (js p)) (toLowerCase s).
Proof.
  intros Hk. rewrite includes_toLowerCase by done. unfold liti.
  rewrite <- (map_map Chars.is_i Chr).
  apply test_anywhere. intros b u.
  by rewrite match_at_chars_star, prefix_by_is_i, prefix_by_only.
Qed.

(** *** Matches in a growing input *)

Lemma consumed_extend t x y :
  (length (rest y) ≤ length (rest x))%nat →
  consumed (extend t x) (extend t y) = consumed x y.
Proof.
  intros H. unfold consumed, extend. cbn [rest]. rewrite !length_app.
  replace (length (rest x) + length t - (length (rest y) + length t))%nat
    with (length (rest x) - length (rest y))%nat by lia.
  apply take_app_le. lia.
Qed.

Lemma repeat_extends t step k k' :
  (∀ x k1 k1' z, step x k1 = Some z →
     (∀ y z', k1 y = Some z' → (length (rest y) ≤ length (rest x))%nat →
        is_Some (k1' (extend t y))) →
     is_Some (step (extend t x) k1')) →
  ∀ n lo x z n', (lo ≤ n)%nat → (n ≤ n')%nat →
    repeat step k n lo x = Some z →
    (∀ y z', k y = Some z' → (length (rest y) ≤ length (rest x))%nat →
       is_Some (k' (extend t y))) →
    is_Some (repeat step k' n' lo (extend t x)).
Proof.
  intros Hstep n. induction n as [|n IH]; intros lo x z n' Hlo Hn H Hk; simpl in H.
  - assert (lo = 0%nat) as -> by lia.
    destruct n' as [|n']; simpl; [by eapply Hk|].
    destruct (step (extend t x) _); [eauto|]. by eapply Hk.
  - destruct n' as [|n']; [lia|]. simpl. destruct lo as [|lo].
    + destruct (step x _) as [z1|] eqn:Hs.
      * injection H as ->.
        destruct (Hstep x _ (fun y => if Nat.eqb 0 0
                                         && Nat.eqb (length (rest y)) (length (rest (extend t x)))
                                      then None else repeat step k' n' (Nat.pred 0) y)
                        z Hs) as [z2 Hz2].
        { intros y z' Hy Hlen. simpl in Hy |- *. rewrite !length_app.
          destruct (Nat.eqb_spec (length (rest y)) (length (rest x))) as [E|E];
            [discriminate|].
          destruct (Nat.eqb_spec (length (rest y) + length t) (length (rest x) + length t));
            [lia|].
          eapply (IH 0%nat y z' n'); [lia|lia|exact Hy|].
          intros y' z'' Hy' Hlen'. eapply Hk; [exact Hy'|lia]. }
        change (rest (extend t x)) with (rest x ++ t) in Hz2. rewrite Hz2. eauto.
      * destruct (step (extend t x) _); [eauto|]. by eapply Hk.
    + eapply (Hstep x _ _ z H).
      intros y z' Hy Hlen. simpl in Hy |- *.
      eapply (IH lo y z' n'); [lia|lia|exact Hy|].
      intros y' z'' Hy' Hlen'. eapply Hk; [exact Hy'|lia].
Qed.

Lemma run_extends t r : extensible r = true → well_formed r = true →
  ∀ x k k' z, run r x k = Some z →
    (∀ y z', k y = Some z' → (length (rest y) ≤ length (rest x))%nat →
       is_Some (k' (extend t y))) →
    is_Some (run r (extend t x) k').
Proof.
  induction r as [|p|a IHa b IHb|a IHa b IHb|lo hi a IHa|n a IHa|a IHa|ml|ml];
    intros He Hwf x k k' z H Hk; simpl in He, Hwf; try discriminate.
  - simpl in *. eapply Hk; [exact H|lia].
  - simpl in *. destruct (rest x) as [|c s] eqn:Hx; [discriminate|]. simpl.
    destruct (p c); [|discriminate].
    apply (Hk _ _ H). simpl. lia.
  - apply andb_true_iff in He as [Hea Heb]. apply andb_true_iff in Hwf as [Hwa Hwb].
    simpl in *. eapply (IHa Hea Hwa x _ _ z H).
    intros y z' Hy Hlen. eapply (IHb Heb Hwb y _ _ z' Hy).
    intros y' z'' Hy' Hlen'. eapply Hk; [exact Hy'|lia].
  - apply andb_true_iff in He as [Hea Heb]. apply andb_true_iff in Hwf as [Hwa Hwb].
    simpl in *. destruct (run a x k) as [z1|] eqn:Ha.
    + destruct (IHa Hea Hwa x k k' z1 Ha Hk) as [z2 ->]. eauto.
    + destruct (run a (extend t x) k'); [eauto|]. by eapply (IHb Heb Hwb x k k' z).
  - apply andb_true_iff in Hwf as [Hb Hwa]. simpl in H |- *.
    eapply (repeat_extends t (run a) k k'); [| | |exact H|exact Hk].
    + intros x1 k1 k1' z1. by apply IHa.
    + destruct hi as [h|]; [by apply Nat.leb_le|lia].
    + destruct hi as [h|]; [done|]. rewrite length_app. lia.
  - simpl in *. eapply (IHa He Hwf x _ _ z H).
    intros y z' Hy Hlen. cbn beta.
    rewrite (consumed_extend t x y Hlen).
    apply (Hk _ _ Hy). simpl. lia.
  - simpl in *. destruct (before x) as [c|]; [|by eapply Hk; [exact H|lia]].
    destruct (ml && _); [|discriminate]. eapply Hk; [exact H|lia].
Qed.

Lemma search_extends t r : extensible r = true → well_formed r = true →
  ∀ s b i, is_Some (search r b s i) → is_Some (search r b (s ++ t) i).
Proof.
  intros He Hwf s. induction s as [|c s IH]; intros b i [m H].
  - simpl in H. destruct (match_at r b []) as [e|] eqn:Hm; [|discriminate].
    destruct (run_extends t r He Hwf (Pos b [] []) Some Some e Hm) as [e' He'];
      [by eauto|].
    unfold extend in He'. simpl in He'.
    destruct t as [|c' t']; simpl; unfold match_at; rewrite He'; eauto.
  - simpl in H. simpl. destruct (match_at r b (c :: s)) as [e|] eqn:Hm.
    + destruct (run_extends t r He Hwf (Pos b (c :: s) []) Some Some e Hm) as [e' He'];
        [by eauto|].
      unfold extend in He'. simpl in He'. unfold match_at. rewrite He'. eauto.
    + destruct (match_at r b (c :: s ++ t)); [eauto|]. apply IH. eauto.
Qed.

(** *** Anchored patterns *)

Lemma search_bol r : ∀ s c i, search (Seq (Bol false) r) (Some c) s i = None.
Proof. induction s as [|a t IH]; intros c i; simpl; [done|apply IH]. Qed.

Lemma test_bol r s :
  test (Seq (Bol false) r) s = bool_decide (is_Some (match_at (Seq (Bol false) r) None s)).
Proof.
  unfold test, exec. destruct s as [|c t]; simpl.
  - by destruct (match_at _ None []).
  - destruct (match_at _ None (c :: t)); [done|]. by rewrite search_bol.
Qed.

Lemma greedy_total k :
  (∀ b c, is_Some (k (Pos b [] c))) → ∀ s b c, is_Some (greedy k b s c).
Proof.
  intros Hk s. induction s as [|a t IH]; intros b c; [apply Hk|].
  cbn [greedy]. by destruct (IH (Some a) c) as [z ->].
Qed.

Lemma run_plus_chr p b c t caps_ k :
  run (plus (Chr p)) (Pos b (c :: t) caps_) k
  = if p c then repeat (run (Chr p)) k (S (length t)) 0 (Pos (Some c) t caps_) else None.
Proof. cbn [run plus rest Nat.add length]. cbn [repeat run rest caps]. by destruct (p c). Qed.

(** The pattern of a decimal number: the whole string is one or more
    digits. *)
Lemma test_digits s :
  test (cat [Bol false; plus (Chr Chars.digit); Eol false]) s
  = match s with
    | [] => false
    | _ => forallb Chars.digit s
    end.
Proof.
  change (cat [Bol false; plus (Chr Chars.digit); Eol false])
    with (Seq (Bol false) (Seq (plus (Chr Chars.digit)) (Eol false))).
  rewrite test_bol. unfold match_at. cbn [run before].
  destruct s as [|c t]; [done|].
  destruct (forallb Chars.digit (c :: t)) eqn:Hall.
  - apply bool_decide_eq_true_2.
    assert (Forall (fun a => Chars.digit a = true) (c :: t)) as HF
      by (apply List.Forall_forall; by apply forallb_forall).
    apply Forall_cons in HF as [Hc Ht].
    cbn [run]. rewrite run_plus_chr, Hc, repeat_chr_greedy by (done || lia).
    by apply greedy_total.
  - apply bool_decide_eq_false_2. intros [z Hz]. cbn [run] in Hz.
    apply (run_sound (plus (Chr Chars.digit))) in Hz as (y & w & Hxy & Hw & Hk); [|done].
    cbn [run rest] in Hxy, Hk. destruct (rest y); [|done].
    rewrite app_nil_r in Hxy. subst w.
    apply (words_consumes_only (fun a => Chars.digit a = true)) in Hw;
      [|intros a Ha; exact Ha].
    assert (forallb Chars.digit (c :: t) = true) as Hall'
      by (apply forallb_forall; by apply List.Forall_forall).
    congruence.
Qed.

(** *** The leftmost match, and the star of a class at the end *)

Lemma search_first r (P : jsstring → bool) :
  (∀ b s, P s = bool_decide (is_Some (match_at r b s))) →
  ∀ s b i m, search r b s i = Some m →
    ∃ pre u b' e, s = pre ++ u ∧ match_at r b' u = Some e
                  ∧ m = result_at (i + length pre) u e
                  ∧ ∀ j, (j < length pre)%nat → P (drop j s) = false.
Proof.
  intros HP s. induction s as [|c t IH]; intros b i m H; simpl in H.
  - destruct (match_at r b []) as [e|] eqn:He; [|done]. injection H as <-.
    exists [], [], b, e. rewrite Nat.add_0_r. repeat split; try done. simpl. lia.
  - destruct (match_at r b (c :: t)) as [e|] eqn:He.
    + injection H as <-. exists [], (c :: t), b, e. rewrite Nat.add_0_r.
      repeat split; try done. simpl. lia.
    + apply IH in H as (pre & u & b' & e & -> & Hm & -> & Hfirst).
      exists (c :: pre), u, b', e. repeat split; try done.
      * f_equal. simpl. lia.
      * intros [|j] Hj.
        -- rewrite (HP b). simpl. rewrite He. done.
        -- apply Hfirst. simpl in Hj. lia.
Qed.

Lemma after_run_split p : ∀ s,
  ∃ run_, s = run_ ++ after_run p s ∧ Forall (fun c => p c = true) run_
          ∧ ∀ c, head (after_run p s) = Some c → p c = false.
Proof.
  induction s as [|c t (run_ & Hs & Hrun & Hhead)]; simpl.
  - exists []. by repeat split.
  - destruct (p c) eqn:Hc.
    + exists (c :: run_). repeat split; [simpl; by f_equal|by constructor|done].
    + exists []. repeat split; try done. by intros ? [= <-].
Qed.

Lemma repeat_chr_step p k n a t b c :
  repeat (run (Chr p)) k (S n) 0 (Pos b (a :: t) c)
  = if p a
    then match repeat (run (Chr p)) k n 0 (Pos (Some a) t c) with
         | Some z => Some z
         | None => k (Pos b (a :: t) c)
         end
    else k (Pos b (a :: t) c).
Proof.
  cbn [repeat run rest caps Nat.eqb andb]. destruct (p a); [|done].
  replace (Nat.eqb (length t) (length (a :: t))) with false
    by (symmetry; apply Nat.eqb_neq; simpl; lia).
  reflexivity.
Qed.

Lemma star_chr_end p : ∀ s n b c,
  (length s ≤ n)%nat →
  ∃ b', repeat (run (Chr p)) Some n 0 (Pos b s c) = Some (Pos b' (after_run p s) c).
Proof.
  induction s as [|a t IH]; intros n b c Hn.
  - destruct n; simpl; eauto.
  - destruct n as [|n]; [simpl in Hn; lia|].
    rewrite repeat_chr_step. cbn [after_run]. destruct (p a); [|eauto].
    destruct (IH n (Some a) c) as [b' ->]; [simpl in Hn; lia|]. eauto.
Qed.

(** The star of a class that meets the end of a run of the class, where
    the continuation succeeds. *)
Lemma star_chr_stops p k z : ∀ run_ post n b c,
  (length (run_ ++ post) ≤ n)%nat →
  Forall (fun a => p a = true) run_ →
  (∀ a, head post = Some a → p a = false) →
  k (Pos (before_after b run_) post c) = Some z →
  repeat (run (Chr p)) k n 0 (Pos b (run_ ++ post) c) = Some z.
Proof.
  induction run_ as [|a r IH]; intros post n b c Hn Hrun Hpost Hk; cbn [app before_after] in *.
  - destruct n as [|n]; [done|]. destruct post as [|a t]; [by cbn; rewrite Hk|].
    rewrite repeat_chr_step. by rewrite (Hpost a eq_refl).
  - destruct n as [|n]; [simpl in Hn; lia|].
    apply Forall_cons in Hrun as [Ha Hrun].
    rewrite repeat_chr_step, Ha. rewrite (IH post n (Some a) c); try done.
    simpl in Hn. lia.
Qed.

Lemma anywhere_app_l P t : ∀ pre, anywhere P t = true → anywhere P (pre ++ t) = true.
Proof.
  induction pre as [|c pre IH]; intros H; [done|]. simpl. rewrite IH by done.
  apply orb_true_r.
Qed.

Lemma search_suffix r : ∀ s b i m, search r b s i = Some m →
  ∃ pre u b' e, s = pre ++ u ∧ match_at r b' u = Some e.
Proof.
  induction s as [|c t IH]; intros b i m H; simpl in H.
  - destruct (match_at r b []) as [e|] eqn:He; [|done]. by exists [], [], b, e.
  - destruct (match_at r b (c :: t)) as [e|] eqn:He; [by exists [], (c :: t), b, e|].
    apply IH in H as (pre & u & b' & e & -> & Hm). by exists (c :: pre), u, b', e.
Qed.

(** The leftmost match is at the first position where there is one. *)
Lemma search_at r : ∀ pre u b i e,
  (∀ j b', (j < length pre)%nat → match_at r b' (drop j (pre ++ u)) = None) →
  match_at r (before_after b pre) u = Some e →
  search r b (pre ++ u) i = Some (result_at (i + length pre) u e).
Proof.
  induction pre as [|c pre IH]; intros u b i e Hnone Hm; cbn [app before_after length] in *.
  - rewrite Nat.add_0_r. destruct u; simpl; by rewrite Hm.
  - pose proof (Hnone 0%nat b ltac:(lia)) as H0. rewrite drop_0 in H0.
    cbn [search]. rewrite H0.
    rewrite (IH u (Some c) (S i) e); [f_equal; f_equal; lia| |done].
    intros j b' Hj. apply (Hnone (S j) b'). lia.
Qed.

(** What [test] has found once, it finds in every longer input. *)
Lemma test_extends r s t : extensible r = true → well_formed r = true →
  test r s = true → test r (s ++ t) = true.
Proof.
  intros He Hwf H. apply bool_decide_eq_true_1 in H. apply bool_decide_eq_true_2.
  by apply search_extends.
Qed.

(** *** Splitting at a character *)

Lemma split_go_plain c : ∀ s b cur,
  Forall (fun a => a ≠ c) s → split_go (lits [c]) b s 0 cur = [rev cur ++ s].
Proof.
  induction s as [|a t IH]; intros b cur Hs; cbn [split_go].
  - by rewrite app_nil_r.
  - apply Forall_cons in Hs as [Ha Hs].
    unfold match_at, lits. cbn [map cat run rest]. unfold Chars.only.
    destruct (N.eqb_spec c a) as [->|_]; [done|].
    rewrite IH by done. cbn [rev]. by rewrite <- app_assoc.
Qed.

Lemma split_go_at c : ∀ h b cur t,
  Forall (fun a => a ≠ c) h →
  split_go (lits [c]) b (h ++ c :: t) 0 cur
  = (rev cur ++ h) :: split_go (lits [c]) (Some c) t 0 [].
Proof.
  induction h as [|a h IH]; intros b cur t Hh; cbn [app split_go].
  - unfold match_at, lits. cbn [map cat run rest caps]. unfold Chars.only.
    rewrite N.eqb_refl. cbn [rest length].
    replace (S (length t) - length t)%nat with 1%nat by lia.
    by rewrite app_nil_r.
  - apply Forall_cons in Hh as [Ha Hh].
    unfold match_at, lits. cbn [map cat run rest]. unfold Chars.only.
    destruct (N.eqb_spec c a) as [->|_]; [done|].
    fold (lits [c]). rewrite IH by done. cbn [rev]. by rewrite <- app_assoc.
Qed.

Lemma split_host_port c host port_ :
  Forall (fun a => a ≠ c) host → Forall (fun a => a ≠ c) port_ →
  JS.split [c] (host ++ [c] ++ port_) = [host; port_].
Proof.
  intros Hh Hp. unfold JS.split, Regex.split.
  destruct (host ++ [c] ++ port_) as [|a l] eqn:E; [by destruct host|].
  rewrite <- E. cbn [app]. rewrite split_go_at by done.
  by rewrite split_go_plain.
Qed.

Lemma split_plain c s : Forall (fun a => a ≠ c) s → JS.split [c] s = [s].
Proof.
  intros Hs. unfold JS.split, Regex.split. destruct s as [|a l]; [done|].
  by rewrite split_go_plain.
Qed.

End RegexFacts.

(** ** Escape sequences in the dev server URLs *)
Module StripAnsi.
Import Regex RegexFacts AppLauncher Notions.

Lemma ansiRegex_head :
  ansiRegex = Seq (Chr (Chars.one_of [ESC; CSI])) (tail_of ansiRegex).
Proof. reflexivity. Qed.

Ltac no_introducer :=
  let c := fresh "c" in
  let H := fresh "H" in
  intros c H; unfold introducer, Chars.one_of; simpl;
  destruct (N.eqb_spec c ESC) as [->|_]; [vm_compute in H; discriminate|];
  destruct (N.eqb_spec c CSI) as [->|_]; [vm_compute in H; discriminate|];
  reflexivity.

Lemma ansiRegex_tail_plain :
  consumes_only (fun c => introducer c = false) (tail_of ansiRegex).
Proof. simpl. repeat split; no_introducer. Qed.

(** The match does not look at what precedes it. *)
Lemma match_at_ansiRegex_before b b' s :
  match_at ansiRegex b s = match_at ansiRegex b' s.
Proof. destruct s; reflexivity. Qed.

Lemma match_at_ansiRegex_plain b c s :
  introducer c = false → match_at ansiRegex b (c :: s) = None.
Proof.
  intros H. unfold match_at. rewrite ansiRegex_head. cbn [run rest].
  unfold introducer in H. by rewrite H.
Qed.

(** A match is an introducer followed by at least one code unit, none of
    which is an introducer. *)
Lemma match_at_ansiRegex_shape b s e :
  match_at ansiRegex b s = Some e →
  ∃ c w, s = c :: w ++ rest e ∧ introducer c = true
         ∧ Forall (fun c => introducer c = false) w ∧ (1 ≤ length w)%nat.
Proof.
  intros H. apply match_at_words in H as (w0 & Hs & Hw); [|reflexivity].
  rewrite ansiRegex_head in Hw. inversion Hw as [| |a b0 u v Hu Hv| | | | | | | |]; subst.
  inversion Hu; subst.
  exists c, v. split; [done|]. split; [done|]. split.
  - eapply words_consumes_only; [apply ansiRegex_tail_plain|done].
  - apply words_min_len in Hv. exact Hv.
Qed.

Lemma gsub_ansiRegex_plain s :
  ∀ b skip, sequences_complete s →
    Forall (fun c => introducer c = false) (gsub ansiRegex [] b s skip).
Proof.
  induction s as [|c t IH]; intros b skip Hs; cbn [gsub].
  - destruct skip; [destruct (match_at _ _ _)|]; constructor.
  - assert (sequences_complete t) as Ht.
    { intros i d Hi Hd. exact (Hs (S i) d Hi Hd). }
    destruct skip as [|n]; [|by apply IH].
    destruct (match_at ansiRegex b (c :: t)) as [e|] eqn:Hm.
    + apply match_at_ansiRegex_shape in Hm as (c' & w & Heq & _ & _ & Hlen).
      injection Heq as <- Heq.
      assert (length (c :: t) - length (rest e) = S (length w))%nat as ->
        by (rewrite Heq; cbn [length]; rewrite length_app; lia).
      by apply IH.
    + constructor; [|by apply IH].
      destruct (introducer c) eqn:Hc; [|done].
      destruct (Hs 0%nat c eq_refl Hc) as [e He]. simpl in He.
      rewrite (match_at_ansiRegex_before b None) in Hm. congruence.
Qed.

Lemma gsub_ansiRegex_id s :
  Forall (fun c => introducer c = false) s → ∀ b, gsub ansiRegex [] b s 0 = s.
Proof.
  induction 1 as [|c t Hc Ht IH]; intros b; cbn [gsub].
  - by destruct (match_at _ _ _).
  - rewrite (match_at_ansiRegex_plain b c t Hc). by rewrite IH.
Qed.

(** A string without ESC and CSI is left as it is. *)
Lemma stripAnsi_plain s :
  Forall (fun c => introducer c = false) s → stripAnsi s = s.
Proof. intros H. by apply gsub_ansiRegex_id. Qed.

(** C8, as the code has it: stripping is idempotent on every string in
    which each ESC or CSI begins an escape sequence; what is left then
    holds no ESC or CSI at all, and a second pass changes nothing. *)
Theorem stripAnsi_idempotent_on_complete (s : jsstring) :
  sequences_complete s →
  stripAnsi (stripAnsi s) = stripAnsi s
  ∧ Forall (fun c => introducer c = false) (stripAnsi s).
Proof.
  intros Hs.
  assert (Forall (fun c => introducer c = false) (stripAnsi s)) as H
    by (by apply gsub_ansiRegex_plain).
  split; [by apply stripAnsi_plain|done].
Qed.

Lemma coloured_url_complete : sequences_complete coloured_url.
Proof.
  intros i c Hi Hc.
  assert (i < length coloured_url)%nat as Hlt by (by eapply lookup_lt_Some).
  assert (i = 0 ∨ i = 26)%nat as [-> | ->].
  { vm_compute in Hlt.
    do 31 (destruct i as [|i]; [vm_compute in Hi; injection Hi as <-;
             first [by left | by right | vm_compute in Hc; discriminate]|]).
    lia. }
  all: vm_compute; eauto.
Qed.

Lemma stripAnsi_idempotent_witness :
  sequences_complete coloured_url
  ∧ stripAnsi (stripAnsi coloured_url) = stripAnsi coloured_url
  ∧ stripAnsi coloured_url = js "http://localhost:8100".
Proof.
  split; [exact coloured_url_complete|].
  split; [exact (proj1 (stripAnsi_idempotent_on_complete coloured_url coloured_url_complete))|].
  reflexivity.
Defined.

(** C8 as stated fails: an ESC that begins no sequence, in front of a
    complete one, is joined by the first pass with what follows the
    sequence, and the second pass removes the new sequence. *)
Lemma stripAnsi_not_idempotent :
  let s := js "http://localhost:8100" ++ [ESC; ESC] ++ js "[0m[0m" in
  stripAnsi s = js "http://localhost:8100" ++ [ESC] ++ js "[0m"
  ∧ stripAnsi (stripAnsi s) = js "http://localhost:8100"
  ∧ stripAnsi (stripAnsi s) ≠ stripAnsi s.
Proof. vm_compute. repeat split. discriminate. Qed.

End StripAnsi.


(** ** The readiness detector *)
Module Detector.
Import Regex RegexFacts AppLauncher Notions.

(** The captures that the handler reads take part in every match. *)
Lemma SERVER_URL_RE_url out m :
  exec SERVER_URL_RE out = Some m → group 2 m = Some (capture 2 m).
Proof.
  intros H. apply (exec_binds 2) in H as [u Hu]; [|done].
  unfold capture. by rewrite Hu.
Qed.

Lemma externalUrlsRegex_urls out m :
  exec externalUrlsRegex out = Some m → group 1 m = Some (capture 1 m).
Proof.
  intros H. apply (exec_binds 1) in H as [u Hu]; [|done].
  unfold capture. by rewrite Hu.
Qed.

(** The candidate addresses are the matched texts, as they were printed. *)
Lemma candidateAddresses_verbatim out :
  candidateAddresses out = map matched (match_all addressRegex out).
Proof.
  unfold candidateAddresses, match_all.
  apply map_ext_in. intros m Hm. apply list_elem_of_In in Hm.
  apply scan_match_at in Hm as (b' & s' & i' & e & He & ->).
  unfold capture. by rewrite (match_at_group 1 _ b' s' e i' He).
Qed.

Lemma reject_not_pending {A} e (d : deferred A) : reject e d ≠ Pending.
Proof. by destruct d. Qed.

Lemma resolve_not_pending {A} v (d : deferred A) : resolve v d ≠ Pending.
Proof. by destruct d. Qed.

Lemma reject_resolved {A} e (d : deferred A) : is_resolved (reject e d) → is_resolved d.
Proof. destruct d as [|w|e']; simpl; intros [u H]; [discriminate|by exists w|discriminate]. Qed.

Lemma join_cons sep x l :
  join sep (x :: l) = x ++ concat (map (fun a => sep ++ a) l).
Proof.
  revert x. induction l as [|y l IH]; intros x.
  - simpl. by rewrite app_nil_r.
  - change (join sep (x :: y :: l)) with (x ++ sep ++ join sep (y :: l)).
    rewrite IH. simpl. by rewrite <- !app_assoc.
Qed.

Section Session.
Variable EOL : jsstring.
Variable isIonic4 : bool.
Variable cliArgs : list jsstring.

Ltac blocks :=
  unfold serverOutputHandler, appendOutput, announceServer, announceApp,
    rejectOnMultipleInterfaces, rejectOnError, serverErrorOutputHandler;
  cbn [serverOut serverErr serverReady appReady serverDeferred appDeferred logged
       fst snd negb andb orb].

Lemma appendOutput_ordered s data : ordered s → ordered (appendOutput s data).
Proof. done. Qed.

Lemma announceServer_ordered m s : ordered s → ordered (announceServer m s).
Proof.
  intros [H1 H2]. unfold announceServer. destruct (_ && _); [|done].
  split; simpl; [intros _; apply resolve_not_pending|done].
Qed.

Lemma announceApp_ordered m s : ordered s → ordered (fst (announceApp cliArgs m s)).
Proof.
  intros H. unfold announceApp.
  destruct (_ && _ && _) eqn:Hc; [|done].
  apply andb_true_iff in Hc as [Hc _]. apply andb_true_iff in Hc as [Hr _].
  destruct H as [H1 H2]. split; simpl; auto.
Qed.

Lemma rejectOnMultipleInterfaces_ordered s :
  ordered s → ordered (rejectOnMultipleInterfaces EOL s).
Proof.
  intros [H1 H2]. unfold rejectOnMultipleInterfaces. destruct (test _ _); [|done].
  split; simpl; [intros _; apply reject_not_pending|done].
Qed.

Lemma rejectOnError_ordered channel s :
  ordered s → ordered (rejectOnError EOL isIonic4 channel s).
Proof.
  intros [H1 H2]. unfold rejectOnError. destruct (getServerErrorMessage _ _ _); [|done].
  split; simpl; [done|]. intros H. by apply H2, (reject_resolved (Error l)).
Qed.

Lemma serverOutputHandler_ordered s data :
  ordered s → ordered (fst (serverOutputHandler EOL isIonic4 cliArgs s data)).
Proof.
  intros H. unfold serverOutputHandler.
  pose proof (announceApp_ordered (exec SERVER_URL_RE (serverOut (appendOutput s data)))
                _ (announceServer_ordered (exec SERVER_URL_RE (serverOut (appendOutput s data)))
                     _ (appendOutput_ordered s data H))) as H'.
  destruct (announceApp _ _ _) as [s' [|e]]; simpl in *; [|done].
  by apply rejectOnError_ordered, rejectOnMultipleInterfaces_ordered.
Qed.

Lemma serverErrorOutputHandler_ordered s data :
  ordered s → ordered (serverErrorOutputHandler EOL isIonic4 s data).
Proof. intros H. unfold serverErrorOutputHandler. by apply rejectOnError_ordered. Qed.

Lemma onEvent_ordered s ev :
  ordered s → ordered (onEvent EOL isIonic4 cliArgs s ev).
Proof.
  intros H. destruct ev as [data|data]; unfold onEvent.
  - by apply serverOutputHandler_ordered.
  - set (A := match serverOutputHandler EOL isIonic4 cliArgs s data with
              | (s', Normal) => serverErrorOutputHandler EOL isIonic4 s' data
              | (s', Thrown _) => s'
              end).
    set (B := serverErrorOutputHandler EOL isIonic4 s data).
    assert (ordered A) as HA.
    { subst A. pose proof (serverOutputHandler_ordered s data H) as H'.
      destruct (serverOutputHandler EOL isIonic4 cliArgs s data) as [s' [|e]]; simpl in H';
        [by apply serverErrorOutputHandler_ordered|done]. }
    assert (ordered B) as HB by (by apply serverErrorOutputHandler_ordered).
    clearbody A B. by destruct isIonic4.
Qed.

Lemma onEvents_ordered evs : ∀ s,
  ordered s → ordered (onEvents EOL isIonic4 cliArgs s evs).
Proof.
  unfold onEvents. induction evs as [|ev evs IH]; intros s H; simpl; [done|].
  apply IH. by apply onEvent_ordered.
Qed.

Lemma newSession_ordered : ordered newSession.
Proof. split; simpl; [done|]. by intros [? ?]. Qed.

(** Never the reverse: in whatever way the output arrives, on both
    channels, [appDeferred] is not resolved while [serverDeferred] is
    pending. *)
Lemma appReady_not_before_serverReady evs :
  let s := onEvents EOL isIonic4 cliArgs newSession evs in
  is_resolved (appDeferred s) → serverDeferred s ≠ Pending.
Proof.
  intros s Hres.
  destruct (onEvents_ordered evs newSession newSession_ordered) as [H1 H2]. auto.
Qed.

(** *** One chunk of standard output in each phase *)

Lemma announceServer_none s : announceServer None s = s.
Proof.
  unfold announceServer. rewrite (bool_decide_eq_false_2 (is_Some None)).
  - by rewrite andb_false_r.
  - by intros [? ?].
Qed.

Lemma announceServer_set s : serverReady s = true → ∀ m, announceServer m s = s.
Proof. intros H m. unfold announceServer. by rewrite H. Qed.

Lemma announceServer_first s m :
  serverReady s = false →
  announceServer (Some m) s =
    {| serverOut := serverOut s; serverErr := serverErr s;
       serverReady := true; appReady := appReady s;
       serverDeferred := resolve None (serverDeferred s); appDeferred := appDeferred s;
       logged := logged s |}.
Proof.
  intros H. unfold announceServer. rewrite H.
  by rewrite (bool_decide_eq_true_2 (is_Some (Some m))) by eauto.
Qed.

Lemma announceApp_unready s m :
  serverReady s = false → announceApp cliArgs m s = (s, Normal).
Proof. intros H. unfold announceApp. by rewrite H. Qed.

Lemma announceApp_deploying s m :
  isServe cliArgs = false →
  test (getRegexToResolveAppDefer cliArgs) (serverOut s) = false →
  announceApp cliArgs m s = (s, Normal).
Proof. intros H1 H2. unfold announceApp. by rewrite H1, H2, andb_false_r. Qed.

Lemma announceApp_ready s m :
  serverReady s = true → appReady s = false →
  test (getRegexToResolveAppDefer cliArgs) (serverOut s) = true →
  announceApp cliArgs (Some m) s =
    ({| serverOut := serverOut s; serverErr := serverErr s;
        serverReady := serverReady s; appReady := true;
        serverDeferred := serverDeferred s;
        appDeferred := resolve (serverUrls m (serverOut s)) (appDeferred s);
        logged := logged s |}, Normal).
Proof. intros H1 H2 H3. unfold announceApp. by rewrite H1, H2, H3, orb_true_r. Qed.

Ltac fields :=
  cbn [appendOutput serverOut serverErr serverReady appReady serverDeferred
       appDeferred logged fst snd].

Lemma step_waiting s data :
  waiting s → silent EOL isIonic4 (serverOut s ++ data) →
  let s' := fst (serverOutputHandler EOL isIonic4 cliArgs s data) in
  waiting s' ∧ serverOut s' = serverOut s ++ data.
Proof.
  intros (Hr & Ha & Hs & Hp) (Hu & Hm & He). unfold serverOutputHandler.
  fields. rewrite Hu, announceServer_none.
  rewrite announceApp_unready by done.
  unfold rejectOnMultipleInterfaces. fields. rewrite Hm.
  unfold rejectOnError. fields. rewrite He. by repeat split.
Qed.

Lemma step_announce s data :
  waiting s → isServe cliArgs = false →
  is_Some (exec SERVER_URL_RE (serverOut s ++ data)) →
  deploying EOL isIonic4 cliArgs (serverOut s ++ data) →
  let s' := fst (serverOutputHandler EOL isIonic4 cliArgs s data) in
  serving s' ∧ serverOut s' = serverOut s ++ data.
Proof.
  intros (Hr & Ha & Hs & Hp) Hserve [m Hu] (Hd & He). unfold serverOutputHandler.
  fields. rewrite Hu, announceServer_first by done. fields.
  rewrite announceApp_deploying by done.
  unfold rejectOnMultipleInterfaces. fields. rewrite Hs, Hp.
  destruct (test multipleInterfacesRegex _);
    unfold rejectOnError; fields; rewrite He; by repeat split.
Qed.

Lemma step_serving s data :
  serving s → isServe cliArgs = false →
  deploying EOL isIonic4 cliArgs (serverOut s ++ data) →
  let s' := fst (serverOutputHandler EOL isIonic4 cliArgs s data) in
  serving s' ∧ serverOut s' = serverOut s ++ data.
Proof.
  intros (Hr & Ha & Hs & Hp) Hserve (Hd & He). unfold serverOutputHandler.
  fields. rewrite announceServer_set by done.
  rewrite announceApp_deploying by done.
  unfold rejectOnMultipleInterfaces. fields. rewrite Hs.
  destruct (test multipleInterfacesRegex _);
    unfold rejectOnError; fields; rewrite He; by repeat split.
Qed.

Lemma step_ready s data m :
  serving s →
  test (getRegexToResolveAppDefer cliArgs) (serverOut s ++ data) = true →
  exec SERVER_URL_RE (serverOut s ++ data) = Some m →
  let s' := fst (serverOutputHandler EOL isIonic4 cliArgs s data) in
  serverDeferred s' = Resolved None
  ∧ appDeferred s' = Resolved (serverUrls m (serverOut s ++ data)).
Proof.
  intros (Hr & Ha & Hs & Hp) Hd Hu. unfold serverOutputHandler.
  fields. rewrite Hu, announceServer_set by done.
  rewrite announceApp_ready by done. fields.
  unfold rejectOnMultipleInterfaces. fields. rewrite Hs, Hp.
  destruct (test multipleInterfacesRegex _);
    unfold rejectOnError; fields;
    destruct (getServerErrorMessage _ _ _); by repeat split.
Qed.

(** *** Several chunks *)

Lemma feed_cons s c l :
  feed EOL isIonic4 cliArgs s (c :: l)
  = feed EOL isIonic4 cliArgs (fst (serverOutputHandler EOL isIonic4 cliArgs s c)) l.
Proof. reflexivity. Qed.

Lemma feed_app s l1 l2 :
  feed EOL isIonic4 cliArgs s (l1 ++ l2)
  = feed EOL isIonic4 cliArgs (feed EOL isIonic4 cliArgs s l1) l2.
Proof. unfold feed, onEvents. by rewrite map_app, fold_left_app. Qed.

Lemma feed_waiting l : ∀ s,
  waiting s → Forall (silent EOL isIonic4) (outputs (serverOut s) l) →
  waiting (feed EOL isIonic4 cliArgs s l)
  ∧ serverOut (feed EOL isIonic4 cliArgs s l) = serverOut s ++ concat l.
Proof.
  induction l as [|c l IH]; intros s Hw Hl.
  - split; [done|]. simpl. by rewrite app_nil_r.
  - simpl in Hl. apply Forall_cons in Hl as [Hc Hl]. rewrite feed_cons.
    destruct (step_waiting s c Hw Hc) as [Hw' Ho'].
    rewrite <- Ho' in Hl. destruct (IH _ Hw' Hl) as [? Ho''].
    split; [done|]. rewrite Ho'', Ho'. simpl. by rewrite <- app_assoc.
Qed.

Lemma feed_serving l : ∀ s,
  serving s → isServe cliArgs = false →
  Forall (deploying EOL isIonic4 cliArgs) (outputs (serverOut s) l) →
  serving (feed EOL isIonic4 cliArgs s l)
  ∧ serverOut (feed EOL isIonic4 cliArgs s l) = serverOut s ++ concat l.
Proof.
  induction l as [|c l IH]; intros s Hw Hserve Hl.
  - split; [done|]. simpl. by rewrite app_nil_r.
  - simpl in Hl. apply Forall_cons in Hl as [Hc Hl]. rewrite feed_cons.
    destruct (step_serving s c Hw Hserve Hc) as [Hw' Ho'].
    rewrite <- Ho' in Hl. destruct (IH _ Hw' Hserve Hl) as [? Ho''].
    split; [done|]. rewrite Ho'', Ho'. simpl. by rewrite <- app_assoc.
Qed.

Lemma onStdout_feed chunks :
  onStdout EOL isIonic4 cliArgs chunks = feed EOL isIonic4 cliArgs newSession chunks.
Proof. reflexivity. Qed.

Lemma newSession_waiting : waiting newSession.
Proof. by repeat split. Qed.

(** C1, as the code has it.  In a sequence of standard output chunks let
    [c] be the first chunk with which the output announces the server URL
    and [d] a later chunk, the first with which the output matches the
    app-ready pattern, no error and no interface prompt having been printed
    before.  Then both futures are pending before [c]; with [c]
    [serverDeferred] is resolved, with [undefined] and not with the URL,
    while [appDeferred] stays pending; with [d] [appDeferred] is resolved
    with the URLs read from the output, the announced one first.  The
    promise of [startIonicDevServer] is then fulfilled with these URLs,
    without their escape sequences, unless the time of a wait has run out
    before: when the first wait had timed out before [c] came, or the
    second one before [d] came, the promise is rejected with the message
    of that wait.  And in whatever way output arrives, on either channel,
    at no moment is [appDeferred] resolved while [serverDeferred] is
    pending. *)
Theorem serverReady_then_appReady (pre mid : list jsstring) (c d : jsstring) (m : result) :
  isServe cliArgs = false →
  Forall (silent EOL isIonic4) (outputs [] pre) →
  is_Some (exec SERVER_URL_RE (concat pre ++ c)) →
  Forall (deploying EOL isIonic4 cliArgs)
         ((concat pre ++ c) :: outputs (concat pre ++ c) mid) →
  test (getRegexToResolveAppDefer cliArgs) (concat pre ++ c ++ concat mid ++ d) = true →
  exec SERVER_URL_RE (concat pre ++ c ++ concat mid ++ d) = Some m →
  let s0 := onStdout EOL isIonic4 cliArgs pre in
  let s1 := onStdout EOL isIonic4 cliArgs (pre ++ [c]) in
  let s2 := onStdout EOL isIonic4 cliArgs (pre ++ c :: mid ++ [d]) in
  (serverDeferred s0 = Pending ∧ appDeferred s0 = Pending)
  ∧ (serverDeferred s1 = Resolved None ∧ appDeferred s1 = Pending)
  ∧ (serverDeferred s2 = Resolved None
     ∧ appDeferred s2
       = Resolved (serverUrls m (concat pre ++ c ++ concat mid ++ d))
     ∧ head (serverUrls m (concat pre ++ c ++ concat mid ++ d)) = group 2 m)
  ∧ (∀ devServerTimeout,
       ionicDevServerUrls devServerTimeout false false s2
       = Resolved (map stripAnsi (serverUrls m (concat pre ++ c ++ concat mid ++ d)))
       ∧ (∀ appReadyExpired,
            ionicDevServerUrls devServerTimeout true appReadyExpired s2
            = Rejected (SystemError (js "ETIMEDOUT") (serverReadyTimedOut devServerTimeout)))
       ∧ ionicDevServerUrls devServerTimeout false true s2
         = Rejected (SystemError (js "ETIMEDOUT") (appReadyTimedOut devServerTimeout)))
  ∧ (∀ evs, let s := onEvents EOL isIonic4 cliArgs newSession evs in
            is_resolved (appDeferred s) → serverDeferred s ≠ Pending).
Proof.
  intros Hserve Hpre Hc Hmid Hd Hm s0 s1 s2.
  apply Forall_cons in Hmid as [Hc' Hmid].
  destruct (feed_waiting pre newSession newSession_waiting Hpre) as [Hw0 Ho0].
  simpl in Ho0. fold s0 in Hw0, Ho0.
  assert (serving s1 ∧ serverOut s1 = concat pre ++ c) as [Hw1 Ho1].
  { subst s1. rewrite onStdout_feed, feed_app. fold (onStdout EOL isIonic4 cliArgs pre).
    fold s0. rewrite feed_cons. cbn [feed onEvents map fold_left].
    rewrite <- Ho0 in Hc, Hc' |- *. by apply step_announce. }
  assert (s2 = feed EOL isIonic4 cliArgs (feed EOL isIonic4 cliArgs s1 mid) [d]) as Hs2.
  { subst s2 s1. rewrite !onStdout_feed.
    change (pre ++ c :: mid ++ [d]) with (pre ++ [c] ++ mid ++ [d]).
    by rewrite !app_assoc, !feed_app. }
  rewrite <- Ho1 in Hmid.
  destruct (feed_serving mid s1 Hw1 Hserve Hmid) as [Hw2 Ho2].
  rewrite Ho1 in Ho2.
  assert (serverOut (feed EOL isIonic4 cliArgs s1 mid) ++ d
          = concat pre ++ c ++ concat mid ++ d) as Hod
    by (rewrite Ho2; by rewrite <- !app_assoc).
  rewrite <- Hod in Hd, Hm |- *.
  destruct (step_ready _ d m Hw2 Hd Hm) as [Hsd Had].
  split; [by destruct Hw0 as (_ & _ & ? & ?)|].
  split; [by destruct Hw1 as (_ & _ & ? & ?)|].
  assert (serverDeferred s2 = Resolved None
          ∧ appDeferred s2
            = Resolved (serverUrls m (serverOut (feed EOL isIonic4 cliArgs s1 mid) ++ d)))
    as [Hsd2 Had2] by (by rewrite Hs2).
  split; [|split].
  { split; [done|]. split; [done|].
    rewrite Hod in Hm. by rewrite (SERVER_URL_RE_url _ m Hm). }
  { intros devServerTimeout. unfold ionicDevServerUrls, Q_timeout.
    rewrite Hsd2, Had2. unfold serverUrls at 1 2. by repeat split. }
  intros evs s. apply appReady_not_before_serverReady.
Qed.

(** C7, as the code has it.  When, in a session reached in any way, a
    chunk makes the standard output match the interface prompt while
    [serverDeferred] is pending and the output announces no server URL,
    [serverDeferred] is rejected.  The message of the error is the advice
    to set [devServerAddress], followed, when the output so far holds
    candidate addresses (the matches of [addressRegex]), by each of them
    as it was printed, one per line. *)
Theorem multipleInterfaces_rejects_pending_serverReady
    (evs : list ProcessEvent) (data : jsstring) :
  let s := onEvents EOL isIonic4 cliArgs newSession evs in
  let out := serverOut s ++ data in
  serverDeferred s = Pending →
  exec SERVER_URL_RE out = None →
  test multipleInterfacesRegex out = true →
  serverDeferred (fst (serverOutputHandler EOL isIonic4 cliArgs s data))
    = Rejected (Error (multipleInterfacesMessage EOL out))
  ∧ multipleInterfacesMessage EOL out
    = multipleInterfacesAdvice ++
      match candidateAddresses out with
      | [] => []
      | addresses =>
          js " Available addresses:"
          ++ concat (map (fun a => (EOL ++ js " ") ++ a) addresses)
      end
  ∧ candidateAddresses out = map matched (match_all addressRegex out)
  ∧ includes (js "devServerAddress") multipleInterfacesAdvice = true.
Proof.
  intros s out Hs Hu Hm.
  destruct (onEvents_ordered evs newSession newSession_ordered) as [H1 _].
  fold s in H1.
  assert (serverReady s = false) as Hr.
  { destruct (serverReady s); [|done]. by destruct H1. }
  split; [|split; [|split; [apply candidateAddresses_verbatim|]]].
  - unfold serverOutputHandler. fields. fold out. rewrite Hu, announceServer_none.
    rewrite announceApp_unready by done.
    unfold rejectOnMultipleInterfaces. fields. fold out. rewrite Hm, Hs.
    unfold rejectOnError. fields. by destruct (getServerErrorMessage _ _ _).
  - unfold multipleInterfacesMessage.
    destruct (candidateAddresses out) as [|a l]; simpl length.
    + by rewrite app_nil_r.
    + change (0 <? S (length l))%nat with true. cbv iota. by rewrite join_cons.
  - by vm_compute.
Qed.

End Session.

Lemma serverReady_then_appReady_witness :
  let s1 := onStdout [LF] false androidLiveReloadArgs [announcement] in
  let s2 := onStdout [LF] false androidLiveReloadArgs [announcement; launched] in
  (isServe androidLiveReloadArgs = false
   ∧ is_Some (exec SERVER_URL_RE announcement)
   ∧ test (getRegexToResolveAppDefer androidLiveReloadArgs) announcement = false
   ∧ test (getRegexToResolveAppDefer androidLiveReloadArgs) (announcement ++ launched) = true)
  ∧ (serverDeferred s1 = Resolved None ∧ appDeferred s1 = Pending)
  ∧ (serverDeferred s2 = Resolved None
     ∧ appDeferred s2 = Resolved [js "http://localhost:8100"]
     ∧ ionicDevServerUrls None false false s2 = Resolved [js "http://localhost:8100"]
     ∧ ionicDevServerUrls None true false s2
       = Rejected (SystemError (js "ETIMEDOUT")
                  (js "Starting the Ionic dev server timed out (30000 ms)"))).
Proof.
  intros s1 s2.
  split; [repeat split; vm_compute; eauto|].
  destruct (exec SERVER_URL_RE (concat [] ++ announcement ++ concat [] ++ launched))
    as [m|] eqn:Hm; [|by vm_compute in Hm].
  assert (isServe androidLiveReloadArgs = false) as Hserve by reflexivity.
  assert (is_Some (exec SERVER_URL_RE (concat [] ++ announcement))) as Hc
    by (vm_compute; eauto).
  assert (Forall (deploying [LF] false androidLiveReloadArgs)
            ((concat [] ++ announcement) :: outputs (concat [] ++ announcement) [])) as Hmid
    by (repeat constructor).
  assert (test (getRegexToResolveAppDefer androidLiveReloadArgs)
            (concat [] ++ announcement ++ concat [] ++ launched) = true) as Hd
    by (by vm_compute).
  destruct (serverReady_then_appReady [LF] false androidLiveReloadArgs
              [] [] announcement launched m Hserve (List.Forall_nil _) Hc Hmid Hd Hm)
    as (_ & H1 & (H2 & H3 & _) & H4 & _).
  destruct (H4 None) as (H5 & H6 & _).
  vm_compute in Hm. injection Hm as <-.
  split; [exact H1|]. split; [exact H2|].
  split; [etransitivity; [exact H3|by vm_compute]|].
  split; [etransitivity; [exact H5|by vm_compute]|].
  etransitivity; [exact (H6 false)|by vm_compute].
Defined.

Lemma multipleInterfaces_rejects_witness :
  let s := onStdout [LF] false androidLiveReloadArgs [interfacePrompt] in
  (exec SERVER_URL_RE interfacePrompt = None
   ∧ test multipleInterfacesRegex interfacePrompt = true)
  ∧ serverDeferred s
    = Rejected (Error (multipleInterfacesAdvice ++ js " Available addresses:"
                       ++ [LF] ++ js " 1) 10.0.0.5 (eth0)"
                       ++ [LF] ++ js " 2) 192.168.1.7 (wlan0)")).
Proof.
  intros s. split; [by vm_compute|].
  destruct (multipleInterfaces_rejects_pending_serverReady [LF] false androidLiveReloadArgs
              [] interfacePrompt) as (H1 & _).
  - reflexivity.
  - by vm_compute.
  - by vm_compute.
  - etransitivity; [exact H1|]. by vm_compute.
Defined.

(** C1 as stated fails on the example of the spec itself: [serverDeferred]
    is resolved with [undefined]; the URL comes with [appDeferred]. *)
Lemma serverReady_resolves_without_url :
  let s := onStdout [LF] false androidLiveReloadArgs [announcement; launched] in
  serverDeferred s = Resolved None
  ∧ serverDeferred s ≠ Resolved (Some (js "http://localhost:8100"))
  ∧ appDeferred s = Resolved [js "http://localhost:8100"].
Proof. vm_compute. by repeat split. Qed.

(** C7 as stated fails when the server was announced before the prompt:
    the output matches the prompt, and [serverDeferred] stays resolved. *)
Lemma multipleInterfaces_after_announcement :
  let s := onStdout [LF] false androidLiveReloadArgs [announcement; interfacePrompt] in
  test multipleInterfacesRegex (serverOut s) = true
  ∧ serverDeferred s = Resolved None
  ∧ ∀ e, serverDeferred s ≠ Rejected e.
Proof. vm_compute. by repeat split. Qed.

End Detector.

(** ** The Android endpoint resolver *)
Module Android.
Import Regex RegexFacts AppLauncher Notions.

(** *** The target device *)

Lemma word_count_app a b : word_count (a ++ b) = (word_count a + word_count b)%nat.
Proof. unfold word_count. by rewrite List.filter_app, length_app. Qed.

Lemma deviceFilter_words line : deviceFilter line = true → (7 ≤ word_count line)%nat.
Proof.
  unfold deviceFilter. intros H. apply andb_true_iff in H as [H _].
  apply test_exec in H as [m H]. apply exec_words in H as (pre & Hs & Hw & _); [|done].
  change (words (Seq (plus (Chr Chars.word)) (lits (TAB :: js "device"))) (matched m)) in Hw.
  rewrite Hs. clear Hs. generalize dependent (matched m). intros w Hw.
  inversion Hw as [| |a b u v Hu Hv| | | | | | | |]; subst.
  apply words_lits in Hv as ->.
  inversion Hu as [| | | | | |lo hi hi' a' u1 u2 Hu1 Hu2| | | |]; subst.
  inversion Hu1 as [|p c Hc| | | | | | | | |]; subst.
  rewrite !word_count_app.
  assert (word_count [c] = 1%nat) as -> by (unfold word_count; simpl; by rewrite Hc).
  change (word_count (TAB :: js "device")) with 6%nat. lia.
Qed.

Lemma emulatorFilter_words line : emulatorFilter line = true → (8 ≤ word_count line)%nat.
Proof.
  unfold emulatorFilter. intros H. apply andb_true_iff in H as [_ H].
  apply test_exec in H as [m H]. apply exec_words in H as (pre & Hs & Hw & _); [|done].
  apply (words_lits (js "emulator")) in Hw.
  rewrite Hs, Hw, !word_count_app.
  change (word_count (js "emulator")) with 8%nat. lia.
Qed.

Lemma cleanDeviceLine_words line :
  (word_count line ≤ word_count (cleanDeviceLine line) + 6)%nat.
Proof.
  unfold cleanDeviceLine, JS.replace.
  set (x := Regex.replace (cat [Chr (Chars.only TAB); lit "device"]) [] line).
  assert (word_count line ≤ word_count x + 6)%nat as Hx.
  { subst x. destruct (replace_words (cat [Chr (Chars.only TAB); lit "device"]) line)
      as [->|(pre & w & post & Hs & Hw & ->)]; [done|lia|].
    apply (words_lits (TAB :: js "device")) in Hw as ->.
    rewrite Hs, !word_count_app. change (word_count (TAB :: js "device")) with 6%nat. lia. }
  destruct (replace_words (lits [CR]) x) as [->|(pre & w & post & Hs & Hw & ->)]; [done|done|].
  apply words_lits in Hw as ->.
  rewrite Hs, !word_count_app in Hx. change (word_count [CR]) with 0%nat in Hx.
  rewrite word_count_app. lia.
Qed.

Lemma cleanDeviceLine_not_empty line :
  (7 ≤ word_count line)%nat → truthy (Some (cleanDeviceLine line)) = true.
Proof.
  intros H. pose proof (cleanDeviceLine_words line) as H'.
  destruct (cleanDeviceLine line); [|done]. change (word_count []) with 0%nat in H'. lia.
Qed.

(** C4, as the code has it.  The lines of the output of [adb devices] are
    filtered by the kind of target; the first line that passes, without
    its TAB "device" and its CR, is the device, however many lines pass;
    the error "Unable to find target" is raised when no line passes (or
    when that first line is empty once cleaned, which cannot happen for
    the targets "device" and "emulator"). *)
Theorem selectTargetDevice_first_survivor
    (RegExpCreate : jsstring → option re) (target_ devicesOutput : jsstring)
    (f : jsstring → bool) :
  targetFilter RegExpCreate target_ = Some f →
  let survivors := filter (fun line => f line = true) (JS.split [LF] devicesOutput) in
  let notFound := Err (Error (js "Unable to find target " ++ target_)) in
  (survivors = [] → selectTargetDevice RegExpCreate target_ devicesOutput = notFound)
  ∧ (∀ line others, survivors = line :: others →
       selectTargetDevice RegExpCreate target_ devicesOutput
       = if bool_decide (cleanDeviceLine line = []) then notFound
         else Ok (cleanDeviceLine line))
  ∧ (toLowerCase target_ = js "device" ∨ toLowerCase target_ = js "emulator" →
     ∀ line others, survivors = line :: others →
       selectTargetDevice RegExpCreate target_ devicesOutput = Ok (cleanDeviceLine line)).
Proof.
  intros Hf survivors notFound. unfold selectTargetDevice. rewrite Hf. fold survivors.
  split; [by intros ->|]. split.
  - intros line others ->. simpl. by destruct (cleanDeviceLine line).
  - intros Hkind line others Hsurv.
    assert (f line = true) as Hline.
    { assert (line ∈ survivors) as Hin by (rewrite Hsurv; by left).
      by apply list_elem_of_filter in Hin as [? _]. }
    rewrite Hsurv. cbn [map head].
    assert (7 ≤ word_count line)%nat as Hw.
    { unfold targetFilter in Hf. destruct Hkind as [Hk|Hk]; rewrite Hk in Hf.
      - simpl in Hf. injection Hf as <-. by apply deviceFilter_words.
      - simpl in Hf. injection Hf as <-. apply emulatorFilter_words in Hline. lia. }
    by rewrite (cleanDeviceLine_not_empty line Hw).
Qed.

Lemma selectTargetDevice_witness :
  targetFilter (fun _ => None) (js "emulator") = Some emulatorFilter
  ∧ filter (fun line => emulatorFilter line = true) (JS.split [LF] adbDevices)
    = [js "emulator-5554" ++ [TAB] ++ js "device"]
  ∧ selectTargetDevice (fun _ => None) (js "emulator") adbDevices = Ok (js "emulator-5554").
Proof.
  split; [reflexivity|]. split; [by vm_compute|].
  destruct (selectTargetDevice_first_survivor (fun _ => None) (js "emulator") adbDevices
              emulatorFilter eq_refl) as (_ & _ & H).
  etransitivity; [eapply H; [by right|by vm_compute]|]. by vm_compute.
Defined.

(** C4 as stated fails: with two devices attached two lines pass the
    filter of the target "device", and the first is taken without an
    error. *)
Lemma selectTargetDevice_two_survivors :
  filter (fun line => deviceFilter line = true) (JS.split [LF] adbDevices)
  = [js "0A1B2C3D" ++ [TAB] ++ js "device"; js "FA6930301234" ++ [TAB] ++ js "device"]
  ∧ selectTargetDevice (fun _ => None) (js "device") adbDevices = Ok (js "0A1B2C3D").
Proof. by vm_compute. Qed.

(** *** The abstract socket *)

Lemma indexOf_from_unfold sub s i :
  indexOf_from sub s i =
    if bool_decide (take (length sub) s = sub) then Some i
    else match s with
         | [] => None
         | _ :: t => indexOf_from sub t (S i)
         end.
Proof. by destruct s. Qed.

(** A string that holds [sub] has an index of it. *)
Lemma indexOf_from_app sub b a : ∀ i, is_Some (indexOf_from sub (a ++ sub ++ b) i).
Proof.
  induction a as [|c a IH]; intros i; rewrite indexOf_from_unfold.
  - simpl. rewrite take_app_length. by rewrite bool_decide_eq_true_2.
  - destruct (bool_decide _); [done|]. simpl. apply IH.
Qed.

Lemma indexOf_marker a b : indexOf (js "_devtools_remote") (a ++ js "_devtools_remote" ++ b) ≠ None.
Proof.
  destruct (indexOf_from_app (js "_devtools_remote") b a 0) as [i Hi].
  unfold indexOf. by rewrite Hi.
Qed.

(** The loop passes over the rows that are not selected. *)
Lemma socketLoop_first flagsIdx stIdx pathIdx pid appPackageName rows line name rest_ :
  Forall (fun row => socketRow flagsIdx stIdx pathIdx pid appPackageName row = Continue) rows →
  socketRow flagsIdx stIdx pathIdx pid appPackageName line = Return name →
  socketLoop flagsIdx stIdx pathIdx pid appPackageName (rows ++ line :: rest_) = Ok (Some name).
Proof.
  intros Hrows Hline. induction Hrows as [|row rows Hrow _ IH]; simpl.
  - by rewrite Hline.
  - by rewrite Hrow.
Qed.

(** C3.  In the scan of the socket table, with the columns found by the
    header: a row of at least eight fields whose Flags field is
    "00010000", whose St field is "01" and whose Path field is
    "@webview_devtools_remote_" followed by the pid, or "@", the package
    name and "_devtools_remote", is selected, and its path without the "@"
    is returned when no row before it was selected.  A row whose Flags
    field is anything else is passed over whatever its path is, and so is
    a row whose St field is not "01", whose path does not begin with "@",
    or whose path does not hold "_devtools_remote". *)
Theorem socketRow_selection
    (flagsIdx stIdx pathIdx : option nat) (pid appPackageName : option jsstring)
    (line : jsstring) :
  let fields := Regex.split fieldSplitter line in
  let row := socketRow flagsIdx stIdx pathIdx pid appPackageName line in
  ((8 ≤ length fields)%nat →
   at_index fields flagsIdx = Some (js "00010000") →
   at_index fields stIdx = Some (js "01") →
   (at_index fields pathIdx = Some (js "@webview_devtools_remote_" ++ String_ pid)
    → row = Return (js "webview_devtools_remote_" ++ String_ pid))
   ∧ (at_index fields pathIdx = Some (js "@" ++ String_ appPackageName ++ js "_devtools_remote")
      → row = Return (String_ appPackageName ++ js "_devtools_remote"))
   ∧ (∀ name rows rest_, row = Return name →
        Forall (fun r => socketRow flagsIdx stIdx pathIdx pid appPackageName r = Continue) rows →
        socketLoop flagsIdx stIdx pathIdx pid appPackageName (rows ++ line :: rest_)
        = Ok (Some name)))
  ∧ (at_index fields flagsIdx ≠ Some (js "00010000") → row = Continue)
  ∧ (at_index fields stIdx ≠ Some (js "01") → row = Continue)
  ∧ (∀ pathField, at_index fields pathIdx = Some pathField →
       head pathField ≠ Some (cu "@") → row = Continue)
  ∧ (∀ pathField, at_index fields pathIdx = Some pathField →
       indexOf (js "_devtools_remote") pathField = None → row = Continue).
Proof.
  intros fields row. subst row. unfold socketRow. fold fields.
  split; [|split; [|split; [|split]]].
  - intros Hlen Hflags Hst.
    rewrite (proj2 (Nat.ltb_ge _ _) Hlen), Hflags, Hst.
    rewrite !bool_decide_eq_true_2 by done. cbn [negb orb].
    split; [|split].
    + intros ->. set (p := js "@webview_devtools_remote_" ++ String_ pid).
      assert (head p = Some (cu "@")) as Hh by done.
      assert ((length p <? 1)%nat = false) as Hl by done.
      assert (indexOf (js "_devtools_remote") p ≠ None) as Hi
        by apply (indexOf_marker (js "@webview") (cu "_" :: String_ pid)).
      rewrite Hl, (bool_decide_eq_true_2 _ Hh), (bool_decide_eq_false_2 _ Hi).
      cbn [negb orb]. unfold str_eqb. by rewrite bool_decide_eq_true_2.
    + intros ->. set (p := js "@" ++ String_ appPackageName ++ js "_devtools_remote").
      assert (head p = Some (cu "@")) as Hh by done.
      assert ((length p <? 1)%nat = false) as Hl by done.
      assert (indexOf (js "_devtools_remote") p ≠ None) as Hi
        by apply (indexOf_marker (cu "@" :: String_ appPackageName) []).
      rewrite Hl, (bool_decide_eq_true_2 _ Hh), (bool_decide_eq_false_2 _ Hi).
      cbn [negb orb]. unfold str_eqb.
      rewrite (bool_decide_eq_true_2 (p = p)) by done.
      by destruct (bool_decide _).
    + intros name rows rest_ Hrow Hrows. apply socketLoop_first; [done|].
      unfold socketRow. fold fields.
      rewrite (proj2 (Nat.ltb_ge _ _) Hlen), Hflags, Hst.
      by rewrite !bool_decide_eq_true_2 by done.
  - intros H. destruct (_ <? _)%nat; [done|]. by rewrite (bool_decide_eq_false_2 _ H).
  - intros H. destruct (_ <? _)%nat; [done|]. rewrite (bool_decide_eq_false_2 _ H).
    by rewrite orb_true_r.
  - intros pathField -> H. destruct (_ <? _)%nat; [done|]. destruct (_ || _); [done|].
    rewrite (bool_decide_eq_false_2 _ H). by rewrite orb_true_r.
  - intros pathField -> H. destruct (_ <? _)%nat; [done|]. destruct (_ || _); [done|].
    destruct (_ || _); [done|]. by rewrite (bool_decide_eq_true_2 _ H).
Qed.

Lemma socketRow_selection_witness :
  let pid := Some (js "1234") in
  let appPackageName := Some (js "io.cordova.hellocordova") in
  socketRow (Some 3%nat) (Some 5%nat) (Some 7%nat) pid appPackageName listeningRow
  = Return (js "webview_devtools_remote_1234")
  ∧ socketRow (Some 3%nat) (Some 5%nat) (Some 7%nat) pid appPackageName closedRow = Continue
  ∧ findAbstractName pid appPackageName procNetUnix
    = Ok (Some (js "webview_devtools_remote_1234")).
Proof.
  intros pid appPackageName.
  destruct (socketRow_selection (Some 3%nat) (Some 5%nat) (Some 7%nat) pid appPackageName
              listeningRow) as (Haccept & _).
  destruct (socketRow_selection (Some 3%nat) (Some 5%nat) (Some 7%nat) pid appPackageName
              closedRow) as (_ & Hflags & _).
  split; [|split].
  - apply Haccept; [vm_compute; lia|by vm_compute|by vm_compute|by vm_compute].
  - apply Hflags. by vm_compute.
  - by vm_compute.
Defined.

End Android.

(** ** The iOS endpoint resolver *)
Module Ios.
Import Regex RegexFacts AppLauncher Notions.

(** *** The list of simulators *)

(** The continuation of the star in the pattern of [emulatorOfLine]: the
    capture, then the look-ahead for a comma. *)
Lemma comma_ahead_fails x b s c :
  head s ≠ Some (cu ",") →
  run (Ahead (lit ",")) (Pos b s ((1%nat, consumed x (Pos b s c)) :: c)) Some = None.
Proof.
  intros H. destruct s as [|a t]; [done|]. cbn [run lit cat map js list_ascii_of_string rest].
  destruct (Chars.only _ a) eqn:Ha; [|done].
  apply N.eqb_eq in Ha. subst a. by destruct H.
Qed.

(** X1.  The identifier that the check reads from a line of the list of
    simulators: a line made of a tab, a name, a comma, a blank and a version
    without a comma gives the name, that is the text before the last comma
    of the line, without the tab; the name may hold commas itself. *)
Lemma emulatorOfLine_identifier (name version : jsstring) :
  Forall (fun a => Chars.dot a = true) name →
  Forall (fun a => Chars.dot a = true) version →
  cu "," ∉ version →
  emulatorOfLine ([TAB] ++ name ++ js ", " ++ version) = Some name.
Proof.
  intros Hname Hversion Hcomma.
  set (u := TAB :: name). set (v := cu " " :: version).
  set (value := [TAB] ++ name ++ js ", " ++ version).
  assert (value = u ++ cu "," :: v) as Hvalue by done.
  assert (Forall (fun a => Chars.dot a = true) value) as Hdot.
  { rewrite Hvalue. apply Forall_app. split; [by constructor|].
    constructor; [done|]. by constructor. }
  set (k := fun y : pos =>
         run (Ahead (lit ","))
             (Pos (before y) (rest y) ((1%nat, consumed (Pos None value []) y) :: caps y)) Some).
  assert (match_at (cat [Grp 1 (star dot); Ahead (lit ",")]) None value
          = greedy k None value []) as Hmatch.
  { unfold match_at. cbn [cat run star dot]. fold k.
    apply repeat_chr_greedy; [simpl; lia|done]. }
  assert (∀ b, greedy k b (cu "," :: v) [] = k (Pos b (cu "," :: v) [])) as Hlast.
  { intros b. cbn [greedy]. rewrite greedy_none.
    - subst k. cbn beta. cbn [before rest caps]. by rewrite comma_ahead_fails.
    - intros i a Hi. subst k. cbn beta. cbn [before rest caps].
      apply comma_ahead_fails. subst v. destruct i as [|i]; simpl.
      + destruct version as [|a' t]; [done|]. simpl. intros [= ->].
        apply Hcomma. by left.
      + destruct (drop (S i) version) as [|a' t] eqn:Hd; [done|]. simpl. intros [= ->].
        apply Hcomma. apply list_elem_of_lookup. exists (S i). by rewrite <- (Nat.add_0_r (S i)), <- lookup_drop, Hd. }
  assert (∃ e, match_at (cat [Grp 1 (star dot); Ahead (lit ",")]) None value = Some e
               ∧ rest e = cu "," :: v) as (e & He & Hrest).
  { rewrite Hmatch, Hvalue. eexists. split.
    - apply greedy_reaches; [exact Hlast|]. subst k. cbn beta. cbn [before rest caps].
      reflexivity.
    - reflexivity. }
  unfold emulatorOfLine, match_all. fold value.
  assert (∃ l, scan (cat [Grp 1 (star dot); Ahead (lit ",")]) None value 0 0
               = result_at 0 value e :: l) as [l ->].
  { clear Hmatch Hlast Hdot. clearbody k value. destruct value as [|c t]; [done|].
    cbn [scan]. rewrite He. by eexists. }
  assert (matched (result_at 0 value e) = u) as ->.
  { unfold result_at. cbn [matched]. rewrite Hrest, Hvalue, length_app, Nat.add_sub.
    apply take_app_length. }
  reflexivity.
Qed.

Lemma emulatorOfLine_identifier_witness :
  emulatorOfLine ([TAB] ++ js "iPhone 8, Plus" ++ js ", " ++ js "12.2")
  = Some (js "iPhone 8, Plus").
Proof.
  apply (emulatorOfLine_identifier (js "iPhone 8, Plus") (js "12.2")).
  - by repeat constructor.
  - by repeat constructor.
  - apply (bool_decide_unpack (cu "," ∉ js "12.2")). by vm_compute.
Defined.

(** C5, as the code has it.  The check rejects the alias "emulator" (in
    any case of its letters, as [attachIos] and [launchIos] pass it on),
    and it rejects, with the same error, a target that is one of the
    identifiers read from the list of simulators; any other target passes
    when the list command succeeds, and the failure of that command is
    passed on. *)
Theorem checkIfTargetIsiOSSimulator_rejects_listed
    (target_ : jsstring) (listOutput : outcome jsstring) :
  (target_ = js "emulator" →
     checkIfTargetIsiOSSimulator target_ listOutput = Err (Error invalidTargetMessage))
  ∧ (toLowerCase target_ = js "emulator" →
     checkIfTargetIsiOSSimulator (iosTarget target_) listOutput
     = Err (Error invalidTargetMessage))
  ∧ (∀ stdout, listOutput = Ok stdout → Some target_ ∈ listedEmulators stdout →
     checkIfTargetIsiOSSimulator target_ listOutput = Err (Error invalidTargetMessage))
  ∧ (∀ stdout, listOutput = Ok stdout → target_ ≠ js "emulator" →
     Some target_ ∉ listedEmulators stdout →
     checkIfTargetIsiOSSimulator target_ listOutput = Ok tt)
  ∧ (∀ e, listOutput = Err e → target_ ≠ js "emulator" →
     checkIfTargetIsiOSSimulator target_ listOutput = Err e).
Proof.
  unfold checkIfTargetIsiOSSimulator, iosTarget, str_eqb.
  split; [|split; [|split; [|split]]].
  - intros ->. by rewrite bool_decide_eq_true_2.
  - intros ->. by rewrite !bool_decide_eq_true_2.
  - intros stdout -> Hin. destruct (bool_decide (target_ = _)); [done|].
    by rewrite bool_decide_eq_true_2.
  - intros stdout -> Hne Hnotin. rewrite (bool_decide_eq_false_2 _ Hne).
    by rewrite bool_decide_eq_false_2.
  - intros e -> Hne. by rewrite (bool_decide_eq_false_2 _ Hne).
Qed.

Lemma checkIfTargetIsiOSSimulator_witness :
  listedEmulators iosSimulators
  = [None; Some (js "iPhone-5s"); Some (js "iPhone-8"); Some (js "iPad-Air"); None]
  ∧ checkIfTargetIsiOSSimulator (js "iPhone-8") (Ok iosSimulators)
    = Err (Error invalidTargetMessage)
  ∧ checkIfTargetIsiOSSimulator (js "iPhone-8, 12.2") (Ok iosSimulators) = Ok tt
  ∧ checkIfTargetIsiOSSimulator (js "device") (Ok iosSimulators) = Ok tt.
Proof.
  assert (listedEmulators iosSimulators
          = [None; Some (js "iPhone-5s"); Some (js "iPhone-8"); Some (js "iPad-Air"); None])
    as Hlist by (by vm_compute).
  split; [exact Hlist|]. split; [|split].
  - eapply (proj1 (proj2 (proj2 (checkIfTargetIsiOSSimulator_rejects_listed
                                    (js "iPhone-8") (Ok iosSimulators))))); [done|].
    rewrite Hlist. set_solver.
  - eapply (proj1 (proj2 (proj2 (proj2 (checkIfTargetIsiOSSimulator_rejects_listed
                                    (js "iPhone-8, 12.2") (Ok iosSimulators)))))); [done|done|].
    rewrite Hlist. intros H. repeat (apply elem_of_cons in H as [H|H]; [done|]).
    by apply elem_of_nil in H.
  - eapply (proj1 (proj2 (proj2 (proj2 (checkIfTargetIsiOSSimulator_rejects_listed
                                    (js "device") (Ok iosSimulators)))))); [done|done|].
    rewrite Hlist. intros H. repeat (apply elem_of_cons in H as [H|H]; [done|]).
    by apply elem_of_nil in H.
Defined.

(** C5 as stated fails: a simulator identifier that the list command
    enumerates is not accepted, it is rejected as an invalid target. *)
Lemma listed_simulator_is_rejected :
  Some (js "iPhone-8") ∈ listedEmulators iosSimulators
  ∧ checkIfTargetIsiOSSimulator (js "iPhone-8") (Ok iosSimulators)
    = Err (Error invalidTargetMessage)
  ∧ checkIfTargetIsiOSSimulator (js "iPhone-8") (Ok iosSimulators) ≠ Ok tt.
Proof.
  assert (listedEmulators iosSimulators
          = [None; Some (js "iPhone-5s"); Some (js "iPhone-8"); Some (js "iPad-Air"); None])
    as Hlist by (by vm_compute).
  split; [rewrite Hlist; set_solver|]. by vm_compute.
Qed.

(** *** The webviews *)

Lemma indexOf_from_ge sub : ∀ s i j, indexOf_from sub s i = Some j → (i ≤ j)%nat.
Proof.
  induction s as [|c t IH]; intros i j; simpl.
  - destruct (bool_decide _); [|done]. intros [= ->]. lia.
  - destruct (bool_decide _); [intros [= ->]; lia|]. intros H. apply IH in H. lia.
Qed.

(** [entry.url.indexOf(url) === 0] is the prefix test. *)
Lemma indexOf_is_0_prefix u s : indexOf_is_0 u s = is_prefix u s.
Proof.
  unfold indexOf_is_0, is_prefix, indexOf.
  destruct s as [|c t]; simpl; destruct (bool_decide (take _ _ = u)) eqn:Hp.
  - by rewrite bool_decide_eq_true_2.
  - by rewrite bool_decide_eq_false_2.
  - by rewrite bool_decide_eq_true_2.
  - apply bool_decide_eq_false_2. intros H. apply indexOf_from_ge in H. lia.
Qed.

Lemma existsb_indexOf_is_0 s urls :
  existsb (fun u => indexOf_is_0 u s) urls = existsb (fun u => is_prefix u s) urls.
Proof.
  induction urls as [|u urls IH]; simpl; [done|]. by rewrite indexOf_is_0_prefix, IH.
Qed.

Lemma filterWebviews_live urls packagePath l :
  filterWebviews (Some urls) packagePath l
  = Ok (List.filter (fun entry => existsb (fun u => is_prefix u (wv_url entry)) urls) l).
Proof.
  induction l as [|entry l IH]; cbn [filterWebviews isTargetWebview List.filter]; [done|].
  rewrite IH, existsb_indexOf_is_0. by destruct (existsb _ _).
Qed.

Lemma filterWebviews_package packagePath encoded l :
  encodeURIComponent packagePath = Ok encoded →
  filterWebviews None packagePath l
  = Ok (List.filter (fun entry => includes encoded (wv_url entry)) l).
Proof.
  intros He. induction l as [|entry l IH]; simpl; [done|]. rewrite IH, He.
  by destruct (includes _ _).
Qed.

(** The schedule of the retries. *)
Lemma retry_loop_schedule {T} (probe : nat → outcome T) accept delayMs failureMessage :
  ∀ attempts i wait, (1 ≤ attempts)%nat →
    ∃ n, (1 ≤ n ≤ attempts)%nat
         ∧ snd (retry_loop probe accept attempts i wait delayMs failureMessage)
           = schedule n wait delayMs
         ∧ (fst (retry_loop probe accept attempts i wait delayMs failureMessage)
            = Err (Error failureMessage) ∧ n = attempts
            ∨ ∃ v, fst (retry_loop probe accept attempts i wait delayMs failureMessage) = Ok v
                   ∧ probe (i + n - 1)%nat = Ok v ∧ accept v = true).
Proof.
  induction attempts as [|k IH]; intros i wait Hk; [lia|].
  assert (∃ n, (1 ≤ n ≤ S k)%nat
     ∧ snd (match k with
            | O => (Err (Error failureMessage), [Probe])
            | S _ => let '(r, events) :=
                       retry_loop probe accept k (S i) delayMs delayMs failureMessage in
                     (r, Probe :: Wait wait :: events)
            end) = schedule n wait delayMs
     ∧ (fst (match k with
             | O => (Err (Error failureMessage), [Probe])
             | S _ => let '(r, events) :=
                        retry_loop probe accept k (S i) delayMs delayMs failureMessage in
                      (r, Probe :: Wait wait :: events)
             end) = Err (Error failureMessage) ∧ n = S k
        ∨ ∃ v, fst (match k with
                    | O => (Err (Error failureMessage), [Probe])
                    | S _ => let '(r, events) :=
                               retry_loop probe accept k (S i) delayMs delayMs failureMessage in
                             (r, Probe :: Wait wait :: events)
                    end) = Ok v ∧ probe (i + n - 1)%nat = Ok v ∧ accept v = true)) as Hagain.
  { destruct k as [|k'].
    - exists 1%nat. split; [lia|]. split; [done|]. by left.
    - destruct (IH (S i) delayMs ltac:(lia)) as (n & Hn & Hev & Hres).
      destruct (retry_loop probe accept (S k') (S i) delayMs delayMs failureMessage)
        as [r events] eqn:Hloop.
      simpl in Hev, Hres. exists (S n). split; [lia|]. split.
      + simpl. rewrite Hev. destruct n; [lia|done].
      + destruct Hres as [[-> ->]|(v & -> & Hp & Ha)]; [by left|].
        right. exists v. split; [done|]. split; [|done].
        by replace (i + S n - 1)%nat with (S i + n - 1)%nat by lia. }
  cbn [retry_loop].
  destruct (probe i) as [v|e] eqn:Hp; [|exact Hagain].
  destruct (accept v) eqn:Ha; [|exact Hagain].
  exists 1%nat. split; [lia|]. split; [done|]. right. exists v.
  split; [done|]. split; [|done]. by replace (i + 1 - 1)%nat with i by lia.
Qed.

(** The loop returns the first result that is accepted, after the calls
    that were refused before it. *)
Lemma retry_loop_first {T} (probe : nat → outcome T) accept delayMs failureMessage :
  ∀ attempts i wait n v, (n < attempts)%nat →
    (∀ j, (j < n)%nat → refused accept (probe (i + j)%nat)) →
    probe (i + n)%nat = Ok v → accept v = true →
    retry_loop probe accept attempts i wait delayMs failureMessage
    = (Ok v, schedule (S n) wait delayMs).
Proof.
  induction attempts as [|k IH]; intros i wait n v Hn Hrefused Hp Ha; [lia|].
  destruct n as [|n].
  - rewrite Nat.add_0_r in Hp. cbn [retry_loop]. by rewrite Hp, Ha.
  - pose proof (Hrefused 0%nat ltac:(lia)) as H0. rewrite Nat.add_0_r in H0.
    assert (retry_loop probe accept k (S i) delayMs delayMs failureMessage
            = (Ok v, schedule (S n) delayMs delayMs)) as Hrec.
    { apply IH; [lia| |by replace (S i + n)%nat with (i + S n)%nat by lia|done].
      intros j Hj. replace (S i + j)%nat with (i + S j)%nat by lia.
      apply Hrefused. lia. }
    cbn [retry_loop]. destruct k as [|k']; [lia|]. rewrite Hrec.
    unfold refused in H0. destruct (probe i) as [v0|e0]; [by rewrite H0|done].
Qed.

(** When every call is refused the loop makes all its calls and fails with
    the failure message. *)
Lemma retry_loop_exhausted {T} (probe : nat → outcome T) accept delayMs failureMessage :
  ∀ attempts i wait, (1 ≤ attempts)%nat →
    (∀ j, (j < attempts)%nat → refused accept (probe (i + j)%nat)) →
    retry_loop probe accept attempts i wait delayMs failureMessage
    = (Err (Error failureMessage), schedule attempts wait delayMs).
Proof.
  induction attempts as [|k IH]; intros i wait Hk Hrefused; [lia|].
  pose proof (Hrefused 0%nat ltac:(lia)) as H0. rewrite Nat.add_0_r in H0.
  cbn [retry_loop]. destruct k as [|k'].
  - unfold refused in H0. destruct (probe i) as [v0|e0]; [by rewrite H0|done].
  - rewrite (IH (S i) delayMs) by
      (try lia; intros j Hj; replace (S i + j)%nat with (i + S j)%nat by lia;
       apply Hrefused; lia).
    unfold refused in H0. destruct (probe i) as [v0|e0]; [by rewrite H0|done].
Qed.

(** What a call of the probe returns passes the condition of the retry:
    it holds at least one webview. *)
Lemma findWebViewsProbe_accepted JSON_parse ionicDevServerUrls packagePath targetPort_
    response found :
  fst (findWebViewsProbe JSON_parse ionicDevServerUrls packagePath targetPort_ response)
  = Ok found →
  (0 <? length (relevantViews found))%nat = true.
Proof.
  unfold findWebViewsProbe. destruct response as [response|e]; [|done].
  destruct (JSON_parse response) as [webviewsList|]; [|done].
  destruct (filterWebviews _ _ _) as [foundWebViews|]; [|done].
  destruct foundWebViews as [|w l]; cbn [length Nat.eqb andb].
  - destruct webviewsList as [|w [|w' l']]; cbn [length Nat.eqb fst]; try done.
    by intros [= <-].
  - cbn [fst]. by intros [= <-].
Qed.

(** C6.  The webviews are filtered by the dev server URLs as prefixes when
    live reload is active, and else by the encoded package path as a part
    of the URL; one call of the probe gives the matches, or, when nothing
    matches, the only webview there is, with a warning in the log, or else
    the error "Unable to find target app".  The probe is called until a
    call succeeds, at most five times, with the first wait of the retry
    and then the attach delay between the calls: the result is that of the
    first call that succeeds, and when five calls have failed it is the
    error "Unable to find webview". *)
Theorem findWebViews_selection
    (JSON_parse : jsstring → outcome (list Webview))
    (ionicDevServerUrls : option (list jsstring)) (attachDelay : N)
    (packagePath : jsstring) (targetPort_ : N) :
  (∀ urls l, filterWebviews (Some urls) packagePath l
     = Ok (List.filter (fun entry => existsb (fun u => is_prefix u (wv_url entry)) urls) l))
  ∧ (∀ encoded l, encodeURIComponent packagePath = Ok encoded →
       filterWebviews None packagePath l
       = Ok (List.filter (fun entry => includes encoded (wv_url entry)) l))
  ∧ (∀ response webviewsList foundWebViews,
       JSON_parse response = Ok webviewsList →
       filterWebviews ionicDevServerUrls packagePath webviewsList = Ok foundWebViews →
       let probe := findWebViewsProbe JSON_parse ionicDevServerUrls packagePath targetPort_
                      (Ok response) in
       (foundWebViews ≠ [] →
          probe = (Ok {| relevantViews := foundWebViews; targetPort := targetPort_ |}, []))
       ∧ (foundWebViews = [] → length webviewsList = 1%nat →
          probe = (Ok {| relevantViews := webviewsList; targetPort := targetPort_ |},
                   [webviewFallbackWarning]))
       ∧ (foundWebViews = [] → length webviewsList ≠ 1%nat →
          probe = (Err (Error (js "Unable to find target app")), [])))
  ∧ (∀ responses,
       let probe := fun i =>
         fst (findWebViewsProbe JSON_parse ionicDevServerUrls packagePath targetPort_
                (responses i)) in
       let run := findWebViews JSON_parse ionicDevServerUrls attachDelay packagePath
                    targetPort_ responses in
       (∀ n found, (n < 5)%nat →
          (∀ j, (j < n)%nat → ∃ e, probe j = Err e) →
          probe n = Ok found →
          run = (Ok found, schedule (S n) 1 attachDelay))
       ∧ ((∀ j, (j < 5)%nat → ∃ e, probe j = Err e) →
          run = (Err (Error (js "Unable to find webview")), schedule 5 1 attachDelay))).
Proof.
  split; [|split; [|split]].
  - intros urls l. apply filterWebviews_live.
  - intros encoded l He. by apply filterWebviews_package.
  - intros response webviewsList foundWebViews Hparse Hfilter probe.
    subst probe. unfold findWebViewsProbe. rewrite Hparse, Hfilter.
    split; [|split].
    + intros Hne. by destruct foundWebViews.
    + intros -> Hlen. by rewrite Hlen.
    + intros -> Hlen. simpl. destruct (length webviewsList) as [|[|k]]; done.
  - intros responses probe run. subst run. unfold findWebViews, retryAsync.
    fold probe. split.
    + intros n found Hn Hfailed Hfound.
      apply retry_loop_first; [done| |done|].
      * intros j Hj. destruct (Hfailed j Hj) as [e He].
        unfold refused. cbn [Nat.add]. by rewrite He.
      * by eapply findWebViewsProbe_accepted.
    + intros Hfailed. apply retry_loop_exhausted; [lia|].
      intros j Hj. destruct (Hfailed j Hj) as [e He].
      unfold refused. cbn [Nat.add]. by rewrite He.
Qed.

Lemma findWebViews_selection_witness :
  let JSON_parse := fun _ : jsstring => Ok [appWebview; otherWebview] in
  let responses := fun i : nat =>
    match i with
    | O => Err (Error (js "Unable to communicate with target"))
    | S _ => Ok []
    end in
  filterWebviews (Some devServerUrls) (js "HelloCordova.app") [appWebview; otherWebview]
  = Ok [appWebview]
  ∧ findWebViewsProbe JSON_parse (Some devServerUrls) (js "HelloCordova.app") 9223 (Ok [])
    = (Ok {| relevantViews := [appWebview]; targetPort := 9223 |}, [])
  ∧ findWebViews JSON_parse (Some devServerUrls) 1000 (js "HelloCordova.app") 9223 responses
    = (Ok {| relevantViews := [appWebview]; targetPort := 9223 |},
       [Probe; Wait 1; Probe])
  ∧ findWebViews JSON_parse (Some devServerUrls) 1000 (js "HelloCordova.app") 9223
      (fun _ => Err (Error (js "Unable to communicate with target")))
    = (Err (Error (js "Unable to find webview")),
       [Probe; Wait 1; Probe; Wait 1000; Probe; Wait 1000; Probe; Wait 1000; Probe]).
Proof.
  intros JSON_parse responses.
  destruct (findWebViews_selection JSON_parse (Some devServerUrls) 1000
              (js "HelloCordova.app") 9223) as (Hlive & _ & Hprobe & Hretry).
  split; [|split; [|split]].
  - rewrite Hlive. by vm_compute.
  - destruct (Hprobe [] [appWebview; otherWebview] [appWebview] eq_refl) as (H & _).
    + rewrite Hlive. by vm_compute.
    + by apply H.
  - apply (proj1 (Hretry responses) 1%nat).
    + lia.
    + intros [|j] Hj; [by eexists|lia].
    + by vm_compute.
  - apply (proj2 (Hretry (fun _ => Err (Error (js "Unable to communicate with target"))))).
    intros j _. by eexists.
Defined.

End Ios.

(** ** Launching on Android *)
Module Launch.
Import AppLauncher Notions.

Section LaunchAndroid.
Context {IProjectType : Type}.
Variable isIonicAngularProjectByProjectType : IProjectType → bool.
Variable getCliCommand : option jsstring → jsstring.

(** C2.  A launch request for the platform "android" and the target
    "device", with live reload, on an Ionic-Angular project and without
    run arguments, on the request or found in the project, goes to
    [launchAndroid], which builds the arguments
    run android --device --verbose --livereload and hands them to
    [startIonicDevServer]. *)
Theorem launchAndroid_livereload_arguments
    (launchArgs : RequestArgs) (projectType : IProjectType)
    (runArguments_ : option (list jsstring)) :
  platform launchArgs = Some (js "android") →
  target launchArgs = Some (js "device") →
  ionicLiveReload launchArgs = true →
  isIonicAngularProjectByProjectType projectType = true →
  non_empty (runArguments launchArgs) = false →
  non_empty runArguments_ = false →
  launch_strategy launchArgs = Ok LaunchAndroid
  ∧ launchAndroid isIonicAngularProjectByProjectType getCliCommand
      launchArgs projectType runArguments_
    = Ok (StartIonicDevServer
            [js "run"; js "android"; js "--device"; js "--verbose"; js "--livereload"], []).
Proof.
  intros Hplatform Htarget Hlive Hionic Hrun Hrun'. split.
  - unfold launch_strategy. by rewrite Hplatform, Htarget.
  - unfold launchAndroid. by rewrite Htarget, Hlive, Hionic, Hrun, Hrun'.
Qed.

End LaunchAndroid.

Lemma launchAndroid_livereload_witness :
  launch_normalize (fun d => d) liveReloadRequest
  = Ok (set_port (Some 9222) liveReloadRequest)
  ∧ launch_strategy (set_port (Some 9222) liveReloadRequest) = Ok LaunchAndroid
  ∧ launchAndroid (fun _ : unit => true) (fun _ => js "ionic")
      (set_port (Some 9222) liveReloadRequest) tt None
    = Ok (StartIonicDevServer androidLiveReloadArgs, []).
Proof.
  split; [reflexivity|].
  exact (launchAndroid_livereload_arguments (fun _ : unit => true) (fun _ => js "ionic")
           (set_port (Some 9222) liveReloadRequest) tt None
           eq_refl eq_refl eq_refl eq_refl eq_refl eq_refl).
Defined.

End Launch.

(** ** The environment around an adb command *)
Module Adb.
Import AppLauncher Notions.

Section RunAdbCommand.
Variable delimiter : jsstring.
Variable path_join : jsstring → jsstring → jsstring.
Variable execCommand : gmap (list N) (list N) → jsstring → list jsstring → outcome jsstring.
Variable args : list jsstring.

(** No variable other than PATH is touched, before or after the command. *)
Lemma runAdbCommand_other_variables (env : gmap (list N) (list N)) (name : jsstring) :
  name ≠ js "PATH" →
  env_during (runAdbCommand delimiter path_join execCommand args env) !! name = env !! name
  ∧ env_after (runAdbCommand delimiter path_join execCommand args env) !! name = env !! name.
Proof.
  intros Hne. unfold runAdbCommand, env_assign. cbn [env_during env_after].
  destruct (truthy _); rewrite ?lookup_insert_ne by done; done.
Qed.

(** During the command PATH ends with the platform-tools directory exactly
    when ANDROID_HOME is set to a non-empty string. *)
Lemma runAdbCommand_during (env : gmap (list N) (list N)) :
  env_during (runAdbCommand delimiter path_join execCommand args env) !! js "PATH"
  = match env !! js "ANDROID_HOME" with
    | Some (c :: home) =>
        Some (String_ (env !! js "PATH") ++ delimiter
              ++ path_join (c :: home) (js "platform-tools"))
    | _ => env !! js "PATH"
    end.
Proof.
  unfold runAdbCommand, env_assign. cbn [env_during].
  destruct (env !! js "ANDROID_HOME") as [[|c home]|]; simpl; [done| |done].
  by rewrite lookup_insert_eq.
Qed.

(** When PATH is set, the environment after the command is the one before
    it, whether the command succeeded or failed. *)
Lemma runAdbCommand_restores_set_PATH (env : gmap (list N) (list N)) (path : jsstring) :
  env !! js "PATH" = Some path →
  env_after (runAdbCommand delimiter path_join execCommand args env) = env.
Proof.
  intros Hpath. unfold runAdbCommand, env_assign. cbn [env_after].
  rewrite Hpath. simpl. destruct (truthy _).
  - rewrite insert_insert_eq. by apply insert_id.
  - by apply insert_id.
Qed.

(** When PATH is not set, the assignment in [finally] stores the string
    conversion of [undefined]. *)
Lemma runAdbCommand_unset_PATH (env : gmap (list N) (list N)) :
  env !! js "PATH" = None →
  env_after (runAdbCommand delimiter path_join execCommand args env) !! js "PATH"
  = Some (js "undefined").
Proof.
  intros Hpath. unfold runAdbCommand, env_assign. cbn [env_after].
  rewrite Hpath. by rewrite lookup_insert_eq.
Qed.

End RunAdbCommand.

(** C9 at an environment without PATH: during the command PATH holds
    "undefined" before the platform-tools directory, and after the command,
    succeeded or failed, PATH is set, to "undefined", where it was not set
    before. *)
Theorem runAdbCommand_without_PATH (result : outcome jsstring) :
  let run := runAdbCommand (js ":") posix_join (fun _ _ _ => result) [js "devices"]
               envWithoutPath in
  envWithoutPath !! js "PATH" = None
  ∧ env_during run !! js "PATH" = Some (js "undefined:/opt/android-sdk/platform-tools")
  ∧ adb_result run = result
  ∧ env_after run !! js "PATH" = Some (js "undefined")
  ∧ env_after run ≠ envWithoutPath.
Proof.
  intros run.
  assert (envWithoutPath !! js "PATH" = None) as Hpath
    by (by apply lookup_singleton_ne).
  assert (envWithoutPath !! js "ANDROID_HOME" = Some (js "/opt/android-sdk")) as Hhome
    by (by apply lookup_singleton_eq).
  assert (env_after run !! js "PATH" = Some (js "undefined")) as Hafter
    by (by apply runAdbCommand_unset_PATH).
  split; [done|]. split; [|split; [done|split; [done|]]].
  - subst run. rewrite runAdbCommand_during, Hhome, Hpath. reflexivity.
  - intros Heq. rewrite Heq, Hpath in Hafter. discriminate.
Qed.

End Adb.

(** ** Attaching *)
Module Attach.
Import AppLauncher Notions.

Section Attach.
Variable getCordovaProjectRoot : option jsstring → option jsstring.
Variable createServer : outcome unit.
Variable determineProjectTypes : outcome unit.
Variable attachAndroid : RequestArgs → outcome RequestArgs.
Variable attachIos : RequestArgs → outcome RequestArgs.

(** The promise that [attach] returns is never resolved: the chain ends
    with a callback that returns [resolve] instead of calling it. *)
Lemma attach_never_resolves (attachArgs : RequestArgs) :
  ∀ v, promise (attach getCordovaProjectRoot createServer determineProjectTypes
                  attachAndroid attachIos attachArgs) ≠ Resolved v.
Proof.
  intros v. unfold attach.
  destruct (attach_chain _ _ _ _ _ attachArgs) as [calls_ [a|e]]; simpl; discriminate.
Qed.

(** For a target that is neither a device nor an emulator the chain itself
    ends with the request as the first statements left it: no resolver is
    called, and the proxy was given the port of the request. *)
Lemma attach_other_target (attachArgs : RequestArgs) :
  let normalized := attach_normalize getCordovaProjectRoot attachArgs in
  let run := attach getCordovaProjectRoot createServer determineProjectTypes
               attachAndroid attachIos attachArgs in
  createServer = Ok tt → determineProjectTypes = Ok tt →
  toLowerCase <$> target normalized ≠ Some (js "device") →
  toLowerCase <$> target normalized ≠ Some (js "emulator") →
  chain run = Ok normalized
  ∧ calls run = [NewCordovaCDPProxy; SetApplicationTargetPort (port normalized);
                 CreateServer; DetermineProjectTypes]
  ∧ port normalized = Some (or_num (port attachArgs) 9222)
  ∧ target normalized = Some (or_str (target attachArgs) (js "emulator"))
  ∧ cwd normalized = getCordovaProjectRoot (cwd attachArgs)
  ∧ timeout normalized = attachTimeout attachArgs
  ∧ promise run = Pending.
Proof.
  intros normalized run Hserver Htypes Hdev Hemu.
  subst run. unfold attach, attach_chain. fold normalized.
  rewrite Hserver, Htypes.
  rewrite (bool_decide_eq_false_2 _ Hdev), (bool_decide_eq_false_2 _ Hemu).
  by repeat split.
Qed.

End Attach.

(** C10 at a request for the target "chrome": the chain inside [attach]
    ends with the normalized request and calls no resolver, as the claim
    says, but the promise that [attach] returns stays pending: it is not
    resolved with the request. *)
Theorem attach_chrome_stays_pending
    (attachAndroid attachIos : RequestArgs → outcome RequestArgs) :
  let run := attach (fun d => d) (Ok tt) (Ok tt) attachAndroid attachIos chromeAttachRequest in
  chain run = Ok (set_timeout (Some 10000) (set_port (Some 9222) chromeAttachRequest))
  ∧ calls run = [NewCordovaCDPProxy; SetApplicationTargetPort (Some 9222);
                 CreateServer; DetermineProjectTypes]
  ∧ promise run = Pending
  ∧ ∀ v, promise run ≠ Resolved v.
Proof.
  intros run. split; [reflexivity|]. split; [reflexivity|]. split; [reflexivity|].
  apply attach_never_resolves.
Qed.

End Attach.

(** ** The target type of the telemetry *)
Module TargetTypes.
Import Regex RegexFacts AppLauncher Notions.

(** X2.  [getTargetType] classifies a target by what its lower-case form
    contains: "emulator" anywhere makes it an emulator, whatever else it
    holds; otherwise "chrom" anywhere makes it Chrome; every other target
    is a device. *)
Theorem getTargetType_by_substring (target_ : jsstring) :
  let lower := toLowerCase target_ in
  (getTargetType target_ = Emulator ↔ includes (js "emulator") lower = true)
  ∧ (getTargetType target_ = Chrome
     ↔ includes (js "emulator") lower = false ∧ includes (js "chrom") lower = true)
  ∧ (getTargetType target_ = Device
     ↔ includes (js "emulator") lower = false ∧ includes (js "chrom") lower = false).
Proof.
  intros lower. unfold getTargetType. rewrite !test_liti by reflexivity. fold lower.
  change (toLowerCase (js "emulator")) with (js "emulator").
  change (toLowerCase (js "chrom")) with (js "chrom").
  destruct (includes (js "emulator") lower), (includes (js "chrom") lower);
    repeat split; try done; by intros [? ?].
Qed.

End TargetTypes.

(** ** The environment of an adb command, in general *)
Module Environment.
Import AppLauncher Notions.

Section RunAdbCommand.
Variable delimiter : jsstring.
Variable path_join : jsstring → jsstring → jsstring.
Variable execCommand : gmap (list N) (list N) → jsstring → list jsstring → outcome jsstring.
Variable args : list jsstring.

(** X3.  [runAdbCommand] leaves the environment as it found it exactly when
    PATH was set before the call: the [finally] handler then puts the old
    value back, whether ANDROID_HOME was set or not and whether adb
    succeeded or failed; with PATH not set it leaves a PATH behind. *)
Theorem runAdbCommand_restores_environment (env : gmap (list N) (list N)) :
  env_after (runAdbCommand delimiter path_join execCommand args env) = env
  ↔ is_Some (env !! js "PATH").
Proof.
  split.
  - intros H. rewrite <- H. unfold runAdbCommand, env_assign. cbn [env_after].
    rewrite lookup_insert_eq. eauto.
  - intros [path Hpath]. by eapply Adb.runAdbCommand_restores_set_PATH.
Qed.

(** X4.  adb runs in the environment of the caller with, at most, PATH
    changed: with ANDROID_HOME unset or empty the environment is the
    caller's; with ANDROID_HOME set, PATH is the old PATH, the delimiter and
    the platform-tools directory of ANDROID_HOME; no other variable differs,
    during the command or after it. *)
Theorem runAdbCommand_command_environment (env : gmap (list N) (list N)) :
  let run := runAdbCommand delimiter path_join execCommand args env in
  adb_result run = execCommand (env_during run) (js "adb") args
  ∧ (truthy (env !! js "ANDROID_HOME") = false → env_during run = env)
  ∧ (truthy (env !! js "ANDROID_HOME") = true →
     env_during run
     = <[js "PATH" := String_ (env !! js "PATH") ++ delimiter
                      ++ path_join (String_ (env !! js "ANDROID_HOME")) (js "platform-tools")]>
         env)
  ∧ (∀ name, name ≠ js "PATH" →
       env_during run !! name = env !! name ∧ env_after run !! name = env !! name).
Proof.
  intros run. split; [done|]. split; [|split].
  - intros H. subst run. unfold runAdbCommand. cbn [env_during]. by rewrite H.
  - intros H. subst run. unfold runAdbCommand. cbn [env_during]. by rewrite H.
  - intros name Hne. by apply Adb.runAdbCommand_other_variables.
Qed.

End RunAdbCommand.

End Environment.

(** ** Launching: the command lines *)
Module Launching.
Import Regex RegexFacts AppLauncher Notions.

Lemma non_empty_Some (l : list jsstring) : l ≠ [] → non_empty (Some l) = true.
Proof. by destruct l. Qed.

Lemma array_includes_cons x y l :
  array_includes x (y :: l) = str_eqb y x || array_includes x l.
Proof.
  unfold array_includes, array_indexOf. simpl. destruct (str_eqb y x); simpl; [done|].
  generalize 0%nat 1%nat. induction l as [|z l IH]; intros i j; simpl; [done|].
  destruct (str_eqb z x); simpl; [done|apply IH].
Qed.

Lemma array_includes_app x l1 l2 :
  array_includes x (l1 ++ l2) = array_includes x l1 || array_includes x l2.
Proof.
  induction l1 as [|y l1 IH]; simpl.
  - done.
  - by rewrite !array_includes_cons, IH, orb_assoc.
Qed.

Section LaunchAndroid.
Context {IProjectType : Type}.
Variable isIonicAngularProjectByProjectType : IProjectType → bool.
Variable getCliCommand : option jsstring → jsstring.

(** X5.  Run arguments decide the command line of [launchAndroid] alone:
    those of the request when it has any, else those of the project; they
    follow "run android" as they are, nothing is added for the target or
    for live reload, nothing is logged, and the dev server is started exactly
    when they hold "--livereload", whatever the request and the project type
    say about live reload. *)
Theorem launchAndroid_run_arguments_decide
    (launchArgs : RequestArgs) (projectType : IProjectType)
    (runArguments_ : option (list jsstring)) (given : list jsstring) :
  is_Some (target launchArgs) →
  given ≠ [] →
  runArguments launchArgs = Some given
  ∨ (non_empty (runArguments launchArgs) = false ∧ runArguments_ = Some given) →
  launchAndroid isIonicAngularProjectByProjectType getCliCommand
    launchArgs projectType runArguments_
  = Ok (androidAction (commandOf getCliCommand launchArgs)
          ([js "run"; js "android"] ++ given), []).
Proof.
  intros [target_ Htarget] Hgiven H. unfold launchAndroid, androidAction, commandOf.
  rewrite Htarget. destruct H as [H|[H1 H2]].
  - rewrite H, (non_empty_Some given Hgiven). simpl default.
    by destruct (array_includes _ _).
  - rewrite H1, H2, (non_empty_Some given Hgiven). simpl default.
    by destruct (array_includes _ _).
Qed.

(** X6.  Without run arguments and without live reload, a target that is
    neither "device" nor "emulator" (in any case of the letters) is passed
    on to Cordova as it was given, on an emulator run:
    run android --emulator --verbose --target=TARGET. *)
Theorem launchAndroid_named_target
    (launchArgs : RequestArgs) (projectType : IProjectType)
    (runArguments_ : option (list jsstring)) (target_ : jsstring) :
  target launchArgs = Some target_ →
  toLowerCase target_ ≠ js "device" →
  toLowerCase target_ ≠ js "emulator" →
  non_empty (runArguments launchArgs) = false →
  non_empty runArguments_ = false →
  ionicLiveReload launchArgs = false →
  launchAndroid isIonicAngularProjectByProjectType getCliCommand
    launchArgs projectType runArguments_
  = Ok (CordovaRunCommand (commandOf getCliCommand launchArgs)
          [js "run"; js "android"; js "--emulator"; js "--verbose";
           js "--target=" ++ target_], []).
Proof.
  intros Htarget Hdev Hemu Hrun Hrun' Hlive. unfold launchAndroid, commandOf.
  rewrite Htarget, Hrun, Hrun', Hlive.
  rewrite (bool_decide_eq_false_2 _ Hdev).
  assert (array_indexOf (toLowerCase target_) [js "device"; js "emulator"] = None) as ->.
  { unfold array_indexOf, array_indexOf_from, str_eqb.
    rewrite (bool_decide_eq_false_2 (js "device" = _)) by done.
    by rewrite (bool_decide_eq_false_2 (js "emulator" = _)) by done. }
  rewrite bool_decide_eq_true_2 by done.
  by rewrite !array_includes_app.
Qed.

End LaunchAndroid.

Lemma launchAndroid_run_arguments_witness :
  launchAndroid (fun _ : unit => false) (fun _ => js "cordova")
    (request (Some (js "android")) (Some (js "device"))
             (Some [js "--livereload"; js "--prod"]) false)
    tt (Some [js "--device"])
  = Ok (StartIonicDevServer [js "run"; js "android"; js "--livereload"; js "--prod"], []).
Proof.
  apply (launchAndroid_run_arguments_decide (fun _ : unit => false) (fun _ => js "cordova")
           (request (Some (js "android")) (Some (js "device"))
                    (Some [js "--livereload"; js "--prod"]) false)
           tt (Some [js "--device"]) [js "--livereload"; js "--prod"]);
    [by eexists|done|by left].
Defined.

Lemma launchAndroid_named_target_witness :
  launchAndroid (fun _ : unit => false) (fun _ => js "cordova")
    (request (Some (js "android")) (Some (js "Pixel_3_API_29")) None false) tt None
  = Ok (CordovaRunCommand (js "cordova")
          [js "run"; js "android"; js "--emulator"; js "--verbose";
           js "--target=Pixel_3_API_29"], []).
Proof.
  apply (launchAndroid_named_target (fun _ : unit => false) (fun _ => js "cordova")
           (request (Some (js "android")) (Some (js "Pixel_3_API_29")) None false) tt None
           (js "Pixel_3_API_29")); done.
Defined.

Section LaunchIos.
Context {IProjectType : Type}.
Variable isIonicAngularProjectByProjectType : IProjectType → bool.
Variable getCliCommand : option jsstring → jsstring.
Variable os_platform : jsstring.
Variable listOutput : outcome jsstring.

(** X7.  On a simulator [launchIos] never tells Cordova which one: when the
    target is not "device", the check of the target has passed and there are
    no run arguments, the command line is emulate ios and the build flag
    (after "--" for an Ionic project), with "--livereload" for a live reload
    of an Ionic project, and no "--target" option, whatever the target is; the
    branch that would add one is taken for the target "emulator" only, which
    the check has refused before. *)
Theorem launchIos_simulator_command_line
    (launchArgs : RequestArgs) (iosDebugProxyPort : option N)
    (projectType : IProjectType) (runArguments_ : option (list jsstring))
    (target_ : jsstring) :
  os_platform = js "darwin" →
  target launchArgs = Some target_ →
  toLowerCase target_ ≠ js "device" →
  checkIfTargetIsiOSSimulator (iosTarget target_) listOutput = Ok tt →
  non_empty (runArguments launchArgs) = false →
  non_empty runArguments_ = false →
  let ionic := isIonicAngularProjectByProjectType projectType in
  let args :=
    [js "emulate"; js "ios"] ++ (if ionic then [js "--"] else []) ++ [BUILD_FLAG] in
  fst (launchIos isIonicAngularProjectByProjectType getCliCommand os_platform listOutput
         launchArgs iosDebugProxyPort projectType runArguments_)
  = IosStarted
      (if ionicLiveReload launchArgs && ionic
       then IosDevServer (args ++ [js "--livereload"])
       else IosEmulate (commandOf getCliCommand launchArgs) args).
Proof.
  intros Hos Htarget Hdev Hcheck Hrun Hrun' ionic args.
  unfold launchIos, commandOf. rewrite Hos, Htarget, Hrun, Hrun', Hcheck.
  unfold str_eqb at 1. rewrite bool_decide_eq_true_2 by done. cbn [negb].
  unfold str_eqb at 1. rewrite (bool_decide_eq_false_2 _ Hdev).
  assert (str_eqb (iosTarget target_) (js "emulator") = false) as ->.
  { unfold checkIfTargetIsiOSSimulator in Hcheck.
    by destruct (str_eqb (iosTarget target_) (js "emulator")). }
  subst args ionic.
  destruct (isIonicAngularProjectByProjectType projectType), (ionicLiveReload launchArgs);
    reflexivity.
Qed.

(** X8.  [launchIos] refuses the target "emulator", in any case of its
    letters, on every run: on a Mac the check of the target fails with the
    invalid-target error before the list of simulators is looked at and
    before any command line is built; elsewhere the launch is rejected with
    the notice that iOS needs a Mac.  Nothing is started either way. *)
Theorem launchIos_refuses_emulator
    (launchArgs : RequestArgs) (iosDebugProxyPort : option N)
    (projectType : IProjectType) (runArguments_ : option (list jsstring))
    (target_ : jsstring) :
  target launchArgs = Some target_ →
  toLowerCase target_ = js "emulator" →
  fst (launchIos isIonicAngularProjectByProjectType getCliCommand os_platform listOutput
         launchArgs iosDebugProxyPort projectType runArguments_)
  = if str_eqb os_platform (js "darwin")
    then IosFailed (Error invalidTargetMessage)
    else IosRejected (js "Unable to launch iOS on non-mac machines").
Proof.
  intros Htarget Hemu. unfold launchIos. rewrite Htarget.
  destruct (str_eqb os_platform (js "darwin")); [|done]. cbn [negb].
  unfold iosTarget, checkIfTargetIsiOSSimulator. rewrite Hemu. reflexivity.
Qed.

End LaunchIos.

Lemma launchIos_simulator_witness :
  fst (launchIos (fun _ : unit => true) (fun _ => js "ionic") (js "darwin") (Ok iosSimulators)
         (request (Some (js "ios")) (Some (js "iPhone-8, 12.2")) None true) None tt None)
  = IosStarted (IosDevServer [js "emulate"; js "ios"; js "--"; BUILD_FLAG; js "--livereload"]).
Proof.
  apply (launchIos_simulator_command_line (fun _ : unit => true) (fun _ => js "ionic")
           (js "darwin") (Ok iosSimulators)
           (request (Some (js "ios")) (Some (js "iPhone-8, 12.2")) None true) None tt None
           (js "iPhone-8, 12.2")); by vm_compute.
Defined.

Lemma launchIos_refuses_emulator_witness :
  fst (launchIos (fun _ : unit => true) (fun _ => js "ionic") (js "darwin") (Ok iosSimulators)
         (request (Some (js "ios")) (Some (js "Emulator")) None false) None tt None)
  = IosFailed (Error invalidTargetMessage).
Proof.
  apply (launchIos_refuses_emulator (fun _ : unit => true) (fun _ => js "ionic")
           (js "darwin") (Ok iosSimulators)
           (request (Some (js "ios")) (Some (js "Emulator")) None false) None tt None
           (js "Emulator")); by vm_compute.
Defined.

(** No simulate target is the word "emulator". *)
Lemma isSimulateTarget_not_emulator target_ :
  toLowerCase target_ = js "emulator" → isSimulateTarget target_ = false.
Proof.
  intros H. unfold isSimulateTarget, SIMULATE_TARGETS.
  rewrite !array_includes_cons. unfold str_eqb.
  repeat (rewrite bool_decide_eq_false_2; [|by intros <-]). done.
Qed.

Section Launch.
Context {IProjectType : Type}.
Variable getCordovaProjectRoot : option jsstring → option jsstring.
Variable isIonicAngularProjectByProjectType : IProjectType → bool.
Variable getCliCommand : option jsstring → jsstring.
Variable os_platform : jsstring.
Variable listOutput : outcome jsstring.
Variable projectFacts : outcome (IProjectType * option (list jsstring) * option jsstring).
Variable stepOutcome : LaunchStep → outcome unit.

Lemma launchIos_emulator_target
    (launchArgs : RequestArgs) (iosDebugProxyPort : option N)
    (projectType : IProjectType) (runArguments_ : option (list jsstring))
    (target_ : jsstring) :
  target launchArgs = Some target_ →
  toLowerCase target_ = js "emulator" →
  os_platform = js "darwin" →
  fst (launchIos isIonicAngularProjectByProjectType getCliCommand os_platform listOutput
         launchArgs iosDebugProxyPort projectType runArguments_)
  = IosFailed (Error invalidTargetMessage).
Proof.
  intros Htarget Hemu ->. unfold launchIos. rewrite Htarget.
  unfold iosTarget, checkIfTargetIsiOSSimulator. rewrite Hemu. reflexivity.
Qed.

(** What the first statements of [launch] make of a request whose project
    root is found. *)
Lemma launch_normalize_found (launchArgs : RequestArgs) (root : jsstring) :
  getCordovaProjectRoot (cwd launchArgs) = Some root →
  launch_normalize getCordovaProjectRoot launchArgs
  = Ok {| platform := platform launchArgs;
          target :=
            if truthy (target launchArgs) then target launchArgs
            else Some (if bool_decide (platform launchArgs = Some (js "browser"))
                       then js "chrome" else js "emulator");
          port := Some (or_num (port launchArgs) 9222);
          cwd := Some root;
          attachTimeout := attachTimeout launchArgs;
          timeout := attachTimeout launchArgs;
          runArguments := runArguments launchArgs;
          ionicLiveReload := ionicLiveReload launchArgs;
          cordovaExecutable := cordovaExecutable launchArgs;
          url := url launchArgs |}.
Proof.
  intros Hroot. destruct launchArgs. unfold launch_normalize. simpl in *.
  destruct (truthy target0); simpl; by rewrite Hroot.
Qed.

(** X9.  A launch for iOS on a Mac without a target, or with the target
    "emulator", always fails: [launch] fills in the target "emulator", which
    is no simulate target, so the request goes to [launchIos], whose check
    refuses it.  The promise of [launch] is rejected with the invalid-target
    error, whatever the project, the list of simulators and the run
    arguments are. *)
Theorem launch_ios_without_target_fails
    (launchArgs : RequestArgs) (iosDebugProxyPort : option N)
    (facts : IProjectType * option (list jsstring) * option jsstring) :
  toLowerCase <$> platform launchArgs = Some (js "ios") →
  truthy (target launchArgs) = false
  ∨ toLowerCase <$> target launchArgs = Some (js "emulator") →
  is_Some (getCordovaProjectRoot (cwd launchArgs)) →
  projectFacts = Ok facts →
  os_platform = js "darwin" →
  launch getCordovaProjectRoot isIonicAngularProjectByProjectType getCliCommand
    os_platform listOutput projectFacts stepOutcome launchArgs iosDebugProxyPort
  = LaunchRejected (RejectError (Error invalidTargetMessage)).
Proof.
  intros Hplatform Htarget [root Hroot] Hfacts Hos.
  destruct facts as [[projectType runArguments_] cordovaExecutable_].
  unfold launch, launch_chain. rewrite (launch_normalize_found _ root Hroot), Hfacts.
  destruct (platform launchArgs) as [platform_|] eqn:Hp; [|done].
  injection Hplatform as Hplatform.
  rewrite (bool_decide_eq_false_2 (Some platform_ = Some (js "browser")))
    by (intros [= ->]; done).
  assert (∃ t, toLowerCase t = js "emulator"
               ∧ (if truthy (target launchArgs) then target launchArgs
                  else Some (js "emulator")) = Some t)
    as (t & Hemu & ->).
  { destruct Htarget as [Ht|Ht].
    - rewrite Ht. by exists (js "emulator").
    - destruct (target launchArgs) as [t|]; [|done]. injection Ht as Ht.
      exists t. split; [done|]. by destruct t. }
  unfold launch_strategy.
  cbn [set_cordovaExecutable platform target cordovaExecutable fmap option_fmap option_map
       String_].
  rewrite Hplatform.
  rewrite (bool_decide_eq_false_2 (Some (js "ios") = Some (js "android")))
    by (by intros [= ?]).
  rewrite (bool_decide_eq_true_2 (Some (js "ios") = Some (js "ios"))) by done.
  rewrite (isSimulateTarget_not_emulator _ Hemu).
  by erewrite launchIos_emulator_target; [|reflexivity|exact Hemu|exact Hos].
Qed.

End Launch.

Lemma launch_ios_without_target_witness :
  launch (fun d => d) (fun _ : unit => false) (fun _ => js "cordova") (js "darwin")
    (Ok iosSimulators) (Ok (tt, None, None)) (fun _ => Ok tt)
    (request (Some (js "iOS")) None None false) None
  = LaunchRejected (RejectError (Error invalidTargetMessage)).
Proof.
  apply (launch_ios_without_target_fails (fun d => d) (fun _ : unit => false)
           (fun _ => js "cordova") (js "darwin") (Ok iosSimulators) (Ok (tt, None, None))
           (fun _ => Ok tt) (request (Some (js "iOS")) None None false) None
           (tt, None, None));
    [done|by left|by eexists|done|done].
Defined.

Section Serve.
Context {IProjectType Number : Type}.
Variable isIonicAngularProjectByProjectType : IProjectType → bool.
Variable in_port_range : Number → bool.
Variable Number_toString : Number → jsstring.

(** X11.  For [launchServe] run arguments on the request count as given even
    when the list is empty: the command line is "serve" and the list, and
    neither the run arguments of the project nor "--nobrowser" and
    "--nolivereload" are used.  [startIonicDevServer], which gets this
    command line, takes the empty list for none: it still appends the
    address of the dev server, while after a list that is not empty it
    appends nothing and does not look at the port. *)
Theorem launchServe_given_run_arguments
    (launchArgs : RequestArgs) (projectType : IProjectType)
    (runArguments_ : option (list jsstring)) (given : list jsstring)
    (devServerAddress : option jsstring) (devServerPort : option (PortValue Number)) :
  isIonicAngularProjectByProjectType projectType = true →
  runArguments launchArgs = Some given →
  launchServe isIonicAngularProjectByProjectType launchArgs projectType runArguments_
  = (Ok (js "serve" :: given), [])
  ∧ isServe (js "serve" :: given) = true
  ∧ (given ≠ [] →
     devServerArgs in_port_range Number_toString (runArguments launchArgs)
       devServerAddress devServerPort (js "serve" :: given)
     = Ok (js "serve" :: given))
  ∧ (given = [] →
     devServerArgs in_port_range Number_toString (runArguments launchArgs)
       devServerAddress None (js "serve" :: given)
     = Ok (js "serve" ::
           if truthy devServerAddress then [js "--address"; String_ devServerAddress]
           else [])).
Proof.
  intros Hionic Hgiven. split; [|split; [done|split]].
  - unfold launchServe. rewrite Hionic, Hgiven. cbn [negb default].
    assert ((-1 <? Z.of_nat (length given))%Z = true) as -> by (apply Z.ltb_lt; lia).
    done.
  - intros Hne. unfold devServerArgs. by rewrite Hgiven, (non_empty_Some given Hne).
  - intros ->. unfold devServerArgs. rewrite Hgiven. cbn [non_empty negb].
    by destruct (truthy devServerAddress).
Qed.

(** X12.  [startIonicDevServer] refuses to start exactly when there are no
    run arguments and the request has a [devServerPort] that is not a
    number from 0 to 65535; the error names the field.  With run arguments
    the field is never looked at. *)
Theorem devServerArgs_rejects_invalid_port
    (runArguments_ : option (list jsstring)) (devServerAddress : option jsstring)
    (devServerPort : option (PortValue Number)) (cliArgs : list jsstring) :
  let invalid :=
    match devServerPort with
    | None => false
    | Some (IsNumber n) => negb (in_port_range n)
    | Some NotNumber => true
    end in
  devServerArgs in_port_range Number_toString runArguments_ devServerAddress devServerPort
    cliArgs
  = if negb (non_empty runArguments_) && invalid
    then Err (Error invalidDevServerPort)
    else Ok (cliArgs
             ++ (if negb (non_empty runArguments_) && truthy devServerAddress
                 then [js "--address"; String_ devServerAddress] else [])
             ++ match devServerPort with
                | Some (IsNumber n) =>
                    if negb (non_empty runArguments_) then [js "--port"; Number_toString n]
                    else []
                | _ => []
                end).
Proof.
  intros invalid. subst invalid. unfold devServerArgs.
  destruct (non_empty runArguments_); cbn [negb andb].
  - destruct devServerPort as [[n|]|]; by rewrite !app_nil_r.
  - destruct (truthy devServerAddress), devServerPort as [[n|]|];
      try destruct (in_port_range n); cbn [negb]; rewrite <- ?app_assoc, ?app_nil_r; done.
Qed.

End Serve.

Lemma launchServe_given_run_arguments_witness :
  launchServe (fun _ : unit => true) (request (Some (js "serve")) None (Some []) true) tt
    (Some [js "--lab"])
  = (Ok [js "serve"], [])
  ∧ devServerArgs (fun n : N => n <=? 65535) decimal (Some []) (Some (js "10.0.0.5")) None
      [js "serve"]
    = Ok [js "serve"; js "--address"; js "10.0.0.5"].
Proof.
  destruct (launchServe_given_run_arguments (fun _ : unit => true) (fun n : N => n <=? 65535)
              decimal (request (Some (js "serve")) None (Some []) true) tt
              (Some [js "--lab"]) [] (Some (js "10.0.0.5")) None eq_refl eq_refl)
    as (H1 & _ & _ & H2).
  split; [exact H1|]. exact (H2 eq_refl).
Defined.

Section Readiness.
Context {IProjectType Number : Type}.
Variable isIonicAngularProjectByProjectType : IProjectType → bool.
Variable getCliCommand : option jsstring → jsstring.
Variable os_platform : jsstring.
Variable listOutput : outcome jsstring.
Variable in_port_range : Number → bool.
Variable Number_toString : Number → jsstring.

(** The command line after [startIonicDevServer] has appended the address
    and the port to it: what it holds besides, and how it begins. *)
Lemma devServerArgs_started
    (runArguments_ : option (list jsstring)) (devServerAddress : option jsstring)
    (devServerPort : option (PortValue Number)) (cliArgs started : list jsstring) :
  non_empty runArguments_ = false →
  devServerArgs in_port_range Number_toString runArguments_ devServerAddress devServerPort
    cliArgs = Ok started →
  (∀ word, word ≠ js "--address" → word ≠ js "--port" →
     array_includes word started
     = array_includes word cliArgs
       || appended Number_toString devServerAddress devServerPort word)
  ∧ (cliArgs ≠ [] → head started = head cliArgs).
Proof.
  intros Hrun. unfold devServerArgs. rewrite Hrun. cbn [negb]. intros Hstarted.
  assert (started
          = cliArgs
            ++ (if truthy devServerAddress
                then [js "--address"; String_ devServerAddress] else [])
            ++ match devServerPort with
               | Some (IsNumber n) => [js "--port"; Number_toString n]
               | _ => []
               end) as ->.
  { destruct (truthy devServerAddress), devServerPort as [[n|]|];
      try destruct (in_port_range n); try done;
      injection Hstarted as <-; by rewrite <- ?app_assoc, ?app_nil_r. }
  split.
  - intros word Ha Hp. rewrite !array_includes_app. unfold appended. f_equal.
    assert (str_eqb (js "--address") word = false) as Ha'
      by (by apply bool_decide_eq_false_2).
    assert (str_eqb (js "--port") word = false) as Hp'
      by (by apply bool_decide_eq_false_2).
    f_equal.
    + destruct (truthy devServerAddress); [|done].
      rewrite !array_includes_cons, Ha'. cbn [orb andb]. by rewrite orb_false_r.
    + destruct devServerPort as [[n|]|]; [|done|done].
      rewrite !array_includes_cons, Hp'. cbn [orb]. by rewrite orb_false_r.
  - intros Hne. by destruct cliArgs.
Qed.

(** X13.  When a launcher starts the dev server without run arguments,
    [startIonicDevServer] first appends the address and the port of the
    request to the command line, and the detector chooses its pattern from
    the command line as it stands then; it is never taken for
    [ionic serve].  After [launchIos] the detector waits for the signs of a
    device install when the target is "device", and else for
    "build succeeded"; after [launchAndroid] for "launch success" or
    "run successful".  But the address counts as an argument: after
    [launchAndroid] the address "ios" makes the detector wait for the signs
    of iOS (those of a device for the target "device"), and after
    [launchIos] for a simulator the address "--device" makes it wait for
    those of a device. *)
Theorem launchers_wait_for_their_platform
    (launchArgs : RequestArgs) (iosDebugProxyPort : option N)
    (projectType : IProjectType) (runArguments_ : option (list jsstring))
    (devServerAddress : option jsstring) (devServerPort : option (PortValue Number))
    (cliArgs logged_ started : list jsstring) :
  non_empty (runArguments launchArgs) = false →
  non_empty runArguments_ = false →
  devServerArgs in_port_range Number_toString (runArguments launchArgs)
    devServerAddress devServerPort cliArgs = Ok started →
  let isDevice := bool_decide (toLowerCase <$> target launchArgs = Some (js "device")) in
  let appended_ := appended Number_toString devServerAddress devServerPort in
  (launchAndroid isIonicAngularProjectByProjectType getCliCommand
     launchArgs projectType runArguments_
   = Ok (StartIonicDevServer cliArgs, logged_) →
   isServe started = false
   ∧ getRegexToResolveAppDefer started
     = if appended_ (js "ios") && (isDevice || appended_ (js "--device"))
       then iosDeviceAppReadyRegex
       else if appended_ (js "ios") && appended_ (js "emulate")
       then iosSimulatorAppReadyRegex
       else appReadyRegex)
  ∧ (launchIos isIonicAngularProjectByProjectType getCliCommand os_platform listOutput
       launchArgs iosDebugProxyPort projectType runArguments_
     = (IosStarted (IosDevServer cliArgs), logged_) →
     isServe started = false
     ∧ getRegexToResolveAppDefer started
       = if isDevice || appended_ (js "--device")
         then iosDeviceAppReadyRegex
         else iosSimulatorAppReadyRegex).
Proof.
  intros Hrun Hrun' Hstarted isDevice appended_.
  destruct (devServerArgs_started _ _ _ _ _ Hrun Hstarted) as [Hinc Hhead].
  assert (∀ word, In word [js "ios"; js "--device"; js "emulate"] →
            array_includes word started = array_includes word cliArgs || appended_ word)
    as Hinc'.
  { intros word Hw. apply Hinc; intros ->; simpl in Hw; by intuition. }
  assert (getRegexToResolveAppDefer started
          = if (array_includes (js "ios") cliArgs || appended_ (js "ios"))
               && (array_includes (js "--device") cliArgs || appended_ (js "--device"))
            then iosDeviceAppReadyRegex
            else if (array_includes (js "ios") cliArgs || appended_ (js "ios"))
                    && (array_includes (js "emulate") cliArgs || appended_ (js "emulate"))
            then iosSimulatorAppReadyRegex
            else appReadyRegex) as Hregex.
  { unfold getRegexToResolveAppDefer. by rewrite !Hinc' by (simpl; tauto). }
  clear Hinc Hinc' Hstarted.
  split.
  - unfold launchAndroid. rewrite Hrun, Hrun'.
    destruct (target launchArgs) as [target_|] eqn:Ht; [|done].
    intros Hl.
    assert (cliArgs ≠ []
            ∧ head cliArgs = Some (js "run")
            ∧ array_includes (js "ios") cliArgs = false
            ∧ array_includes (js "emulate") cliArgs = false
            ∧ array_includes (js "--device") cliArgs = isDevice) as (Hne & Hh & Hi & He & Hd).
    { subst isDevice. cbn [fmap option_fmap option_map].
      replace (bool_decide (Some (toLowerCase target_) = Some (js "device")))
        with (bool_decide (toLowerCase target_ = js "device"))
        by (apply bool_decide_ext; split; [by intros ->|by intros [= ->]]).
      destruct (ionicLiveReload launchArgs),
        (isIonicAngularProjectByProjectType projectType),
        (bool_decide (toLowerCase target_ = js "device")),
        (bool_decide (array_indexOf (toLowerCase target_) [js "device"; js "emulator"] = None));
        rewrite ?array_includes_app in Hl; cbn -[js] in Hl; try discriminate Hl;
        injection Hl as <- <-;
        (split; [done|]); (split; [done|]);
        rewrite ?array_includes_app, !array_includes_cons; unfold str_eqb;
        repeat (rewrite bool_decide_eq_false_2 by done); done. }
    split.
    + unfold isServe. rewrite (Hhead Hne), Hh. by apply bool_decide_eq_false_2.
    + rewrite Hregex, Hi, He, Hd. cbn [orb]. done.
  - unfold launchIos. rewrite Hrun, Hrun'.
    destruct (negb (str_eqb os_platform (js "darwin"))); [done|].
    destruct (target launchArgs) as [target_|] eqn:Ht; [|done].
    intros Hl.
    assert (cliArgs ≠ []
            ∧ head cliArgs ≠ Some (js "serve")
            ∧ array_includes (js "ios") cliArgs = true
            ∧ array_includes (js "emulate") cliArgs = negb isDevice
            ∧ array_includes (js "--device") cliArgs = isDevice) as (Hne & Hh & Hi & He & Hd).
    { subst isDevice. cbn [fmap option_fmap option_map] in Hl |- *. unfold str_eqb at 1 in Hl.
      replace (bool_decide (Some (toLowerCase target_) = Some (js "device")))
        with (bool_decide (toLowerCase target_ = js "device"))
        by (apply bool_decide_ext; split; [by intros ->|by intros [= ->]]).
      destruct (bool_decide (toLowerCase target_ = js "device")) eqn:Hdev.
      - destruct (ionicLiveReload launchArgs),
          (isIonicAngularProjectByProjectType projectType);
          cbn -[js] in Hl; try discriminate Hl; injection Hl as <- <-; by vm_compute.
      - destruct (checkIfTargetIsiOSSimulator _ _) eqn:Hc; [|done].
        assert (str_eqb (iosTarget target_) (js "emulator") = false) as Hemu.
        { unfold checkIfTargetIsiOSSimulator in Hc.
          by destruct (str_eqb (iosTarget target_) (js "emulator")). }
        rewrite Hemu in Hl.
        destruct (ionicLiveReload launchArgs),
          (isIonicAngularProjectByProjectType projectType);
          cbn -[js] in Hl; try discriminate Hl; injection Hl as <- <-; by vm_compute. }
    split.
    + unfold isServe. rewrite (Hhead Hne). by apply bool_decide_eq_false_2.
    + rewrite Hregex, Hi, He, Hd. cbn [orb andb].
      destruct isDevice, (appended_ (js "--device")), (appended_ (js "emulate")); done.
Qed.

End Readiness.

Lemma launchers_wait_witness :
  devServerArgs (fun n : N => n <=? 65535) decimal None (Some (js "ios")) None
    androidLiveReloadArgs
  = Ok (androidLiveReloadArgs ++ [js "--address"; js "ios"])
  ∧ isServe (androidLiveReloadArgs ++ [js "--address"; js "ios"]) = false
  ∧ getRegexToResolveAppDefer (androidLiveReloadArgs ++ [js "--address"; js "ios"])
    = iosDeviceAppReadyRegex
  ∧ getRegexToResolveAppDefer androidLiveReloadArgs = appReadyRegex.
Proof.
  split; [done|].
  destruct (launchers_wait_for_their_platform (fun _ : unit => true) (fun _ => js "ionic")
              (js "darwin") (Ok iosSimulators) (fun n : N => n <=? 65535) decimal
              liveReloadRequest None tt None (Some (js "ios")) None
              androidLiveReloadArgs [] (androidLiveReloadArgs ++ [js "--address"; js "ios"])
              eq_refl eq_refl eq_refl) as [H _].
  destruct (H eq_refl) as [H1 H2]. split; [exact H1|]. split; [exact H2|].
  destruct (launchers_wait_for_their_platform (fun _ : unit => true) (fun _ => js "ionic")
              (js "darwin") (Ok iosSimulators) (fun n : N => n <=? 65535) decimal
              liveReloadRequest None tt None None None
              androidLiveReloadArgs [] androidLiveReloadArgs
              eq_refl eq_refl eq_refl) as [H' _].
  exact (proj2 (H' eq_refl)).
Defined.

(** X14.  [launchAndroid] takes the run for failed exactly when the standard
    output of the command holds "ERROR" in upper case, or its standard error
    holds "error:" in any case of the letters, anywhere; the error then says
    "Error running android" and nothing of the output.  A command that
    fails by itself keeps its own error. *)
Theorem cordovaResult_reads_the_output (runOutput stderr : jsstring) (e : error) :
  cordovaResult (Ok (runOutput, stderr))
  = (if includes (js "ERROR") runOutput || includes (js "error:") (toLowerCase stderr)
     then Err (Error (js "Error running android"))
     else Ok (js "App successfully launched"))
  ∧ cordovaResult (Err e) = Err e.
Proof.
  split; [|done]. unfold cordovaResult, androidRunVerdict. cbn [fst snd].
  change (cat [lit "ERROR"; star dot]) with (Seq (lits (js "ERROR")) (star dot)).
  change (cat [liti "error:"; star dot]) with (Seq (liti "error:") (star dot)).
  by rewrite test_grp_lits_star, test_liti_star.
Qed.

End Launching.

(** ** The dev server session as a whole *)
Module DevServer.
Import Regex RegexFacts AppLauncher Notions.

Lemma resolve_settled {A} (v : A) d : d ≠ Pending → resolve v d = d.
Proof. by destruct d. Qed.

Lemma reject_settled {A} e (d : deferred A) : d ≠ Pending → reject e d = d.
Proof. by destruct d. Qed.

Lemma reject_Resolved {A} e (d : deferred A) v : reject e d = Resolved v → d = Resolved v.
Proof. by destruct d. Qed.

Lemma follows_refl s : follows s s.
Proof. repeat split; try done; exists []; by rewrite app_nil_r. Qed.

Lemma follows_trans s1 s2 s3 : follows s1 s2 → follows s2 s3 → follows s1 s3.
Proof.
  intros (A1 & A2 & A3 & A4 & [t1 A5] & [t2 A6] & [l1 A7])
         (B1 & B2 & B3 & B4 & [u1 B5] & [u2 B6] & [l2 B7]).
  repeat split.
  - intros H. rewrite <- (A1 H). apply B1. by rewrite (A1 H).
  - intros H. rewrite <- (A2 H). apply B2. by rewrite (A2 H).
  - auto.
  - auto.
  - exists (t1 ++ u1). by rewrite B5, A5, app_assoc.
  - exists (t2 ++ u2). by rewrite B6, A6, app_assoc.
  - exists (l1 ++ l2). by rewrite B7, A7, app_assoc.
Qed.

Ltac later :=
  repeat split; cbn [serverOut serverErr serverReady appReady serverDeferred appDeferred logged];
  try done; try (intros; by apply resolve_settled); try (intros; by apply reject_settled);
  try (by eexists); try (exists []; by rewrite app_nil_r).

Section Session.
Variable EOL : jsstring.
Variable isIonic4 : bool.
Variable cliArgs : list jsstring.

(** *** Nothing is taken back *)

Lemma appendOutput_follows s data : follows s (appendOutput s data).
Proof. unfold appendOutput. later. Qed.

Lemma announceServer_follows m s : follows s (announceServer m s).
Proof. unfold announceServer. destruct (_ && _); [later|apply follows_refl]. Qed.

Lemma announceApp_follows m s : follows s (fst (announceApp cliArgs m s)).
Proof.
  unfold announceApp. destruct (_ && _ && _); [|apply follows_refl].
  destruct m; later.
Qed.

Lemma rejectOnMultipleInterfaces_follows s : follows s (rejectOnMultipleInterfaces EOL s).
Proof. unfold rejectOnMultipleInterfaces. destruct (test _ _); [later|apply follows_refl]. Qed.

Lemma rejectOnError_follows channel s : follows s (rejectOnError EOL isIonic4 channel s).
Proof.
  unfold rejectOnError. destruct (getServerErrorMessage _ _ _); [later|apply follows_refl].
Qed.

Lemma serverOutputHandler_follows s data :
  follows s (fst (serverOutputHandler EOL isIonic4 cliArgs s data)).
Proof.
  unfold serverOutputHandler.
  set (m := exec SERVER_URL_RE (serverOut (appendOutput s data))).
  pose proof (follows_trans _ _ _ (appendOutput_follows s data)
                (follows_trans _ _ _ (announceServer_follows m (appendOutput s data))
                   (announceApp_follows m (announceServer m (appendOutput s data))))) as H.
  destruct (announceApp cliArgs m _) as [s' [|e]]; cbn [fst] in *; [|done].
  eapply follows_trans; [exact H|].
  eapply follows_trans; [apply rejectOnMultipleInterfaces_follows|].
  apply rejectOnError_follows.
Qed.

Lemma serverErrorOutputHandler_follows s data :
  follows s (serverErrorOutputHandler EOL isIonic4 s data).
Proof.
  unfold serverErrorOutputHandler.
  eapply follows_trans; [|apply rejectOnError_follows]. later.
Qed.

Lemma onEvent_follows s ev : follows s (onEvent EOL isIonic4 cliArgs s ev).
Proof.
  destruct ev as [data|data]; unfold onEvent.
  - apply serverOutputHandler_follows.
  - set (A := match serverOutputHandler EOL isIonic4 cliArgs s data with
              | (s', Normal) => serverErrorOutputHandler EOL isIonic4 s' data
              | (s', Thrown _) => s'
              end).
    assert (follows s A) as HA.
    { subst A. pose proof (serverOutputHandler_follows s data) as H.
      destruct (serverOutputHandler EOL isIonic4 cliArgs s data) as [s' [|e]];
        cbn [fst] in H; [|done].
      eapply follows_trans; [exact H|apply serverErrorOutputHandler_follows]. }
    pose proof (serverErrorOutputHandler_follows s data) as HB.
    clearbody A. by destruct isIonic4.
Qed.

Lemma onProcessError_follows err s : follows s (onProcessError err s).
Proof. unfold onProcessError. later. Qed.

Lemma onExit_follows s : follows s (onExit EOL isIonic4 s).
Proof. unfold onExit. destruct (_ && _); later. Qed.

Lemma onChildEvent_follows s ev : follows s (onChildEvent EOL isIonic4 cliArgs s ev).
Proof.
  destruct ev; [apply onEvent_follows|apply onProcessError_follows|apply onExit_follows].
Qed.

Lemma onChildEvents_follows (evs : list ChildEvent) : ∀ s,
  follows s (onChildEvents EOL isIonic4 cliArgs s evs).
Proof.
  unfold onChildEvents. induction evs as [|ev evs IH]; intros s; simpl.
  - apply follows_refl.
  - eapply follows_trans; [apply onChildEvent_follows|apply IH].
Qed.

(** X15.  Nothing that the listeners of the dev server process have done is
    ever taken back, whatever events follow (output on either channel, an
    error, the exit): a promise that is settled keeps its state and its
    value, the flags [serverReady] and [appReady] stay set, and the two
    outputs and the log only grow. *)
Theorem session_only_moves_forward (evs : list ChildEvent) : ∀ s,
  follows s (onChildEvents EOL isIonic4 cliArgs s evs).
Proof.
  unfold onChildEvents. induction evs as [|ev evs IH]; intros s; simpl.
  - apply follows_refl.
  - eapply follows_trans; [apply onChildEvent_follows|apply IH].
Qed.

(** *** What the session knows about the output *)

Lemma SERVER_URL_RE_extends out t :
  is_Some (exec SERVER_URL_RE out) → is_Some (exec SERVER_URL_RE (out ++ t)).
Proof. by apply search_extends. Qed.

Lemma appendOutput_announced s data : announced s → announced (appendOutput s data).
Proof. intros H Hr. apply SERVER_URL_RE_extends. by apply H. Qed.

Lemma announceServer_announced s :
  announced s → announced (announceServer (exec SERVER_URL_RE (serverOut s)) s).
Proof.
  intros H. unfold announceServer.
  destruct (negb (serverReady s) && _) eqn:Hc; [|done].
  apply andb_true_iff in Hc as [_ Hm]. apply bool_decide_eq_true_1 in Hm. by intros _.
Qed.

Lemma announceApp_announced m s : announced s → announced (fst (announceApp cliArgs m s)).
Proof. intros H. unfold announceApp. by destruct (_ && _ && _). Qed.

Lemma rejectOnMultipleInterfaces_announced s :
  announced s → announced (rejectOnMultipleInterfaces EOL s).
Proof. intros H. unfold rejectOnMultipleInterfaces. by destruct (test _ _). Qed.

Lemma rejectOnError_announced channel s :
  announced s → announced (rejectOnError EOL isIonic4 channel s).
Proof. intros H. unfold rejectOnError. by destruct (getServerErrorMessage _ _ _). Qed.

(** With an announcement in the output the handler finds the match whose
    capture it reads: it does not throw. *)
Lemma announceApp_normal s :
  announced s → snd (announceApp cliArgs (exec SERVER_URL_RE (serverOut s)) s) = Normal.
Proof.
  intros H. unfold announceApp.
  destruct (serverReady s && negb (appReady s) && _) eqn:Hc; [|done].
  apply andb_true_iff in Hc as [Hc _]. apply andb_true_iff in Hc as [Hr _].
  by destruct (H Hr) as [m ->].
Qed.

Lemma serverOutputHandler_announced s data :
  announced s →
  announced (fst (serverOutputHandler EOL isIonic4 cliArgs s data))
  ∧ snd (serverOutputHandler EOL isIonic4 cliArgs s data) = Normal.
Proof.
  intros H. unfold serverOutputHandler.
  pose proof (announceServer_announced _ (appendOutput_announced s data H)) as H1.
  set (s1 := announceServer _ _) in *.
  assert (serverOut s1 = serverOut (appendOutput s data)) as Ho.
  { subst s1. unfold announceServer. by destruct (_ && _). }
  rewrite <- Ho.
  pose proof (announceApp_normal s1 H1) as Hn.
  pose proof (announceApp_announced (exec SERVER_URL_RE (serverOut s1)) s1 H1) as H2.
  destruct (announceApp _ _ _) as [s2 c]. cbn [fst snd] in *. subst c.
  split; [|done]. cbn [fst].
  by apply rejectOnError_announced, rejectOnMultipleInterfaces_announced.
Qed.

Lemma serverErrorOutputHandler_announced s data :
  announced s → announced (serverErrorOutputHandler EOL isIonic4 s data).
Proof. intros H. unfold serverErrorOutputHandler. by apply rejectOnError_announced. Qed.

Lemma onEvent_announced s ev : announced s → announced (onEvent EOL isIonic4 cliArgs s ev).
Proof.
  intros H. destruct (serverOutputHandler_announced s) with (data :=
    match ev with Stdout d | Stderr d => d end) as [H1 H2]; [done|].
  destruct ev as [data|data]; unfold onEvent; [done|].
  destruct (serverOutputHandler EOL isIonic4 cliArgs s data) as [s' c].
  cbn [fst snd] in *. subst c.
  pose proof (serverErrorOutputHandler_announced s' data H1).
  pose proof (serverErrorOutputHandler_announced s data H).
  by destruct isIonic4.
Qed.

Lemma onChildEvent_announced s ev :
  announced s → announced (onChildEvent EOL isIonic4 cliArgs s ev).
Proof.
  intros H. destruct ev as [ev|err|]; [by apply onEvent_announced|done|].
  unfold onChildEvent, onExit. by destruct (_ && _).
Qed.

Lemma onChildEvents_announced evs : ∀ s,
  announced s → announced (onChildEvents EOL isIonic4 cliArgs s evs).
Proof.
  unfold onChildEvents. induction evs as [|ev evs IH]; intros s H; simpl; [done|].
  by apply IH, onChildEvent_announced.
Qed.

(** X16.  The listener of the output never throws.  It reads the URL from the
    match of the announcement, which it looks up again in the whole output
    on every chunk; since the output only grows and the pattern has no end
    anchor, the match that was there when [serverReady] was set is there on
    every later chunk.  This holds after any events, on either channel. *)
Theorem serverOutputHandler_never_throws (evs : list ChildEvent) (data : jsstring) :
  snd (serverOutputHandler EOL isIonic4 cliArgs
         (onChildEvents EOL isIonic4 cliArgs newSession evs) data) = Normal.
Proof.
  apply serverOutputHandler_announced, onChildEvents_announced. by intros [=].
Qed.

(** *** Where the URLs come from *)

Lemma read_from_output_grows s s' :
  read_from_output s → appDeferred s' = appDeferred s →
  (∃ t, serverOut s' = serverOut s ++ t) → read_from_output s'.
Proof.
  intros H Ha [t Ho] urls Hu. rewrite Ha in Hu.
  destruct (H urls Hu) as (m & out & t' & Hout & Hm & ->).
  exists m, out, (t' ++ t). by rewrite Ho, Hout, app_assoc.
Qed.

Lemma read_from_output_rejected e s s' :
  read_from_output s → appDeferred s' = reject e (appDeferred s) →
  serverOut s' = serverOut s → read_from_output s'.
Proof.
  intros H Ha Ho urls Hu. rewrite Ha in Hu. apply reject_Resolved in Hu.
  rewrite Ho. by apply H.
Qed.

Lemma announceApp_read_from_output s :
  read_from_output s →
  read_from_output (fst (announceApp cliArgs (exec SERVER_URL_RE (serverOut s)) s)).
Proof.
  intros H. unfold announceApp. destruct (_ && _ && _); [|done].
  destruct (exec SERVER_URL_RE (serverOut s)) as [m|] eqn:Hm; cbn [fst]; [|done].
  intros urls. cbn [appDeferred serverOut].
  destruct (appDeferred s) as [|v|e] eqn:Ha; cbn [resolve].
  - intros [= <-]. exists m, (serverOut s), []. by rewrite app_nil_r.
  - intros [= <-]. by apply H.
  - done.
Qed.

Lemma serverOutputHandler_read_from_output s data :
  read_from_output s →
  read_from_output (fst (serverOutputHandler EOL isIonic4 cliArgs s data)).
Proof.
  intros H. unfold serverOutputHandler.
  assert (read_from_output (appendOutput s data)) as H0
    by (eapply read_from_output_grows; [exact H|done|by eexists]).
  set (s1 := announceServer _ _).
  assert (serverOut s1 = serverOut (appendOutput s data)
          ∧ appDeferred s1 = appDeferred (appendOutput s data)) as [Ho Ha].
  { subst s1. unfold announceServer. by destruct (_ && _). }
  assert (read_from_output s1) as H1.
  { eapply read_from_output_grows; [exact H0|done|]. exists []. by rewrite app_nil_r. }
  rewrite <- Ho. pose proof (announceApp_read_from_output s1 H1) as H2.
  destruct (announceApp _ _ _) as [s2 [|e]]; cbn [fst] in *; [|done].
  assert (read_from_output (rejectOnMultipleInterfaces EOL s2)) as H3.
  { unfold rejectOnMultipleInterfaces. by destruct (test _ _). }
  unfold rejectOnError. destruct (getServerErrorMessage _ _ _) as [msg|]; [|done].
  by eapply (read_from_output_rejected (Error msg)).
Qed.

Lemma serverErrorOutputHandler_read_from_output s data :
  read_from_output s → read_from_output (serverErrorOutputHandler EOL isIonic4 s data).
Proof.
  intros H. unfold serverErrorOutputHandler, rejectOnError.
  cbn [serverErr]. destruct (getServerErrorMessage _ _ _) as [msg|]; [|done].
  by eapply (read_from_output_rejected (Error msg)).
Qed.

Lemma onEvent_read_from_output s ev :
  read_from_output s → read_from_output (onEvent EOL isIonic4 cliArgs s ev).
Proof.
  intros H. destruct ev as [data|data]; unfold onEvent.
  - by apply serverOutputHandler_read_from_output.
  - pose proof (serverOutputHandler_read_from_output s data H) as H1.
    destruct (serverOutputHandler EOL isIonic4 cliArgs s data) as [s' c]. cbn [fst] in H1.
    pose proof (serverErrorOutputHandler_read_from_output s' data H1).
    pose proof (serverErrorOutputHandler_read_from_output s data H).
    destruct isIonic4; [|done]. by destruct c.
Qed.

Lemma onChildEvent_read_from_output s ev :
  read_from_output s → read_from_output (onChildEvent EOL isIonic4 cliArgs s ev).
Proof.
  intros H. destruct ev as [ev|err|]; [by apply onEvent_read_from_output|done|].
  unfold onChildEvent, onExit. destruct (_ && _); [done|].
  by eapply (read_from_output_rejected (Error (exitMessage EOL isIonic4 (serverErr s)))).
Qed.

Lemma onChildEvents_read_from_output evs : ∀ s,
  read_from_output s → read_from_output (onChildEvents EOL isIonic4 cliArgs s evs).
Proof.
  unfold onChildEvents. induction evs as [|ev evs IH]; intros s H; simpl; [done|].
  by apply IH, onChildEvent_read_from_output.
Qed.

(** X17.  Whenever [appDeferred] is resolved, after any events, its value is
    the list of URLs read from the output as it stood at some moment: the
    URL of an announcement first, then the external ones.  So the list is
    never empty, and the check for an empty list at the end of
    [startIonicDevServer], with its error "Unable to determine the Ionic dev
    server address", never fires: once [serverDeferred] is resolved too, the
    function yields these URLs without their escape sequences, unless the
    time of one of its two waits has run out before. *)
Theorem appDeferred_urls_read_from_output (evs : list ChildEvent) (urls : list jsstring) :
  let s := onChildEvents EOL isIonic4 cliArgs newSession evs in
  appDeferred s = Resolved urls →
  (∃ m out t, serverOut s = out ++ t ∧ exec SERVER_URL_RE out = Some m
              ∧ urls = serverUrls m out ∧ head urls = group 2 m)
  ∧ urls ≠ []
  ∧ (is_resolved (serverDeferred s) →
     ∀ devServerTimeout,
       ionicDevServerUrls devServerTimeout false false s = Resolved (map stripAnsi urls)).
Proof.
  intros s Hu.
  assert (read_from_output s) as H by (by apply onChildEvents_read_from_output).
  destruct (H urls Hu) as (m & out & t & Hout & Hm & ->).
  split; [|split; [done|]].
  - exists m, out, t. repeat split; try done.
    unfold serverUrls. cbn [head]. by rewrite (Detector.SERVER_URL_RE_url _ m Hm).
  - intros [v Hv] devServerTimeout. unfold ionicDevServerUrls, Q_timeout. by rewrite Hv, Hu.
Qed.

(** *** [ionic serve] *)

(** X18.  For [ionic serve] there is no second wait: the chunk with which
    the output first announces the server resolves both promises at once,
    [appDeferred] with the URLs read from the output so far, and an error
    line in the same output no longer rejects it.  The promise of
    [startIonicDevServer] is then fulfilled with these URLs, without their
    escape sequences, when the announcement has come in time; when the
    time of the first wait had run out before, it is rejected with the
    message of that wait. *)
Theorem serve_is_ready_with_the_announcement (s : ServerSession) (data : jsstring) (m : result) :
  isServe cliArgs = true →
  waiting s →
  exec SERVER_URL_RE (serverOut s ++ data) = Some m →
  let s' := fst (serverOutputHandler EOL isIonic4 cliArgs s data) in
  serverDeferred s' = Resolved None
  ∧ appDeferred s' = Resolved (serverUrls m (serverOut s ++ data))
  ∧ ∀ devServerTimeout,
      ionicDevServerUrls devServerTimeout false false s'
      = Resolved (map stripAnsi (serverUrls m (serverOut s ++ data)))
      ∧ ∀ appReadyExpired,
          ionicDevServerUrls devServerTimeout true appReadyExpired s'
          = Rejected (SystemError (js "ETIMEDOUT") (serverReadyTimedOut devServerTimeout)).
Proof.
  intros Hserve (Hr & Ha & Hs & Hp) Hm s'.
  assert (serverDeferred s' = Resolved None
          ∧ appDeferred s' = Resolved (serverUrls m (serverOut s ++ data))) as [H1 H2].
  { subst s'. unfold serverOutputHandler.
    cbn [appendOutput serverOut]. rewrite Hm.
    rewrite Detector.announceServer_first by done.
    unfold announceApp.
    cbn [appendOutput serverOut serverErr serverReady appReady serverDeferred appDeferred
         logged].
    rewrite Ha, Hserve, Hs, Hp. cbn [negb andb orb resolve fst].
    unfold rejectOnMultipleInterfaces.
    cbn [serverOut serverErr serverReady appReady serverDeferred appDeferred logged].
    destruct (test multipleInterfacesRegex _); unfold rejectOnError;
      cbn [serverOut serverErr serverReady appReady serverDeferred appDeferred logged];
      by destruct (getServerErrorMessage _ _ _). }
  split; [done|]. split; [done|]. intros devServerTimeout.
  unfold ionicDevServerUrls, Q_timeout. by rewrite H1, H2.
Qed.

(** *** The end of the process *)

(** X19.  The exit of the process always ends the wait: after the listener of
    "exit" neither promise is pending, so the promise of
    [startIonicDevServer] is settled, whether or not the time of a wait has
    run out, and no later event changes that.  A
    promise that was pending is rejected with the exit message, which
    begins with the notice of the unexpected exit. *)
Theorem exit_settles_the_session (s : ServerSession) (evs : list ChildEvent) :
  let s' := onExit EOL isIonic4 s in
  let s'' := onChildEvents EOL isIonic4 cliArgs s' evs in
  serverDeferred s' ≠ Pending ∧ appDeferred s' ≠ Pending
  ∧ (∀ devServerTimeout serverReadyExpired appReadyExpired,
       ionicDevServerUrls devServerTimeout serverReadyExpired appReadyExpired s' ≠ Pending)
  ∧ (serverDeferred s = Pending →
     serverDeferred s' = Rejected (Error (exitMessage EOL isIonic4 (serverErr s))))
  ∧ (appDeferred s = Pending →
     appDeferred s' = Rejected (Error (exitMessage EOL isIonic4 (serverErr s))))
  ∧ (∃ rest_, exitMessage EOL isIonic4 (serverErr s)
              = js "The Ionic live reload server exited unexpectedly" ++ rest_)
  ∧ serverDeferred s'' = serverDeferred s' ∧ appDeferred s'' = appDeferred s'.
Proof.
  intros s' s''.
  assert (serverDeferred s' ≠ Pending ∧ appDeferred s' ≠ Pending) as [H1 H2].
  { subst s'. unfold onExit.
    destruct (serverDeferred s), (appDeferred s); by cbn. }
  split; [done|]. split; [done|]. split; [|split; [|split; [|split]]].
  - intros devServerTimeout serverReadyExpired appReadyExpired.
    unfold ionicDevServerUrls, Q_timeout.
    destruct serverReadyExpired; [done|].
    destruct (serverDeferred s'); [done| |done].
    destruct appReadyExpired; [done|].
    destruct (appDeferred s') as [|[|u l]|]; done.
  - intros H. subst s'. unfold onExit. by rewrite H.
  - intros H. subst s'. unfold onExit. rewrite H. by rewrite andb_false_r.
  - unfold exitMessage. destruct (getServerErrorMessage _ _ _) as [msg|].
    + destruct (_ || _); by eexists.
    + exists []. by rewrite app_nil_r.
  - split; by apply (onChildEvents_follows evs s').
Qed.

End Session.

Lemma appDeferred_urls_witness :
  let s := onChildEvents [LF] false androidLiveReloadArgs newSession
             [Data (Stdout announcement); Data (Stdout launched); Exit] in
  appDeferred s = Resolved [js "http://localhost:8100"]
  ∧ ionicDevServerUrls None false false s = Resolved [js "http://localhost:8100"].
Proof.
  assert (appDeferred (onChildEvents [LF] false androidLiveReloadArgs newSession
                         [Data (Stdout announcement); Data (Stdout launched); Exit])
          = Resolved [js "http://localhost:8100"]) as Hu by (by vm_compute).
  destruct (appDeferred_urls_read_from_output [LF] false androidLiveReloadArgs
              [Data (Stdout announcement); Data (Stdout launched); Exit]
              [js "http://localhost:8100"] Hu) as (_ & _ & H3).
  split; [exact Hu|]. etransitivity; [apply (H3 (ex_intro _ None eq_refl) None)|].
  by vm_compute.
Defined.

Lemma serve_is_ready_witness :
  let s' := fst (serverOutputHandler [LF] false [js "serve"] newSession announcement) in
  serverDeferred s' = Resolved None
  ∧ ionicDevServerUrls None false false s' = Resolved [js "http://localhost:8100"]
  ∧ ionicDevServerUrls None true false s'
    = Rejected (SystemError (js "ETIMEDOUT")
                  (js "Starting the Ionic dev server timed out (30000 ms)")).
Proof.
  destruct (exec SERVER_URL_RE (serverOut newSession ++ announcement)) as [m|] eqn:Hm;
    [|by vm_compute in Hm].
  destruct (serve_is_ready_with_the_announcement [LF] false [js "serve"] newSession
              announcement m eq_refl Detector.newSession_waiting Hm) as (H1 & H2 & H3).
  destruct (H3 None) as [H4 H5].
  split; [exact H1|]. split.
  - etransitivity; [exact H4|]. vm_compute in Hm. injection Hm as <-. by vm_compute.
  - etransitivity; [exact (H5 false)|]. by vm_compute.
Defined.

(** *** The port notice of Ionic 4 *)

Section Masking.
Variable EOL : jsstring.
Variable cliArgs : list jsstring.

Lemma includes_app_r sub s t : includes sub s = true → includes sub (s ++ t) = true.
Proof.
  rewrite <- !test_lits. apply test_extends.
  - unfold lits. induction sub as [|a [|b sub] IH]; try done.
  - unfold lits. induction sub as [|a [|b sub] IH]; try done.
Qed.

Lemma includes_app_l sub s t : includes sub s = true → includes sub (t ++ s) = true.
Proof.
  rewrite !includes_anywhere. intros H. induction t as [|c t IH]; [done|].
  simpl. rewrite IH. apply orb_true_r.
Qed.

Lemma getServerErrorMessage_masked channel :
  includes portProbeNotice channel = true → getServerErrorMessage EOL true channel = None.
Proof.
  intros H. unfold getServerErrorMessage.
  change (lit "utils-network error while checking") with (lits portProbeNotice).
  by rewrite test_lits, H.
Qed.

Lemma at_most_resolved_refl s : at_most_resolved s s.
Proof. by left. Qed.

Lemma at_most_resolved_trans s1 s2 s3 :
  at_most_resolved s1 s2 → at_most_resolved s2 s3 → at_most_resolved s1 s3.
Proof.
  intros [H1|[H1 H1']] [H2|[H2 H2']].
  - left. by rewrite H2.
  - right. by rewrite <- H1.
  - right. by rewrite H2.
  - destruct H1' as [v Hv]. by rewrite Hv in H2.
Qed.

Lemma serverOutputHandler_masked s data :
  includes portProbeNotice (serverOut s ++ data) = true →
  let s' := fst (serverOutputHandler EOL true cliArgs s data) in
  serverOut s' = serverOut s ++ data ∧ serverErr s' = serverErr s
  ∧ at_most_resolved s s'.
Proof.
  intros H. unfold serverOutputHandler.
  set (m := exec SERVER_URL_RE (serverOut (appendOutput s data))).
  set (s1 := announceServer m (appendOutput s data)).
  assert (serverOut s1 = serverOut s ++ data ∧ serverErr s1 = serverErr s
          ∧ appDeferred s1 = appDeferred s) as (Ho1 & He1 & Ha1).
  { subst s1. unfold announceServer. by destruct (_ && _). }
  assert (serverOut (fst (announceApp cliArgs m s1)) = serverOut s ++ data
          ∧ serverErr (fst (announceApp cliArgs m s1)) = serverErr s
          ∧ at_most_resolved s (fst (announceApp cliArgs m s1))) as (Ho2 & He2 & Ha2).
  { unfold announceApp. destruct (_ && _ && _); cbn [fst]; [|by repeat split; [| |left]].
    cbn [serverOut serverErr appDeferred]. repeat split; try done.
    destruct m as [m'|]; [|by left].
    unfold at_most_resolved. cbn [appDeferred]. rewrite Ha1.
    destruct (appDeferred s); [right|left|left]; try done. split; [done|by eexists]. }
  destruct (announceApp cliArgs m s1) as [s2 [|e]]; cbn [fst] in *; [|done].
  unfold rejectOnError.
  assert (serverOut (rejectOnMultipleInterfaces EOL s2) = serverOut s ++ data
          ∧ serverErr (rejectOnMultipleInterfaces EOL s2) = serverErr s
          ∧ appDeferred (rejectOnMultipleInterfaces EOL s2) = appDeferred s2)
    as (Ho3 & He3 & Ha3).
  { unfold rejectOnMultipleInterfaces. by destruct (test _ _). }
  rewrite Ho3, (getServerErrorMessage_masked _ H).
  split; [done|]. split; [done|].
  destruct Ha2 as [Ha2|[Ha2 Ha2']]; [left|right]; by rewrite Ha3.
Qed.

Lemma onEvent_masked s ev :
  masked s →
  masked (onEvent EOL true cliArgs s ev)
  ∧ at_most_resolved s (onEvent EOL true cliArgs s ev).
Proof.
  intros [Ho He]. destruct ev as [data|data]; unfold onEvent.
  - destruct (serverOutputHandler_masked s data (includes_app_r _ _ _ Ho))
      as (Ho' & He' & Ha').
    split; [|done]. split; [rewrite Ho'; by apply includes_app_r|by rewrite He'].
  - destruct (serverOutputHandler_masked s data (includes_app_r _ _ _ Ho))
      as (Ho' & He' & Ha').
    destruct (serverOutputHandler EOL true cliArgs s data) as [s' [|e]]; cbn [fst] in *.
    + unfold serverErrorOutputHandler, rejectOnError.
      cbn [serverOut serverErr appDeferred]. rewrite He'.
      rewrite (getServerErrorMessage_masked _ (includes_app_r _ _ data He)).
      split; [|done]. split; cbn [serverOut serverErr];
        [rewrite Ho'|]; by apply includes_app_r.
    + split; [|done]. split; [rewrite Ho'; by apply includes_app_r|by rewrite He'].
Qed.

Lemma onEvents_masked evs : ∀ s,
  masked s → at_most_resolved s (onEvents EOL true cliArgs s evs).
Proof.
  unfold onEvents. induction evs as [|ev evs IH]; intros s H; simpl.
  - apply at_most_resolved_refl.
  - destruct (onEvent_masked s ev H) as [H1 H2].
    eapply at_most_resolved_trans; [exact H2|by apply IH].
Qed.

Lemma onEvents_onChildEvents isIonic4 evs : ∀ s,
  onEvents EOL isIonic4 cliArgs s evs
  = onChildEvents EOL isIonic4 cliArgs s (map Data evs).
Proof.
  unfold onEvents, onChildEvents. induction evs as [|ev evs IH]; intros s; simpl; [done|].
  apply IH.
Qed.

(** X20.  Under Ionic 4 a port notice ("utils-network error while checking")
    on the standard error blinds the detector to errors for the rest of the
    session: the notice stays in both accumulated outputs, so from then on
    no error line, on either channel and however many follow, rejects
    [appDeferred]; all that can still happen to it through the output is to
    be resolved. *)
Theorem ionic4_port_notice_masks_errors (evs0 evs1 : list ProcessEvent) (data : jsstring) :
  includes portProbeNotice data = true →
  let s := onEvents EOL true cliArgs newSession (evs0 ++ [Stderr data]) in
  let s' := onEvents EOL true cliArgs s evs1 in
  getServerErrorMessage EOL true (serverOut s') = None
  ∧ getServerErrorMessage EOL true (serverErr s') = None
  ∧ at_most_resolved s s'.
Proof.
  intros Hdata s s'.
  assert (masked s) as Hs.
  { subst s. unfold onEvents. rewrite fold_left_app. cbn [fold_left].
    fold (onEvents EOL true cliArgs newSession evs0).
    set (s0 := onEvents EOL true cliArgs newSession evs0).
    unfold onEvent.
    assert (snd (serverOutputHandler EOL true cliArgs s0 data) = Normal) as Hn.
    { subst s0. rewrite onEvents_onChildEvents.
      apply serverOutputHandler_announced, onChildEvents_announced. by intros [=]. }
    destruct (serverOutputHandler_masked s0 data (includes_app_l _ _ _ Hdata))
      as (Ho & He & _).
    destruct (serverOutputHandler EOL true cliArgs s0 data) as [s1 c].
    cbn [fst snd] in *. subst c.
    unfold serverErrorOutputHandler, rejectOnError, masked.
    cbn [serverOut serverErr]. rewrite He.
    rewrite (getServerErrorMessage_masked _ (includes_app_l _ _ (serverErr s0) Hdata)).
    cbn [serverOut serverErr]. rewrite Ho.
    split; by apply includes_app_l. }
  assert (masked s') as [Ho' He'].
  { subst s'. clearbody s. unfold onEvents.
    revert s Hs. induction evs1 as [|ev evs IH]; intros s Hs; simpl; [done|].
    apply IH. by apply onEvent_masked. }
  split; [by apply getServerErrorMessage_masked|].
  split; [by apply getServerErrorMessage_masked|].
  by apply onEvents_masked.
Qed.

End Masking.

Lemma ionic4_port_notice_witness :
  let s := onEvents [LF] true androidLiveReloadArgs newSession [Stderr portNotice] in
  let s' := onEvents [LF] true androidLiveReloadArgs s [Stderr errorLine; Stdout errorLine] in
  appDeferred s = Pending
  ∧ getServerErrorMessage [LF] false (serverErr s') ≠ None
  ∧ getServerErrorMessage [LF] true (serverErr s') = None
  ∧ at_most_resolved s s'.
Proof.
  pose proof (ionic4_port_notice_masks_errors [LF] androidLiveReloadArgs []
                [Stderr errorLine; Stdout errorLine] portNotice eq_refl) as (_ & H2 & H3).
  split; [by vm_compute|]. split; [by vm_compute|]. split; [exact H2|exact H3].
Defined.

End DevServer.

(** ** Attaching on Android: the process and its socket *)
Module AndroidProcess.
Import Regex RegexFacts AppLauncher Notions.

Lemma trim_start_nil_head s c t : trim_start s = c :: t → s ≠ [].
Proof. by destruct s. Qed.

Lemma trim_cons pid c t : trim pid = c :: t → truthy (Some pid) = true.
Proof. destruct pid as [|a pid]; [by vm_compute|done]. Qed.

(** X21.  Where the process id comes from.  The output of [pidof] is taken
    when, without the white space around it, it is one or more decimal
    digits, and then [ps] is not run; any other output (none, two ids, a
    message) is treated like the error "pidof: not found" and sends the
    search to [ps].  A failure of the command with any other error is
    dropped without a trace: the process id is [undefined] and [ps] is not
    run. *)
Theorem findPid_sources (appPackageName : option jsstring) (pidof ps : outcome jsstring) :
  findPid appPackageName pidof ps
  = let fromPs :=
      match ps with
      | Ok psResult => pidFromPs appPackageName psResult
      | Err e => Err e
      end in
    match pidof with
    | Ok out => if is_number (trim out) then Ok (Some (trim out)) else fromPs
    | Err e => if isPidofNotFound e then fromPs else Ok None
    end.
Proof.
  unfold findPid. destruct pidof as [out|e]; cbn zeta.
  - unfold pidOfOutput. rewrite test_digits. fold (is_number (trim out)).
    destruct (is_number (trim out)) eqn:Hn.
    + destruct (trim out) as [|c t] eqn:Ht; [done|].
      by rewrite (trim_cons out c t Ht).
    + rewrite andb_false_r. by vm_compute isPidofNotFound.
  - by destruct (isPidofNotFound e).
Qed.

(** *** The table of [ps] *)

Lemma PS_FIELDS_SPLITTER_RE_eq :
  PS_FIELDS_SPLITTER_RE
  = Seq (plus (Chr Chars.space))
        (opt (Seq (Chr status_letter) (plus (Chr Chars.space)))).
Proof. reflexivity. Qed.

Lemma status_letter_unspaced l : status_letter l = true → Chars.space l = false.
Proof.
  intros H. apply existsb_exists in H as (x & Hx & Hl). apply N.eqb_eq in Hl as ->.
  cbn in Hx. repeat (destruct Hx as [<-|Hx]; [by vm_compute|]). done.
Qed.

(** The splitter matches at white space only. *)
Lemma splitter_needs_space b s :
  (∀ c, head s = Some c → Chars.space c = false) →
  match_at PS_FIELDS_SPLITTER_RE b s = None.
Proof.
  intros Hs. rewrite PS_FIELDS_SPLITTER_RE_eq. unfold match_at. cbn [run].
  destruct s as [|c t]; [done|]. by rewrite run_plus_chr, (Hs c eq_refl).
Qed.

(** One or more blanks, up to the first code unit that is none. *)
Lemma run_blanks blanks s b c k z :
  blank_run blanks →
  (∀ a, head s = Some a → Chars.space a = false) →
  k (Pos (before_after b blanks) s c) = Some z →
  run (plus (Chr Chars.space)) (Pos b (blanks ++ s) c) k = Some z.
Proof.
  intros [Hne Hall] Hs Hk. destruct blanks as [|a u]; [done|].
  apply Forall_cons in Hall as [Ha Hu]. cbn [app]. rewrite run_plus_chr, Ha.
  apply star_chr_stops; [lia|done|done|done].
Qed.

Lemma run_blanks_fails s b c k :
  (∀ a, head s = Some a → Chars.space a = false) →
  run (plus (Chr Chars.space)) (Pos b s c) k = None.
Proof.
  intros Hs. destruct s as [|a t]; [done|]. by rewrite run_plus_chr, (Hs a eq_refl).
Qed.

(** The blanks before a cell that is no status letter, or that nothing
    follows: the splitter matches the blanks. *)
Lemma splitter_blanks blanks s b :
  blank_run blanks →
  (∀ a, head s = Some a → Chars.space a = false) →
  (∀ l t, s = l :: t → status_letter l = true →
     ∀ a, head t = Some a → Chars.space a = false) →
  match_at PS_FIELDS_SPLITTER_RE b (blanks ++ s)
  = Some (Pos (before_after b blanks) s []).
Proof.
  intros Hb Hs Hstatus. rewrite PS_FIELDS_SPLITTER_RE_eq. unfold match_at. cbn [run].
  apply run_blanks; [done|done|].
  cbn [run opt repeat rest Nat.eqb andb].
  destruct s as [|l t]; [done|]. cbn [run rest caps].
  destruct (status_letter l) eqn:Hl; [|done].
  by rewrite run_blanks_fails by (by apply (Hstatus l t)).
Qed.

(** The blanks before a status letter that blanks follow: the splitter
    matches all three. *)
Lemma splitter_status blanks l blanks' s b :
  blank_run blanks → status_letter l = true → blank_run blanks' →
  (∀ a, head s = Some a → Chars.space a = false) →
  match_at PS_FIELDS_SPLITTER_RE b (blanks ++ l :: blanks' ++ s)
  = Some (Pos (before_after (Some l) blanks') s []).
Proof.
  intros Hb Hl Hb' Hs. rewrite PS_FIELDS_SPLITTER_RE_eq. unfold match_at. cbn [run].
  pose proof (status_letter_unspaced l Hl) as Hsp.
  apply run_blanks; [done|by intros a [= <-]|].
  cbn [run opt repeat rest Nat.eqb andb caps]. rewrite Hl.
  rewrite (run_blanks blanks' s (Some l) [] _ (Pos (before_after (Some l) blanks') s []));
    try done.
  cbn [rest]. destruct Hb' as [Hne _].
  replace (Nat.eqb (length s) (length (l :: blanks' ++ s))) with false; [done|].
  symmetry. apply Nat.eqb_neq. cbn [length]. rewrite length_app. lia.
Qed.

(** *** Splitting a line of the table *)

Lemma split_go_cell cell : ∀ s b cur, unspaced cell →
  split_go PS_FIELDS_SPLITTER_RE b (cell ++ s) 0 cur
  = split_go PS_FIELDS_SPLITTER_RE (before_after b cell) s 0 (rev cell ++ cur).
Proof.
  induction cell as [|a cell IH]; intros s b cur Hc; [done|].
  apply Forall_cons in Hc as [Ha Hc]. cbn [app split_go].
  rewrite splitter_needs_space by (by intros ? [= <-]).
  rewrite IH by done. cbn [before_after rev]. by rewrite <- app_assoc.
Qed.

Lemma split_go_skip r : ∀ u s b cur,
  split_go r b (u ++ s) (length u) cur = split_go r (before_after b u) s 0 cur.
Proof. induction u as [|a u IH]; intros s b cur; [done|]. cbn. apply IH. Qed.

Lemma split_go_separator r m s b e cur :
  m ≠ [] → match_at r b (m ++ s) = Some e → rest e = s →
  split_go r b (m ++ s) 0 cur = rev cur :: split_go r (before_after b m) s 0 [].
Proof.
  intros Hm He Hrest. destruct m as [|a m]; [done|]. cbn [app split_go].
  change (a :: m ++ s) with ((a :: m) ++ s). rewrite He, Hrest.
  replace (length ((a :: m) ++ s) - length s)%nat with (S (length m))
    by (rewrite length_app; cbn [length]; lia).
  by rewrite split_go_skip.
Qed.

Lemma head_app_unspaced cell s :
  unspaced cell → (cell = [] → s = []) →
  ∀ a, head (cell ++ s) = Some a → Chars.space a = false.
Proof.
  intros Hc Hs a. destruct cell as [|c cell].
  - by rewrite (Hs eq_refl).
  - intros [= <-]. by apply Forall_cons in Hc as [? _].
Qed.

Lemma kept_status_last l : status_letter l = true → kept [[l]] = [[l]].
Proof. intros H. cbn [kept is_status]. fold status_letter. by rewrite H. Qed.

Lemma kept_status_next l next cells :
  status_letter l = true → kept ([l] :: next :: cells) = next :: kept cells.
Proof. intros H. cbn [kept is_status]. fold status_letter. by rewrite H. Qed.

Lemma kept_plain cell cells : is_status cell = false → kept (cell :: cells) = cell :: kept cells.
Proof. intros H. cbn [kept]. by rewrite H. Qed.

(** The pieces of a line: the first cell and the cells that are kept. *)
Lemma split_go_table : ∀ n rest, (length rest ≤ n)%nat → ∀ first b cur,
  unspaced first → spaced rest →
  split_go PS_FIELDS_SPLITTER_RE b (table_line first rest) 0 cur
  = (rev cur ++ first) :: kept (map snd rest).
Proof.
  assert (∀ first b cur, unspaced first →
            split_go PS_FIELDS_SPLITTER_RE b (table_line first []) 0 cur
            = [rev cur ++ first]) as Hbase.
  { intros first b cur Hf. unfold table_line. cbn [map concat].
    rewrite split_go_cell by done. cbn [split_go].
    by rewrite rev_app_distr, rev_involutive. }
  induction n as [|n IH]; intros rest Hn first b cur Hf Hsp.
  { destruct rest; [by apply Hbase|simpl in Hn; lia]. }
  destruct rest as [|[blanks cell] rest']; [by apply Hbase|].
  cbn [spaced] in Hsp. destruct Hsp as (Hb & Hc & Hlast & Hsp').
  unfold table_line. cbn [map concat fst snd length] in *.
  rewrite <- app_assoc, split_go_cell by done.
  set (cur' := rev first ++ cur).
  assert (rev cur' = rev cur ++ first) as Hcur
    by (subst cur'; by rewrite rev_app_distr, rev_involutive).
  destruct (is_status cell) eqn:Hst.
  - destruct cell as [|l [|? ?]]; try done. cbn [is_status] in Hst.
    fold status_letter in Hst.
    destruct rest' as [|[blanks' next] rest''].
    + cbn [map concat app snd]. rewrite (kept_status_last l Hst).
      assert (match_at PS_FIELDS_SPLITTER_RE (before_after b first) (blanks ++ [l])
              = Some (Pos (before_after (before_after b first) blanks) [l] [])) as Hm.
      { apply splitter_blanks; [done| |].
        - intros ? [= <-]. by apply status_letter_unspaced.
        - by intros ? ? [= <- <-] _ ? [=]. }
      rewrite (split_go_separator _ blanks [l] _ _ cur' (proj1 Hb) Hm eq_refl).
      cbn [split_go]. rewrite splitter_needs_space
        by (intros ? [= <-]; by apply status_letter_unspaced).
      cbn [split_go rev app]. by rewrite Hcur.
    + cbn [spaced] in Hsp'. destruct Hsp' as (Hb' & Hc' & Hlast' & Hsp'').
      cbn [map concat snd fst]. rewrite (kept_status_next l _ _ Hst).
      set (s := next ++ concat (map (fun p => fst p ++ snd p) rest'')).
      replace (blanks ++ [l] ++ (blanks' ++ next)
               ++ concat (map (fun p => fst p ++ snd p) rest''))
        with ((blanks ++ l :: blanks') ++ s)
        by (subst s; by rewrite <- !app_assoc).
      assert (∀ a, head s = Some a → Chars.space a = false) as Hs.
      { subst s. apply head_app_unspaced; [done|]. intros Hn'.
        by rewrite (Hlast' Hn'). }
      assert (match_at PS_FIELDS_SPLITTER_RE (before_after b first)
                ((blanks ++ l :: blanks') ++ s)
              = Some (Pos (before_after (Some l) blanks') s [])) as Hm.
      { rewrite <- app_assoc. cbn [app]. by apply splitter_status. }
      rewrite (split_go_separator _ (blanks ++ l :: blanks') s _ _ cur'
                 ltac:(by destruct blanks) Hm eq_refl).
      rewrite Hcur. f_equal.
      change s with (table_line next rest'').
      rewrite (IH rest'' ltac:(simpl in Hn; lia) next _ [] Hc' Hsp''). done.
  - set (s := cell ++ concat (map (fun p => fst p ++ snd p) rest')).
    replace ((blanks ++ cell) ++ concat (map (fun p => fst p ++ snd p) rest'))
      with (blanks ++ s) by (subst s; by rewrite <- app_assoc).
    assert (∀ a, head s = Some a → Chars.space a = false) as Hs.
    { subst s. apply head_app_unspaced; [done|]. intros Hn'. by rewrite (Hlast Hn'). }
    assert (match_at PS_FIELDS_SPLITTER_RE (before_after b first) (blanks ++ s)
            = Some (Pos (before_after (before_after b first) blanks) s [])) as Hm.
    { apply splitter_blanks; [done|done|].
      intros l t Hlt Hl a Ha. subst s.
      destruct cell as [|c [|c' cell]].
      - rewrite (Hlast eq_refl) in Hlt. done.
      - cbn [app] in Hlt. injection Hlt as <- <-. cbn [is_status] in Hst.
        fold status_letter in Hst. congruence.
      - cbn [app] in Hlt. injection Hlt as <- <-. cbn [head] in Ha.
        injection Ha as <-. apply Forall_cons in Hc as [_ Hc].
        by apply Forall_cons in Hc as [? _]. }
    rewrite (split_go_separator _ blanks s _ _ cur' (proj1 Hb) Hm eq_refl).
    rewrite Hcur. f_equal. change s with (table_line cell rest').
    rewrite (IH rest' ltac:(simpl in Hn; lia) cell _ [] Hc Hsp'). cbn [rev app map snd].
    by rewrite (kept_plain _ _ Hst).
Qed.

Lemma split_table first rest :
  unspaced first → spaced rest →
  Regex.split PS_FIELDS_SPLITTER_RE (table_line first rest) = first :: kept (map snd rest).
Proof.
  intros Hf Hsp. unfold Regex.split.
  destruct (table_line first rest) as [|a t] eqn:Ht.
  - destruct first; [|done]. destruct rest as [|[blanks cell] rest']; [done|].
    cbn [spaced] in Hsp. destruct Hsp as ([Hne _] & _). by destruct blanks.
  - rewrite <- Ht. by rewrite (split_go_table (length rest) rest).
Qed.

Lemma kept_Forall (P : jsstring → Prop) : ∀ n cells, (length cells ≤ n)%nat →
  Forall P cells → Forall P (kept cells).
Proof.
  induction n as [|n IH]; intros cells Hn Hc.
  { destruct cells; [done|simpl in Hn; lia]. }
  destruct cells as [|cell cells]; [done|]. apply Forall_cons in Hc as [Hcell Hc].
  cbn [kept]. destruct (is_status cell).
  - destruct cells as [|next cells]; [by constructor|].
    apply Forall_cons in Hc as [Hnext Hc]. constructor; [done|].
    apply IH; [simpl in Hn; lia|done].
  - constructor; [done|]. apply IH; [simpl in Hn; lia|done].
Qed.

(** *** Trimming a line *)

Lemma trim_start_blanks lead s : all_space lead → trim_start (lead ++ s) = trim_start s.
Proof.
  induction lead as [|a lead IH]; intros H; [done|].
  apply Forall_cons in H as [Ha H]. cbn [app trim_start]. rewrite Ha. by apply IH.
Qed.

Lemma trim_blank s : all_space s → trim s = [].
Proof.
  intros H. unfold trim. rewrite <- (app_nil_r s), trim_start_blanks by done. done.
Qed.

Lemma trim_body lead body z tail :
  all_space lead → all_space tail →
  (∀ a, head (body ++ [z]) = Some a → Chars.space a = false) → Chars.space z = false →
  trim (lead ++ (body ++ [z]) ++ tail) = body ++ [z].
Proof.
  intros Hlead Htail Hhead Hz. unfold trim. rewrite trim_start_blanks by done.
  assert (trim_start ((body ++ [z]) ++ tail) = (body ++ [z]) ++ tail) as ->.
  { destruct (body ++ [z]) as [|a t] eqn:E; [by destruct body|].
    cbn [app trim_start]. by rewrite (Hhead a eq_refl). }
  rewrite rev_app_distr, trim_start_blanks by (by apply Forall_rev).
  rewrite rev_app_distr. cbn [rev app trim_start]. rewrite Hz.
  change (z :: rev body) with ([z] ++ rev body).
  by rewrite rev_app_distr, rev_involutive.
Qed.

Lemma table_line_last : ∀ others first,
  table_cell first → Forall (fun p => blank_run (fst p) ∧ table_cell (snd p)) others →
  ∃ body z, table_line first others = body ++ [z] ∧ Chars.space z = false.
Proof.
  induction others as [|[blanks cell] others IH]; intros first [Hne Hf] Hrest.
  - unfold table_line. cbn [map concat]. rewrite app_nil_r.
    destruct first as [|z body _] using rev_ind; [done|]. exists body, z. split; [done|].
    apply Forall_app in Hf as [_ Hz]. by apply Forall_cons in Hz as [? _].
  - apply Forall_cons in Hrest as [[_ Hcell] Hrest].
    destruct (IH cell Hcell Hrest) as (body & z & Hb & Hz).
    exists ((first ++ blanks) ++ body), z. split; [|done].
    rewrite <- app_assoc, <- Hb. unfold table_line. cbn [map concat fst snd].
    by rewrite <- !app_assoc.
Qed.

Lemma cells_spaced others :
  Forall (fun p => blank_run (fst p) ∧ table_cell (snd p)) others → spaced others.
Proof.
  induction others as [|[blanks cell] others IH]; intros H; [done|].
  apply Forall_cons in H as [[Hb [Hne Hc]] H]. cbn [spaced fst snd] in *.
  split; [done|]. split; [done|]. split; [done|by apply IH].
Qed.

(** *** The lines of the output *)

Lemma split_go_lits_before c : ∀ s b b' skip cur,
  split_go (lits [c]) b s skip cur = split_go (lits [c]) b' s skip cur.
Proof.
  induction s as [|a t IH]; intros b b' skip cur; [done|]. cbn [split_go].
  destruct skip as [|n]; [|apply IH].
  unfold match_at, lits. cbn [map cat run rest caps].
  destruct (Chars.only c a); [|apply IH]. cbn [rest length].
  destruct (S (length t) - length t)%nat; [destruct cur|]; f_equal; apply IH.
Qed.

Lemma split_lines header body :
  LF ∉ header → JS.split [LF] (header ++ LF :: body) = header :: JS.split [LF] body.
Proof.
  intros Hh. unfold JS.split, Regex.split.
  destruct (header ++ LF :: body) as [|a t] eqn:E; [by destruct header|].
  rewrite <- E, split_go_at.
  - cbn [rev app]. f_equal. destruct body as [|c body]; [done|].
    apply split_go_lits_before.
  - apply List.Forall_forall. intros x Hx ->. by apply Hh, list_elem_of_In.
Qed.

(** The loop over the lines returns at the first line whose NAME field is
    the package name; the check of the number of fields changes nothing
    for a package name that is known. *)
Lemma psLoop_find (nameIdx pidIdx : option nat) (package : jsstring)
    (lines : list jsstring) :
  psLoop nameIdx pidIdx (Some package) lines
  = match nameIdx with
    | None => None
    | Some n =>
        List.find (fun line => bool_decide (psFields line !! n = Some package)) lines
        ≫= fun line => at_index (psFields line) pidIdx
    end.
Proof.
  induction lines as [|line lines IH]; cbn [psLoop].
  - by destruct nameIdx.
  - rewrite IH. destruct nameIdx as [n|]; cbn [at_index mbind option_bind List.find].
    + destruct (Nat.ltb_spec (length (psFields line)) n) as [Hlt|Hge].
      * rewrite (bool_decide_eq_false_2 (psFields line !! n = Some package)); [done|].
        rewrite lookup_ge_None_2 by lia. done.
      * by destruct (bool_decide (psFields line !! n = Some package)).
    + by rewrite bool_decide_eq_false_2.
Qed.

(** X22.  How [ps] is read.  The first line of the output gives the
    columns and every further line a row; the fields of a line are its
    cells, the text between the blanks, without any status letter (R, S,
    I, D, Z, T, W, <, N or L) that stands between two cells: such a letter
    is passed over, in the header as in a row, and the cell after it is
    kept.  A row is read without the white space around it; the header is
    read as it stands, so that blanks at its end make an empty last
    column.  The result is the field in the column PID of the first row
    whose field in the column NAME is the package name, and nothing when
    the header has no column NAME. *)
Theorem pidFromPs_reads_the_table (package : jsstring) :
  (∀ first rest, unspaced first → spaced rest →
     Regex.split PS_FIELDS_SPLITTER_RE (table_line first rest)
     = first :: kept (map snd rest))
  ∧ (∀ lead first rest tail,
       all_space lead → all_space tail → table_cell first →
       Forall (fun p => blank_run (fst p) ∧ table_cell (snd p)) rest →
       psFields (lead ++ table_line first rest ++ tail) = first :: kept (map snd rest))
  ∧ (∀ blank, all_space blank → psFields blank = [])
  ∧ (∀ header body, LF ∉ header →
       let keys := Regex.split PS_FIELDS_SPLITTER_RE header in
       pidFromPs (Some package) (header ++ LF :: body)
       = Ok match array_indexOf (js "NAME") keys with
            | None => None
            | Some n =>
                List.find (fun line => bool_decide (psFields line !! n = Some package))
                          (JS.split [LF] body)
                ≫= fun line => at_index (psFields line) (array_indexOf (js "PID") keys)
            end).
Proof.
  split; [|split; [|split]].
  - apply split_table.
  - intros lead first rest tail Hlead Htail Hfirst Hrest. unfold psFields.
    destruct (table_line_last rest first Hfirst Hrest) as (body & z & Hb & Hz).
    assert (trim (lead ++ table_line first rest ++ tail) = table_line first rest) as ->.
    { rewrite Hb. apply trim_body; try done. rewrite <- Hb. unfold table_line.
      destruct Hfirst as [Hne Hf]. destruct first as [|c first]; [done|].
      intros a [= <-]. by apply Forall_cons in Hf as [? _]. }
    rewrite split_table by (by destruct Hfirst; try apply cells_spaced).
    apply List.forallb_filter_id. apply forallb_forall. apply List.Forall_forall.
    assert (Forall table_cell (first :: kept (map snd rest))) as Hcells.
    { constructor; [done|]. apply (kept_Forall _ (length (map snd rest))); [done|].
      apply Forall_fmap. eapply Forall_impl; [exact Hrest|]. by intros ? [_ ?]. }
    eapply Forall_impl; [exact Hcells|]. intros cell [Hne _]. by destruct cell.
  - intros blank Hb. unfold psFields. by rewrite trim_blank.
  - intros header body Hh keys. unfold pidFromPs. rewrite split_lines by done.
    fold keys. by rewrite psLoop_find.
Qed.

Lemma pidFromPs_reads_the_table_witness :
  psFields (js "u0_a83    1234  200   1500000 80000 ffffffff 00000000 S com.example.app"
            ++ [CR])
  = [js "u0_a83"; js "1234"; js "200"; js "1500000"; js "80000"; js "ffffffff";
     js "00000000"; js "com.example.app"]
  ∧ pidFromPs (Some (js "com.example.app")) psOutput = Ok (Some (js "1234")).
Proof.
  destruct (pidFromPs_reads_the_table (js "com.example.app")) as (_ & Hrow & _ & Hscan).
  split.
  - apply (Hrow [] (js "u0_a83")
             [(js "    ", js "1234"); (js "  ", js "200"); (js "   ", js "1500000");
              (js " ", js "80000"); (js " ", js "ffffffff"); (js " ", js "00000000");
              (js " ", js "S"); (js " ", js "com.example.app")] [CR]).
    + by constructor.
    + by repeat constructor.
    + split; [done|]. by repeat constructor.
    + repeat constructor; done.
  - etransitivity.
    + apply (Hscan (js "USER     PID   PPID  VSIZE  RSS     WCHAN    PC         NAME" ++ [CR])).
      apply (bool_decide_unpack
               (LF ∉ js "USER     PID   PPID  VSIZE  RSS     WCHAN    PC         NAME"
                     ++ [CR])).
      by vm_compute.
    + by vm_compute.
Defined.

(** X23.  The scan of the socket table depends on its header: when the
    header has no Flags column, or no St column, no row is ever selected,
    whatever the rows hold, and the function returns [undefined]. *)
Theorem socketLoop_needs_the_columns
    (flagsIdx stIdx pathIdx : option nat) (pid appPackageName : option jsstring)
    (lines : list jsstring) :
  flagsIdx = None ∨ stIdx = None →
  socketLoop flagsIdx stIdx pathIdx pid appPackageName lines = Ok None.
Proof.
  intros H. induction lines as [|line lines IH]; [done|]. cbn [socketLoop].
  assert (socketRow flagsIdx stIdx pathIdx pid appPackageName line = Continue) as ->; [|done].
  unfold socketRow. destruct (_ <? _)%nat; [done|].
  destruct H as [-> | ->]; cbn [at_index mbind option_bind].
  - by rewrite bool_decide_eq_false_2.
  - rewrite (bool_decide_eq_false_2 (None = Some (js "01"))) by done.
    by rewrite orb_true_r.
Qed.

Lemma socketLoop_needs_the_columns_witness :
  findAbstractName (Some (js "1234")) (Some (js "com.example.app"))
    (js "cat: /proc/net/unix: Permission denied" ++ [CR; LF] ++ listeningRow ++ [CR; LF])
  = Ok None.
Proof.
  unfold findAbstractName.
  replace (JS.split [LF] (js "cat: /proc/net/unix: Permission denied" ++ [CR; LF]
                          ++ listeningRow ++ [CR; LF]))
    with [js "cat: /proc/net/unix: Permission denied" ++ [CR]; listeningRow ++ [CR]; []]
    by (by vm_compute).
  apply socketLoop_needs_the_columns. left. by vm_compute.
Defined.

End AndroidProcess.

(** ** Attaching on iOS: the bundle and the proxy *)
Module IosProxy.
Import Regex RegexFacts AppLauncher Notions.

Lemma anywhere_suffix p s :
  anywhere (fun u => bool_decide (u = p)) s = bool_decide (p `suffix_of` s).
Proof.
  induction s as [|c t IH]; simpl.
  - rewrite orb_false_r. apply bool_decide_ext. split.
    + intros <-. done.
    + intros H. symmetry. by apply suffix_nil_inv.
  - rewrite IH. destruct (bool_decide (c :: t = p)) eqn:H1; simpl.
    + apply bool_decide_eq_true_1 in H1. subst p. by rewrite bool_decide_eq_true_2.
    + apply bool_decide_eq_false_1 in H1. apply bool_decide_ext. split.
      * apply suffix_cons_r.
      * intros H. destruct p as [|x p]; [apply suffix_nil|].
        apply suffix_cons_inv in H as [H|H]; [by rewrite H in H1|done].
Qed.

Lemma match_at_lits_eol p b u :
  bool_decide (is_Some (match_at (Seq (lits p) (Eol false)) b u)) = bool_decide (u = p).
Proof.
  unfold match_at, lits. cbn [run]. rewrite <- (map_map Chars.only Chr), run_chars.
  rewrite prefix_by_only, length_map.
  destruct (bool_decide (take (length p) u = p)) eqn:Ht.
  - apply bool_decide_eq_true_1 in Ht. cbn [run rest andb].
    destruct (drop (length p) u) as [|c t] eqn:Hd.
    + rewrite !bool_decide_eq_true_2; [done| |by eauto].
      by rewrite <- (take_drop (length p) u), Hd, app_nil_r.
    + rewrite !bool_decide_eq_false_2; [done| |by intros [? ?]].
      intros ->. by rewrite drop_all in Hd.
  - apply bool_decide_eq_false_1 in Ht.
    rewrite !bool_decide_eq_false_2; [done| |by intros [? ?]].
    intros ->. by rewrite firstn_all in Ht.
Qed.

Lemma test_lits_eol p s :
  test (Seq (lits p) (Eol false)) s = bool_decide (p `suffix_of` s).
Proof.
  rewrite <- anywhere_suffix. apply test_anywhere. intros b u.
  by rewrite match_at_lits_eol.
Qed.

Lemma filter_head_find {A B} (P : A → bool) (l : list A) (f : A → B) (d : B) :
  match List.filter P l with x :: _ => f x | [] => d end
  = match List.find P l with Some x => f x | None => d end.
Proof. induction l as [|a l IH]; simpl; [done|]. by destruct (P a). Qed.

(** X24.  For a simulator the bundle is the first entry of the build
    directory whose name ends in ".app", in the order in which the
    directory was read: an entry that only holds ".app" somewhere, such as
    "x.app.dSYM", is passed over.  Without such an entry the function fails
    with "Unable to find .app file"; a directory that cannot be read keeps
    its own error. *)
Theorem getBundleIdentifier_first_app (entries : list jsstring) (e : error) :
  getBundleIdentifier (Ok entries)
  = match List.find (fun entry => bool_decide (js ".app" `suffix_of` entry)) entries with
    | Some entry => Ok entry
    | None => Err (Error (js "Unable to find .app file"))
    end
  ∧ getBundleIdentifier (Err e) = Err e.
Proof.
  split; [|done]. unfold getBundleIdentifier.
  rewrite (filter_head_find _ entries (fun entry => Ok entry)).
  change (cat [lit ".app"; Eol false]) with (Seq (lits (js ".app")) (Eol false)).
  induction entries as [|entry entries IH]; simpl; [done|].
  rewrite test_lits_eol. by destruct (bool_decide _).
Qed.

(** *** Numbers *)

Lemma digit_spec c : Chars.digit c = true ↔ 48 ≤ c ≤ 57.
Proof.
  unfold Chars.digit, Chars.range. change (cu "0") with 48. change (cu "9") with 57.
  rewrite andb_true_iff, !N.leb_le. done.
Qed.

Lemma decimal_go_digits fuel : ∀ n acc,
  Forall (fun c => Chars.digit c = true) acc →
  Forall (fun c => Chars.digit c = true) (decimal_go fuel n acc).
Proof.
  induction fuel as [|f IH]; intros n acc Hacc; simpl; [done|].
  destruct (N.ltb_spec n 10).
  - constructor; [|done]. apply digit_spec. lia.
  - apply IH. constructor; [|done]. apply digit_spec.
    assert (n mod 10 < 10) by (by apply N.mod_lt).
    set (m := n mod 10) in *. clearbody m. lia.
Qed.

Lemma decimal_go_head f : ∀ n acc,
  n < 2 ^ N.of_nat (S f) →
  ∃ c t, decimal_go (S f) n acc = c :: t ∧ Chars.digit c = true.
Proof.
  induction f as [|f IH]; intros n acc Hn.
  - change (2 ^ N.of_nat 1) with 2 in Hn. cbn [decimal_go].
    destruct (N.ltb_spec n 10); [|lia].
    eexists _, _. split; [done|]. apply digit_spec. lia.
  - cbn [decimal_go]. destruct (N.ltb_spec n 10).
    + eexists _, _. split; [done|]. apply digit_spec. lia.
    + apply IH. rewrite Nat2N.inj_succ, N.pow_succ_r' in Hn.
      apply N.Div0.div_lt_upper_bound. lia.
Qed.

Lemma read_digits_decimal_go fuel : ∀ n acc rest_,
  n < 2 ^ N.of_nat fuel →
  read_digits (decimal_go fuel n acc ++ rest_) 0 = read_digits (acc ++ rest_) n.
Proof.
  induction fuel as [|f IH]; intros n acc rest_ Hn.
  - change (2 ^ N.of_nat 0) with 1 in Hn. assert (n = 0) as -> by lia. done.
  - cbn [decimal_go]. destruct (N.ltb_spec n 10).
    + cbn [app read_digits].
      assert (Chars.digit (48 + n) = true) as -> by (apply digit_spec; lia).
      f_equal. lia.
    + rewrite IH.
      * cbn [app read_digits].
        assert (Chars.digit (48 + n mod 10) = true) as ->
          by (apply digit_spec; assert (n mod 10 < 10) by (by apply N.mod_lt);
              set (m := n mod 10) in *; clearbody m; lia).
        f_equal. assert (n = 10 * (n / 10) + n mod 10) as Hdm by (by apply N.div_mod).
        set (q := n / 10) in *. set (m := n mod 10) in *. clearbody q m. lia.
      * rewrite Nat2N.inj_succ, N.pow_succ_r' in Hn.
        apply N.Div0.div_lt_upper_bound. lia.
Qed.

Lemma decimal_fuel n : n < 2 ^ N.of_nat (S (N.to_nat (N.log2 n))).
Proof.
  rewrite Nat2N.inj_succ, N2Nat.id.
  destruct (N.eq_dec n 0) as [->|Hn]; [done|].
  apply N.log2_spec. lia.
Qed.

(** [parseInt] reads back what [toString] has written, for the integers
    that a number holds exactly. *)
Lemma parseInt10_decimal n : n < 2 ^ 53 → parseInt10 (Some (decimal n)) = Int false n.
Proof.
  intros Hn. unfold parseInt10, decimal. cbn [String_].
  destruct (decimal_go_head (N.to_nat (N.log2 n)) n [] (decimal_fuel n)) as (c & t & Hd & Hc).
  pose proof (read_digits_decimal_go _ n [] [] (decimal_fuel n)) as Hr.
  rewrite app_nil_r in Hr. cbn [app read_digits] in Hr.
  rewrite Hd in Hr |- *. apply digit_spec in Hc as Hc'.
  assert (trim_start (c :: t) = c :: t) as ->.
  { cbn [trim_start].
    assert (Chars.space c = false) as ->; [|done].
    unfold Chars.space, Chars.any_of, Chars.white_space, Chars.line_terminator, Chars.one_of.
    cbn [existsb].
    repeat match goal with
           | |- context [?a =? ?b] => destruct (N.eqb_spec a b); [lia|]
           | |- context [?a <=? ?b] => destruct (N.leb_spec a b); [lia|]
           end. done. }
  assert ((c =? cu "-") = false) as -> by (apply N.eqb_neq; change (cu "-") with 45; lia).
  assert ((c =? cu "+") = false) as -> by (apply N.eqb_neq; change (cu "+") with 43; lia).
  rewrite Hc, Hr. unfold to_double.
  by destruct (N.ltb_spec n (2 ^ 53)); [|lia].
Qed.

(** Beyond 2^53 the number read is the nearest double, not the integer
    written. *)
Example parseInt10_rounds :
  parseInt10 (Some (js "9007199254740993")) = Int false 9007199254740992
  ∧ parseInt10 (Some (js "9007199254740995")) = Int false 9007199254740996
  ∧ parseInt10 (Some (js " -80abc")) = Int true 80
  ∧ parseInt10 (Some (js "x")) = NaN.
Proof. repeat split; by vm_compute. Qed.

(** X25.  [getSimulatorProxyPort] takes the first entry of the proxy that is
    of the kind of the target (for the target "device" one that is no
    simulator, otherwise a simulator) and reads the port after the colon of
    its URL: from "host:" followed by the digits of a whole number below
    2^53 it gets that number.  Without such an entry it fails with the
    advice to switch on the Web Inspector; but an entry whose URL has no
    colon is no failure: the port is then NaN. *)
Theorem getSimulatorProxyPort_reads_the_port
    (JSON_parse : jsstring → outcome (list Webview)) (target_ packagePath response : jsstring)
    (endpointsList : list Webview) :
  JSON_parse response = Ok endpointsList →
  match List.find (wantedDevice target_) endpointsList with
  | None =>
      getSimulatorProxyPort JSON_parse target_ packagePath (Ok response)
      = Err (Error noIosTarget)
  | Some device =>
      (∀ host n, wv_url device = host ++ js ":" ++ decimal n → cu ":" ∉ host →
         n < 2 ^ 53 →
         getSimulatorProxyPort JSON_parse target_ packagePath (Ok response)
         = Ok {| pp_packagePath := packagePath; pp_targetPort := Int false n |})
      ∧ (cu ":" ∉ wv_url device →
         getSimulatorProxyPort JSON_parse target_ packagePath (Ok response)
         = Ok {| pp_packagePath := packagePath; pp_targetPort := NaN |})
  end.
Proof.
  intros Hparse. unfold getSimulatorProxyPort. rewrite Hparse.
  fold (wantedDevice target_).
  rewrite (filter_head_find (wantedDevice target_) endpointsList
             (fun device => Ok {| pp_packagePath := packagePath;
                                  pp_targetPort :=
                                    parseInt10 (JS.split (js ":") (wv_url device) !! 1%nat) |})).
  destruct (List.find (wantedDevice target_) endpointsList) as [device|]; [|done].
  split.
  - intros host n Hurl Hhost Hn. rewrite Hurl.
    change (js ":") with [cu ":"]. rewrite split_host_port.
    + cbn [lookup list_lookup]. by rewrite parseInt10_decimal.
    + apply List.Forall_forall. intros a Ha ->. by apply Hhost, list_elem_of_In.
    + apply List.Forall_forall. intros a Ha ->.
      pose proof (decimal_go_digits (S (N.to_nat (N.log2 n))) n [] (List.Forall_nil _)) as Hd.
      apply (proj1 (List.Forall_forall _ _)) with (x := cu ":") in Hd; [|done].
      by vm_compute in Hd.
  - intros Hurl. change (js ":") with [cu ":"]. rewrite split_plain; [done|].
    apply List.Forall_forall. intros a Ha ->. by apply Hurl, list_elem_of_In.
Qed.

Lemma getSimulatorProxyPort_witness :
  getSimulatorProxyPort (fun _ => Ok proxyDevices) (js "Device") (js "HelloCordova.app")
    (Ok (js "[...]"))
  = Ok {| pp_packagePath := js "HelloCordova.app"; pp_targetPort := Int false 9223 |}.
Proof.
  pose proof (getSimulatorProxyPort_reads_the_port (fun _ => Ok proxyDevices) (js "Device")
                (js "HelloCordova.app") (js "[...]") proxyDevices eq_refl) as H.
  cbn [List.find proxyDevices wantedDevice] in H.
  apply (proj1 H (js "localhost") 9223); [by vm_compute| |done].
  apply (bool_decide_unpack (cu ":" ∉ js "localhost")). by vm_compute.
Defined.

End IosProxy.

(** ** Attaching: the failures *)
Module Attaching.
Import AppLauncher Notions.

Section Attach.
Variable getCordovaProjectRoot : option jsstring → option jsstring.
Variable createServer : outcome unit.
Variable determineProjectTypes : outcome unit.
Variable attachAndroid : RequestArgs → outcome RequestArgs.
Variable attachIos : RequestArgs → outcome RequestArgs.

(** X26.  [attach] stops at the first failure and rejects its promise with
    that error: when the proxy server cannot be created nothing else is
    called, not even the project types; when the project types cannot be
    determined no endpoint resolver is called; and a device or emulator
    target on a platform other than Android and iOS fails with "Unknown
    Platform" and the platform in lower case ("undefined" when the request
    has none), for a platform that is written in ASCII. *)
Theorem attach_rejects_with_the_first_failure (attachArgs : RequestArgs) :
  let normalized := attach_normalize getCordovaProjectRoot attachArgs in
  let run := attach getCordovaProjectRoot createServer determineProjectTypes
               attachAndroid attachIos attachArgs in
  (∀ e, createServer = Err e →
     promise run = Rejected e
     ∧ calls run = [NewCordovaCDPProxy; SetApplicationTargetPort (port normalized);
                    CreateServer])
  ∧ (∀ e, createServer = Ok tt → determineProjectTypes = Err e →
     promise run = Rejected e
     ∧ calls run = [NewCordovaCDPProxy; SetApplicationTargetPort (port normalized);
                    CreateServer; DetermineProjectTypes])
  ∧ (createServer = Ok tt → determineProjectTypes = Ok tt →
     toLowerCase <$> target normalized = Some (js "device")
     ∨ toLowerCase <$> target normalized = Some (js "emulator") →
     toLowerCase <$> platform normalized ≠ Some (js "android") →
     toLowerCase <$> platform normalized ≠ Some (js "ios") →
     (∀ name, platform normalized = Some name → is_ascii name) →
     promise run
     = Rejected (Error (js "Unknown Platform: "
                        ++ String_ (toLowerCase <$> platform normalized)))).
Proof.
  intros normalized run. subst run. unfold attach, attach_chain. fold normalized.
  split; [|split].
  - by intros e ->.
  - by intros e -> ->.
  - intros -> -> Ht Hp1 Hp2 _.
    rewrite (bool_decide_eq_false_2 _ Hp1), (bool_decide_eq_false_2 _ Hp2).
    destruct Ht as [-> | ->]; done.
Qed.

End Attach.

Lemma attach_rejects_witness :
  promise (attach (fun d => d) (Ok tt) (Ok tt) (fun a => Ok a) (fun a => Ok a)
             (request (Some (js "Windows")) None None false))
  = Rejected (Error (js "Unknown Platform: windows")).
Proof.
  apply (proj2 (proj2 (attach_rejects_with_the_first_failure (fun d => d) (Ok tt) (Ok tt)
                         (fun a => Ok a) (fun a => Ok a)
                         (request (Some (js "Windows")) None None false))));
    try done.
  - by right.
  - intros name [= <-]. by repeat constructor.
Defined.

End Attaching.

(** ** The errors of the dev server *)
Module ServerErrors.
Import Regex RegexFacts AppLauncher Notions.

(** X27.  What [getServerErrorMessage] reports.  It reports nothing when the
    channel holds no "error:" (in any case of the letters), and under
    Ionic 4 also when the channel holds the port notice.  Otherwise the
    message is the heading, the end of line of the platform and the first
    error line: the text from the first "error:" of the channel up to the
    end of its line, and nothing of what follows. *)
Theorem getServerErrorMessage_first_error_line
    (EOL : jsstring) (isIonic4 : bool) (channel : jsstring) :
  (getServerErrorMessage EOL isIonic4 channel = None
   ↔ isIonic4 && includes portProbeNotice channel = true
     ∨ includes (js "error:") (toLowerCase channel) = false)
  ∧ ∀ msg, getServerErrorMessage EOL isIonic4 channel = Some msg →
      ∃ pre line post,
        channel = pre ++ line ++ post
        ∧ msg = js "Error in the Ionic live reload server:" ++ EOL ++ line
        ∧ toLowerCase (take 6 line) = js "error:"
        ∧ Forall (fun c => Chars.line_terminator c = false) (drop 6 line)
        ∧ (∀ c, head post = Some c → Chars.line_terminator c = true)
        ∧ ∀ j, (j < length pre)%nat →
            take 6 (drop j (toLowerCase channel)) ≠ js "error:".
Proof.
  assert (∀ b u, prefix_by (map Chars.is_i (js "error:")) u
                 = bool_decide (is_Some (match_at errorRegex b u))) as HP.
  { intros b u. symmetry. apply (match_at_chars_star (map Chars.is_i (js "error:"))). }
  assert (∀ u, prefix_by (map Chars.is_i (js "error:")) u
               = bool_decide (take 6 (toLowerCase u) = js "error:")) as HQ.
  { intros u. by rewrite (prefix_by_liti "error:"). }
  unfold getServerErrorMessage.
  change (lit "utils-network error while checking") with (lits portProbeNotice).
  rewrite test_lits. split.
  - destruct (isIonic4 && includes portProbeNotice channel); [by split; [left|]|].
    pose proof (test_liti_star "error:" dot channel eq_refl) as Ht.
    change (Seq (liti "error:") (star dot)) with errorRegex in Ht.
    change (toLowerCase (js "error:")) with (js "error:") in Ht. rewrite <- Ht.
    unfold test. destruct (exec errorRegex channel) as [m|].
    + split; [done|]. intros [H|H]; [done|].
      apply bool_decide_eq_false_1 in H. destruct H. eauto.
    + split; [|done]. intros _. right. apply bool_decide_eq_false_2. by intros [? ?].
  - intros msg. destruct (isIonic4 && includes portProbeNotice channel); [done|].
    destruct (exec errorRegex channel) as [m|] eqn:Hm; [|done]. intros Hmsg.
    assert (msg = js "Error in the Ionic live reload server:" ++ EOL ++ matched m) as ->
      by congruence.
    clear Hmsg.
    apply (search_first errorRegex _ HP) in Hm
      as (pre & u & b' & e & -> & He & -> & Hfirst).
    assert (prefix_by (map Chars.is_i (js "error:")) u = true) as Hu.
    { rewrite (HP b'). apply bool_decide_eq_true_2. eauto. }
    assert (6 ≤ length u)%nat as Hlen.
    { rewrite HQ in Hu. apply bool_decide_eq_true_1 in Hu.
      apply (f_equal length) in Hu. rewrite length_take in Hu.
      unfold toLowerCase in Hu. rewrite length_map in Hu.
      change (length (js "error:")) with 6%nat in Hu. lia. }
    unfold match_at, errorRegex in He.
    change (cat [liti "error:"; star dot])
      with (Seq (cat (map Chr (map Chars.is_i (js "error:")))) (star dot)) in He.
    cbn [run] in He. rewrite run_chars, Hu in He.
    change (length (map Chars.is_i (js "error:"))) with 6%nat in He.
    cbn [run star rest Nat.add] in He.
    destruct (star_chr_end Chars.dot (drop 6 u) (length (drop 6 u))
                (before_after b' (take 6 u)) []) as [b'' Hstar]; [done|].
    change (run dot) with (run (Chr Chars.dot)) in He.
    rewrite Hstar in He. injection He as <-.
    destruct (after_run_split Chars.dot (drop 6 u)) as (run_ & Hsplit & Hrun & Hhead).
    set (post := after_run Chars.dot (drop 6 u)) in *.
    assert (u = (take 6 u ++ run_) ++ post) as Hline.
    { rewrite <- app_assoc, <- Hsplit. by rewrite take_drop. }
    exists pre, (take 6 u ++ run_), post.
    assert (length (take 6 u) = 6%nat) as Ht6 by (rewrite length_take; lia).
    assert (take (length u - length post) u = take 6 u ++ run_) as Hmatched.
    { rewrite Hline at 1 2. rewrite length_app, Nat.add_sub. apply take_app_length. }
    repeat split.
    + by rewrite <- Hline.
    + unfold result_at. cbn [matched rest]. by rewrite Hmatched.
    + rewrite take_app_le by lia. rewrite firstn_all2 by lia.
      rewrite HQ in Hu. apply bool_decide_eq_true_1 in Hu.
      unfold toLowerCase in *. by rewrite <- Hu, <- !fmap_take.
    + rewrite drop_app_ge by lia. rewrite Ht6, Nat.sub_diag, drop_0.
      eapply Forall_impl; [exact Hrun|]. intros c Hc. unfold Chars.dot in Hc.
      by destruct (Chars.line_terminator c).
    + intros c Hc. apply Hhead in Hc. unfold Chars.dot in Hc.
      by destruct (Chars.line_terminator c).
    + intros j Hj Heq. specialize (Hfirst j Hj). rewrite HQ in Hfirst.
      apply bool_decide_eq_false_1 in Hfirst. apply Hfirst.
      unfold toLowerCase in *. by rewrite fmap_drop.
Qed.

End ServerErrors.

(** ** The addresses of the dev server *)
Module ServerUrls.
Import Regex RegexFacts AppLauncher Notions.

Lemma externalUrlsRegex_begins b u :
  is_Some (match_at externalUrlsRegex b u) →
  take 9 (toLowerCase u) = js "external:".
Proof.
  intros [e He]. unfold match_at, externalUrlsRegex in He.
  change (cat [liti "External:"; Chr Chars.space; Grp 1 (star dot); Eol true])
    with (Seq (cat (map Chr (map Chars.is_i (js "External:"))))
              (Seq (Chr Chars.space) (Seq (Grp 1 (star dot)) (Eol true)))) in He.
  cbn [run] in He. rewrite run_chars in He.
  destruct (prefix_by _ u) eqn:Hp; [|done].
  rewrite (prefix_by_liti "External:") in Hp by reflexivity.
  by apply bool_decide_eq_true_1 in Hp.
Qed.

(** X28.  The addresses that [appDeferred] is resolved with besides the
    announced one.  When the output holds no "External:" (in any case of the
    letters) there are none.  When its first "External:" is followed by a
    white space character, the addresses are the pieces of the rest of that
    line, up to the end of the line, between the separators ", ", each
    without the white space around it. *)
Theorem serverUrls_external_addresses (m : result) (out : jsstring) :
  (includes (js "external:") (toLowerCase out) = false → serverUrls m out = [capture 2 m])
  ∧ ∀ (pre key line post : jsstring) (ws : N),
      out = pre ++ key ++ ws :: line ++ post →
      toLowerCase key = js "external:" →
      Chars.space ws = true →
      Forall (fun c => Chars.line_terminator c = false) line →
      (∀ c, head post = Some c → Chars.line_terminator c = true) →
      (∀ j, (j < length pre)%nat → take 9 (drop j (toLowerCase out)) ≠ js "external:") →
      serverUrls m out = capture 2 m :: map trim (JS.split (js ", ") line).
Proof.
  split.
  - intros Hnone. unfold serverUrls.
    destruct (exec externalUrlsRegex out) as [m'|] eqn:Hm; [|done].
    apply search_suffix in Hm as (pre & u & b' & e & -> & He).
    assert (includes (js "external:") (toLowerCase (pre ++ u)) = true) as Hin; [|congruence].
    rewrite includes_anywhere. unfold toLowerCase. rewrite map_app.
    apply anywhere_app_l.
    pose proof (externalUrlsRegex_begins b' u (ex_intro _ e He)) as Hb.
    destruct u as [|c u]; [done|]. simpl. rewrite bool_decide_eq_true_2; done.
  - intros pre key line post ws -> Hkey Hws Hline Hpost Hfirst. unfold serverUrls.
    assert (length key = 9%nat) as Hlen.
    { apply (f_equal length) in Hkey. unfold toLowerCase in Hkey.
      by rewrite length_map in Hkey. }
    set (u := key ++ ws :: line ++ post).
    assert (∃ b', match_at externalUrlsRegex (before_after None pre) u
                  = Some (Pos b' post [(1%nat, line)])) as [b' He].
    { unfold match_at, externalUrlsRegex.
      change (cat [liti "External:"; Chr Chars.space; Grp 1 (star dot); Eol true])
        with (Seq (cat (map Chr (map Chars.is_i (js "External:"))))
                  (Seq (Chr Chars.space) (Seq (Grp 1 (star dot)) (Eol true)))).
      cbn [run]. rewrite run_chars.
      assert (prefix_by (map Chars.is_i (js "External:")) u = true) as ->.
      { rewrite (prefix_by_liti "External:") by reflexivity. apply bool_decide_eq_true_2.
        subst u. unfold toLowerCase. rewrite map_app. fold (toLowerCase key).
        rewrite Hkey. done. }
      change (length (map Chars.is_i (js "External:"))) with 9%nat.
      subst u. rewrite drop_app_length' by done.
      cbn [run rest caps]. rewrite Hws. cbn [run star rest Nat.add].
      eexists. change (run dot) with (run (Chr Chars.dot)).
      apply star_chr_stops; [done| | |].
      - eapply Forall_impl; [exact Hline|]. intros c Hc. unfold Chars.dot. by rewrite Hc.
      - intros c Hc. unfold Chars.dot. by rewrite (Hpost c Hc).
      - cbn [before rest caps]. unfold consumed. cbn [rest].
        rewrite length_app, Nat.add_sub, take_app_length.
        destruct post as [|c post']; cbn [run rest]; [done|].
        by rewrite (Hpost c eq_refl). }
    unfold exec.
    rewrite (search_at externalUrlsRegex pre u None 0 (Pos b' post [(1%nat, line)]));
      [| |exact He].
    + unfold capture, group, result_at. cbn [groups caps List.find fst snd Nat.eqb].
      done.
    + intros j b'' Hj.
      destruct (match_at externalUrlsRegex b'' (drop j (pre ++ u))) as [e|] eqn:Hm; [|done].
      destruct (Hfirst j Hj). unfold toLowerCase. rewrite <- fmap_drop.
      apply (externalUrlsRegex_begins b''). fold u. rewrite Hm. eauto.
Qed.

Lemma serverUrls_external_witness :
  match exec SERVER_URL_RE ionic1Banner with
  | Some m =>
      serverUrls m ionic1Banner
      = [js "http://localhost:8100"; js "http://10.0.75.1:8100";
         js "http://172.28.124.161:8100"]
  | None => False
  end.
Proof.
  destruct (exec SERVER_URL_RE ionic1Banner) as [m|] eqn:Hm; [|by vm_compute in Hm].
  vm_compute in Hm. injection Hm as <-.
  etransitivity.
  - apply (proj2 (serverUrls_external_addresses _ ionic1Banner)
             (js "[OK] Development server running!" ++ [LF]
              ++ js "     Local: http://localhost:8100" ++ [LF] ++ js "     ")
             (js "External:") (js "http://10.0.75.1:8100, http://172.28.124.161:8100")
             [LF] (cu " ")).
    + by vm_compute.
    + by vm_compute.
    + by vm_compute.
    + by repeat constructor.
    + by intros c [= <-].
    + intros j Hj. cbn [length app js map list_ascii_of_string] in Hj.
      repeat (destruct j as [|j]; [by vm_compute|]). lia.
  - by vm_compute.
Defined.

End ServerUrls.
